(** * MY_spotify: the playback queue store and the playlist model

  A shallow embedding of
  - [frontend/src/store/index.js] (the zustand store [useMusicPlayerStore]:
    queue, cursor, playback modes and transport flags), and
  - the mongoose playlist schema with its [reorderTracks] method,
  followed by the properties of the queue controller stated in the
  specification.

  Conventions.  A JavaScript array is a [list]; an integer-valued number is
  a [Z]; a fractional number (volume, times, the value of [Math.random()])
  is the rational [Q] that the binary64 number stands for, and the one
  floating-point operation the code performs on such numbers, the product
  [Math.random() * n], is rounded to binary64 as IEEE 754 does.  A
  store field that can hold [undefined] or [null] has a type that says so.
  [set(partial)] of zustand merges [partial] into the state: it is written
  as a chain of single-field updates. *)

From Stdlib Require Import ZArith QArith Qround Qpower List String Bool Lia.
From Stdlib Require Import Lqa Permutation.
Import ListNotations.

Open Scope Z_scope.

(** ** JavaScript values and array primitives *)

Module Js.

(** A variable holding an integer or [undefined] ([currentIndex],
    [nextIndex]). *)
Inductive num : Type :=
| Num (z : Z)
| Undef.

(** A variable holding an object, [null] or [undefined] ([currentTrack]). *)
Inductive ref (A : Type) : Type :=
| Null
| Undefined
| Obj (a : A).

Arguments Null {A}.
Arguments Undefined {A}.
Arguments Obj {A} a.

(** [arr.length] *)
Definition length {A : Type} (arr : list A) : Z :=
  Z.of_nat (List.length arr).

(** [arr[i]] for an integer [i]; [None] stands for [undefined]. *)
Definition get {A : Type} (arr : list A) (i : Z) : option A :=
  if i <? 0 then None else nth_error arr (Z.to_nat i).

(** [arr[n]] for a variable [n]: [arr[undefined]] reads the property named
    "undefined", which an array does not have. *)
Definition get_at {A : Type} (arr : list A) (n : num) : option A :=
  match n with
  | Num i => get arr i
  | Undef => None
  end.

(** The value of the expression [arr[n]] when the elements are objects. *)
Definition read {A : Type} (o : option A) : ref A :=
  match o with
  | Some a => Obj a
  | None => Undefined
  end.

(** [x || null] for [x] an object (truthy) or [undefined] (falsy). *)
Definition or_null {A : Type} (o : option A) : ref A :=
  match o with
  | Some a => Obj a
  | None => Null
  end.

(** [arr.map((_, i) => f(_, i))], positions counted from [i]. *)
Fixpoint mapi_from {A B : Type} (f : A -> Z -> B) (i : Z) (arr : list A)
  : list B :=
  match arr with
  | [] => []
  | a :: rest => f a i :: mapi_from f (i + 1) rest
  end.

Definition mapi {A B : Type} (f : A -> Z -> B) (arr : list A) : list B :=
  mapi_from f 0 arr.

(** [arr.filter((_, i) => p(_, i))], positions counted from [i]. *)
Fixpoint filteri_from {A : Type} (p : A -> Z -> bool) (i : Z) (arr : list A)
  : list A :=
  match arr with
  | [] => []
  | a :: rest =>
      if p a i then a :: filteri_from p (i + 1) rest
      else filteri_from p (i + 1) rest
  end.

Definition filteri {A : Type} (p : A -> Z -> bool) (arr : list A) : list A :=
  filteri_from p 0 arr.

(** [i === n] and [i !== n] for an integer [i] and a variable [n]. *)
Definition strict_eq (i : Z) (n : num) : bool :=
  match n with
  | Num c => i =? c
  | Undef => false
  end.

Definition strict_ne (i : Z) (n : num) : bool := negb (strict_eq i n).

(** [i < n], [n < i], [n > i] and [n >= i]: a comparison with [undefined]
    converts it to [NaN] and is false. *)
Definition lt_num (i : Z) (n : num) : bool :=
  match n with
  | Num c => i <? c
  | Undef => false
  end.

Definition num_lt (n : num) (i : Z) : bool :=
  match n with
  | Num c => c <? i
  | Undef => false
  end.

Definition num_gt (n : num) (i : Z) : bool :=
  match n with
  | Num c => c >? i
  | Undef => false
  end.

Definition num_ge (n : num) (i : Z) : bool :=
  match n with
  | Num c => c >=? i
  | Undef => false
  end.

(** [n + k] and [n - k] on a variable; [undefined] gives [NaN], which the
    store never keeps: both are only evaluated under a comparison that
    [undefined] fails.  [NaN] is folded into [Undef] (it indexes no array
    element and fails every comparison, like [undefined]). *)
Definition add (n : num) (k : Z) : num :=
  match n with
  | Num c => Num (c + k)
  | Undef => Undef
  end.

(** [Math.floor(x)] *)
Definition Math_floor (x : Q) : Z := Qfloor x.

(** *** Binary64 numbers *)

(** [2 ** e] *)
Definition pow2 (e : Z) : Q := (2 ^ e)%Q.

(** [x] is a finite binary64 number: a mantissa of at most 53 bits times a
    power of two in the exponent range (subnormal numbers included). *)
Definition is_double (x : Q) : Prop :=
  exists m e : Z,
    Z.abs m < 2 ^ 53 /\ -1074 <= e <= 971 /\ (x == inject_Z m * pow2 e)%Q.

(** The exponent of the binade of [x > 0]: the largest [d] with
    [2 ** d <= x]. *)
Definition ilog2 (x : Q) : Z :=
  let d := Z.log2 (Qnum x) - Z.log2 (Z.pos (Qden x)) in
  if Qle_bool (pow2 d) x then d else d - 1.

(** The integer nearest to [q], the even one of the two when [q] is half
    way. *)
Definition round_half_even (q : Q) : Z :=
  let f := Qfloor q in
  match (q - inject_Z f ?= 1 # 2)%Q with
  | Lt => f
  | Gt => f + 1
  | Eq => if Z.even f then f else f + 1
  end.

(** The binary64 number nearest to [x > 0], ties to the even mantissa: the
    mantissa is counted in units of [2 ** (e - 52)] for [x] in the binade
    [2 ** e], and in units of [2 ** -1074] below the normal range. *)
Definition round64_pos (x : Q) : Q :=
  let e := Z.max (ilog2 x - 52) (-1074) in
  (inject_Z (round_half_even (x / pow2 e)) * pow2 e)%Q.

(** Rounding to binary64 (round to nearest, ties to even).  Numbers of
    magnitude [2 ** 1024] and more, which round to [Infinity], are outside
    the model: the products rounded here are below an array length. *)
Definition round64 (x : Q) : Q :=
  match (x ?= 0)%Q with
  | Eq => 0%Q
  | Gt => round64_pos x
  | Lt => (- round64_pos (- x))%Q
  end.

(** [a * b] on numbers. *)
Definition mul (a b : Q) : Q := round64 (a * b).

End Js.

(** ** The music player store ([useMusicPlayerStore]) *)

Module Player.

(** A track object as the catalog supplies it. *)
Record Track : Type := mkTrack {
  id : string;
  title : string;
  artist : string;
  trackDuration : Z;
  audioUrl : string;
  imageUrl : string
}.

(** The playlist object passed to [setCurrentTrack]. *)
Record Playlist : Type := mkPlaylist {
  name : string;
  tracks : list Track
}.

(** [repeat]: one of 'off', 'one', 'all'. *)
Inductive RepeatMode : Type :=
| Off
| One
| All.

Definition RepeatMode_eqb (a b : RepeatMode) : bool :=
  match a, b with
  | Off, Off | One, One | All, All => true
  | _, _ => false
  end.

Record State : Type := mkState {
  currentTrack : Js.ref Track;
  currentPlaylist : option Playlist;
  queue : list Track;
  currentIndex : Js.num;
  isPlaying : bool;
  volume : Q;
  isMuted : bool;
  currentTime : Q;
  duration : Q;
  isLoading : bool;
  shuffle : bool;
  repeat : RepeatMode
}.

(** The state the store is created with. *)
Definition initial : State :=
  {| currentTrack := Js.Null;
     currentPlaylist := None;
     queue := [];
     currentIndex := Js.Num 0;
     isPlaying := false;
     volume := 8 # 10;
     isMuted := false;
     currentTime := 0;
     duration := 0;
     isLoading := false;
     shuffle := false;
     repeat := Off |}.

(** *** [set({ field: value })], one field at a time *)

Definition set_currentTrack (v : Js.ref Track) (s : State) : State :=
  mkState v (currentPlaylist s) (queue s) (currentIndex s) (isPlaying s)
    (volume s) (isMuted s) (currentTime s) (duration s) (isLoading s)
    (shuffle s) (repeat s).

Definition set_currentPlaylist (v : option Playlist) (s : State) : State :=
  mkState (currentTrack s) v (queue s) (currentIndex s) (isPlaying s)
    (volume s) (isMuted s) (currentTime s) (duration s) (isLoading s)
    (shuffle s) (repeat s).

Definition set_queue (v : list Track) (s : State) : State :=
  mkState (currentTrack s) (currentPlaylist s) v (currentIndex s)
    (isPlaying s) (volume s) (isMuted s) (currentTime s) (duration s)
    (isLoading s) (shuffle s) (repeat s).

Definition set_currentIndex (v : Js.num) (s : State) : State :=
  mkState (currentTrack s) (currentPlaylist s) (queue s) v (isPlaying s)
    (volume s) (isMuted s) (currentTime s) (duration s) (isLoading s)
    (shuffle s) (repeat s).

Definition set_isPlaying (v : bool) (s : State) : State :=
  mkState (currentTrack s) (currentPlaylist s) (queue s) (currentIndex s) v
    (volume s) (isMuted s) (currentTime s) (duration s) (isLoading s)
    (shuffle s) (repeat s).

Definition set_volume (v : Q) (s : State) : State :=
  mkState (currentTrack s) (currentPlaylist s) (queue s) (currentIndex s)
    (isPlaying s) v (isMuted s) (currentTime s) (duration s) (isLoading s)
    (shuffle s) (repeat s).

Definition set_isMuted (v : bool) (s : State) : State :=
  mkState (currentTrack s) (currentPlaylist s) (queue s) (currentIndex s)
    (isPlaying s) (volume s) v (currentTime s) (duration s) (isLoading s)
    (shuffle s) (repeat s).

Definition set_currentTime (v : Q) (s : State) : State :=
  mkState (currentTrack s) (currentPlaylist s) (queue s) (currentIndex s)
    (isPlaying s) (volume s) (isMuted s) v (duration s) (isLoading s)
    (shuffle s) (repeat s).

Definition set_duration (v : Q) (s : State) : State :=
  mkState (currentTrack s) (currentPlaylist s) (queue s) (currentIndex s)
    (isPlaying s) (volume s) (isMuted s) (currentTime s) v (isLoading s)
    (shuffle s) (repeat s).

Definition set_isLoading (v : bool) (s : State) : State :=
  mkState (currentTrack s) (currentPlaylist s) (queue s) (currentIndex s)
    (isPlaying s) (volume s) (isMuted s) (currentTime s) (duration s) v
    (shuffle s) (repeat s).

Definition set_shuffle (v : bool) (s : State) : State :=
  mkState (currentTrack s) (currentPlaylist s) (queue s) (currentIndex s)
    (isPlaying s) (volume s) (isMuted s) (currentTime s) (duration s)
    (isLoading s) v (repeat s).

Definition set_repeat (v : RepeatMode) (s : State) : State :=
  mkState (currentTrack s) (currentPlaylist s) (queue s) (currentIndex s)
    (isPlaying s) (volume s) (isMuted s) (currentTime s) (duration s)
    (isLoading s) (shuffle s) v.


(** [set({ ... })]: the listed fields are written, the others kept. *)
Definition set (partial : list (State -> State)) (s : State) : State :=
  fold_left (fun st write => write st) partial s.

(** *** Actions *)

(** [setCurrentTrack(track, playlist = null, index = 0)] *)
Definition setCurrentTrack (track : Track) (playlist : option Playlist)
  (index : Z) (s : State) : State :=
  set [ set_currentTrack (Js.Obj track);
        set_currentPlaylist playlist;
        set_currentIndex (Js.Num index);
        set_isLoading true ] s.

(** [setQueue(tracks, startIndex = 0)] *)
Definition setQueue (tracks : list Track) (startIndex : Z) (s : State)
  : State :=
  set [ set_queue tracks;
        set_currentIndex (Js.Num startIndex);
        set_currentTrack (Js.or_null (Js.get tracks startIndex)) ] s.

Definition play (s : State) : State := set [ set_isPlaying true ] s.

Definition pause (s : State) : State := set [ set_isPlaying false ] s.

Definition togglePlay (s : State) : State :=
  set [ set_isPlaying (negb (isPlaying s)) ] s.

(** [setVolume(volume)]: [isMuted: volume === 0] *)
Definition setVolume (v : Q) (s : State) : State :=
  set [ set_volume v; set_isMuted (Qeq_bool v 0) ] s.

(** [toggleMute()]: [state.volume || 0.8] *)
Definition toggleMute (s : State) : State :=
  if isMuted s then
    set [ set_isMuted false;
          set_volume (if Qeq_bool (volume s) 0 then 8 # 10 else volume s) ] s
  else
    set [ set_isMuted true; set_volume 0 ] s.

Definition setCurrentTime (time : Q) (s : State) : State :=
  set [ set_currentTime time ] s.

Definition setDuration (d : Q) (s : State) : State :=
  set [ set_duration d ] s.

Definition setIsLoading (loading : bool) (s : State) : State :=
  set [ set_isLoading loading ] s.

(** [queue.map((_, i) => i).filter(i => i !== currentIndex)] *)
Definition availableIndices (q : list Track) (cur : Js.num) : list Z :=
  filter (fun i => Js.strict_ne i cur) (Js.mapi (fun _ i => i) q).

(** [availableIndices[Math.floor(Math.random() * availableIndices.length)]],
    [random] being the value [Math.random()] returned.  The length is an
    integer below [2 ** 32], a binary64 number as it stands; the product is
    rounded to binary64 before [Math.floor] sees it. *)
Definition pickAvailable (random : Q) (available : list Z) : Js.num :=
  match
    Js.get available
      (Js.Math_floor (Js.mul random (inject_Z (Js.length available))))
  with
  | Some i => Js.Num i
  | None => Js.Undef
  end.

(** The [nextIndex] that [nextTrack] computes; [None] is the early
    [return // No next track]. *)
Definition nextIndex (random : Q) (s : State) : option Js.num :=
  if shuffle s then
    Some (pickAvailable random (availableIndices (queue s) (currentIndex s)))
  else if RepeatMode_eqb (repeat s) One then
    Some (currentIndex s)
  else if RepeatMode_eqb (repeat s) All
          && Js.strict_eq (Js.length (queue s) - 1) (currentIndex s) then
    Some (Js.Num 0)
  else if Js.num_lt (currentIndex s) (Js.length (queue s) - 1) then
    Some (Js.add (currentIndex s) 1)
  else
    None.

(** [nextTrack()], given the value [random] that [Math.random()] returns if
    it is called. *)
Definition nextTrack (random : Q) (s : State) : State :=
  if Js.length (queue s) =? 0 then s
  else
    match nextIndex random s with
    | None => s
    | Some next =>
        set [ set_currentIndex next;
              set_currentTrack (Js.read (Js.get_at (queue s) next));
              set_currentTime 0;
              set_isLoading true ] s
    end.

(** The [prevIndex] that [previousTrack] computes; [None] is the early
    [return // No previous track]. *)
Definition prevIndex (s : State) : option Js.num :=
  if RepeatMode_eqb (repeat s) All && Js.strict_eq 0 (currentIndex s) then
    Some (Js.Num (Js.length (queue s) - 1))
  else if Js.num_gt (currentIndex s) 0 then
    Some (Js.add (currentIndex s) (-1))
  else
    None.

(** [previousTrack()] *)
Definition previousTrack (s : State) : State :=
  if Js.length (queue s) =? 0 then s
  else
    match prevIndex s with
    | None => s
    | Some prev =>
        set [ set_currentIndex prev;
              set_currentTrack (Js.read (Js.get_at (queue s) prev));
              set_currentTime 0;
              set_isLoading true ] s
    end.

Definition toggleShuffle (s : State) : State :=
  set [ set_shuffle (negb (shuffle s)) ] s.

Definition setRepeat (mode : RepeatMode) (s : State) : State :=
  set [ set_repeat mode ] s.

(** [modes.indexOf(m)], counted from [i]; -1 when absent. *)
Fixpoint indexOf_from (m : RepeatMode) (i : Z) (modes : list RepeatMode) : Z :=
  match modes with
  | [] => -1
  | x :: rest => if RepeatMode_eqb x m then i else indexOf_from m (i + 1) rest
  end.

(** [toggleRepeat()]: [modes[(modes.indexOf(repeat) + 1) % modes.length]] *)
Definition toggleRepeat (s : State) : State :=
  let modes := [Off; All; One] in
  let currentMode := repeat s in
  let idx := indexOf_from currentMode 0 modes in
  let nextMode :=
    match Js.get modes (Z.rem (idx + 1) (Js.length modes)) with
    | Some m => m
    | None => currentMode
    end in
  set [ set_repeat nextMode ] s.

(** [seekToTrack(index)] *)
Definition seekToTrack (index : Z) (s : State) : State :=
  if (index >=? 0) && (index <? Js.length (queue s)) then
    set [ set_currentIndex (Js.Num index);
          set_currentTrack (Js.read (Js.get (queue s) index));
          set_currentTime 0;
          set_isLoading true ] s
  else s.

(** [addToQueue(track)] *)
Definition addToQueue (track : Track) (s : State) : State :=
  set [ set_queue (queue s ++ [track]) ] s.

(** [removeFromQueue(index)] *)
Definition removeFromQueue (index : Z) (s : State) : State :=
  let newQueue := Js.filteri (fun _ i => negb (i =? index)) (queue s) in
  let result (newCurrentIndex : Js.num) : State :=
    set [ set_queue newQueue;
          set_currentIndex newCurrentIndex;
          set_currentTrack (Js.or_null (Js.get_at newQueue newCurrentIndex)) ]
      s in
  if Js.lt_num index (currentIndex s) then
    result (Js.add (currentIndex s) (-1))
  else if Js.strict_eq index (currentIndex s) then
    if Js.length newQueue =? 0 then
      set [ set_queue [];
            set_currentTrack Js.Null;
            set_currentIndex (Js.Num 0);
            set_isPlaying false ] s
    else if Js.num_ge (currentIndex s) (Js.length newQueue) then
      result (Js.Num 0)
    else
      result (currentIndex s)
  else
    result (currentIndex s).

(** [clearQueue()] *)
Definition clearQueue (s : State) : State :=
  set [ set_queue [];
        set_currentTrack Js.Null;
        set_currentIndex (Js.Num 0);
        set_isPlaying false;
        set_currentTime 0 ] s.

(** [reset()] *)
Definition reset (s : State) : State :=
  set [ set_currentTrack Js.Null;
        set_currentPlaylist None;
        set_queue [];
        set_currentIndex (Js.Num 0);
        set_isPlaying false;
        set_currentTime 0;
        set_duration 0;
        set_isLoading false ] s.

(** *** The store as a transition system *)

(** A call of one of the store's actions.  [NextTrack] carries the value
    that [Math.random()] returns during the call. *)
Inductive Action : Type :=
| SetCurrentTrack (track : Track) (playlist : option Playlist) (index : Z)
| SetQueue (tracks : list Track) (startIndex : Z)
| Play
| Pause
| TogglePlay
| SetVolume (v : Q)
| ToggleMute
| SetCurrentTime (time : Q)
| SetDuration (d : Q)
| SetIsLoading (loading : bool)
| NextTrack (random : Q)
| PreviousTrack
| ToggleShuffle
| SetRepeat (mode : RepeatMode)
| ToggleRepeat
| SeekToTrack (index : Z)
| AddToQueue (track : Track)
| RemoveFromQueue (index : Z)
| ClearQueue
| Reset.

Definition step (a : Action) (s : State) : State :=
  match a with
  | SetCurrentTrack track playlist index =>
      setCurrentTrack track playlist index s
  | SetQueue tracks startIndex => setQueue tracks startIndex s
  | Play => play s
  | Pause => pause s
  | TogglePlay => togglePlay s
  | SetVolume v => setVolume v s
  | ToggleMute => toggleMute s
  | SetCurrentTime time => setCurrentTime time s
  | SetDuration d => setDuration d s
  | SetIsLoading loading => setIsLoading loading s
  | NextTrack random => nextTrack random s
  | PreviousTrack => previousTrack s
  | ToggleShuffle => toggleShuffle s
  | SetRepeat mode => setRepeat mode s
  | ToggleRepeat => toggleRepeat s
  | SeekToTrack index => seekToTrack index s
  | AddToQueue track => addToQueue track s
  | RemoveFromQueue index => removeFromQueue index s
  | ClearQueue => clearQueue s
  | Reset => reset s
  end.

(** The value [Math.random()] may return: a binary64 number in the range
    [0, 1). *)
Definition is_random (r : Q) : Prop :=
  Js.is_double r /\ (0 <= r)%Q /\ (r < 1)%Q.

(** An action the store can really be sent: a [NextTrack] draws its random
    number in [0, 1). *)
Definition possible (a : Action) : Prop :=
  match a with
  | NextTrack random => is_random random
  | _ => True
  end.

(** The states the store can be in: [initial], then any run of actions. *)
Inductive reachable : State -> Prop :=
| reachable_initial : reachable initial
| reachable_step (a : Action) (s : State) :
    reachable s -> possible a -> reachable (step a s).

(** *** The cursor bound of the specification *)

(** [0 <= currentIndex < queue.length] *)
Definition in_bounds (s : State) : Prop :=
  exists c, currentIndex s = Js.Num c /\ 0 <= c < Js.length (queue s).

Definition in_boundsb (s : State) : bool :=
  match currentIndex s with
  | Js.Num c => (0 <=? c) && (c <? Js.length (queue s))
  | Js.Undef => false
  end.

(** Whenever the queue is non-empty, the cursor is in bounds. *)
Definition cursor_ok (s : State) : Prop :=
  queue s <> [] -> in_bounds s.

(** What a call must satisfy for the cursor bound to survive it.  [setQueue]
    and [setCurrentTrack] store the index they are given, [addToQueue] keeps
    the cursor it finds, [nextTrack] under shuffle needs a second track to
    draw, and [removeFromQueue] compares its index with the cursor before
    looking at the array. *)
Definition keeps_bound (s : State) (a : Action) : Prop :=
  match a with
  | SetQueue tracks startIndex =>
      tracks = [] \/ 0 <= startIndex < Js.length tracks
  | SetCurrentTrack _ _ index =>
      queue s = [] \/ 0 <= index < Js.length (queue s)
  | AddToQueue _ =>
      queue s = [] -> currentIndex s = Js.Num 0
  | NextTrack random =>
      is_random random /\ (shuffle s = true -> Js.length (queue s) <> 1)
  | RemoveFromQueue index => 0 <= index
  | _ => True
  end.

(** The states reached from [initial] by calls that satisfy [keeps_bound]. *)
Inductive bounded_run : State -> Prop :=
| bounded_initial : bounded_run initial
| bounded_step (a : Action) (s : State) :
    bounded_run s -> keeps_bound s a -> bounded_run (step a s).

(** The current track is the queue entry under the cursor. *)
Definition track_at_cursor (s : State) : Prop :=
  currentTrack s = Js.or_null (Js.get_at (queue s) (currentIndex s)).

End Player.

(** ** The playlist model (mongoose schema [playlistSchema]) *)

Module PlaylistModel.

(** An entry of the [tracks] array of a playlist document. *)
Record TrackEntry : Type := mkTrackEntry {
  trackId : string;
  title : string;
  artist : string;
  duration : option Z;
  audioUrl : string;
  imageUrl : string;
  addedAt : Z;
  addedBy : option string
}.

(** The fields of a playlist document that its methods read or write. *)
Record Playlist : Type := mkPlaylist {
  name : string;
  description : string;
  owner : string;
  tracks : list TrackEntry;
  isPublic : bool;
  collaborative : bool;
  totalDuration : Z;
  playCount : Z;
  isActive : bool
}.

Definition set_tracks (v : list TrackEntry) (p : Playlist) : Playlist :=
  mkPlaylist (name p) (description p) (owner p) v (isPublic p)
    (collaborative p) (totalDuration p) (playCount p) (isActive p).

Definition set_totalDuration (v : Z) (p : Playlist) : Playlist :=
  mkPlaylist (name p) (description p) (owner p) (tracks p) (isPublic p)
    (collaborative p) v (playCount p) (isActive p).

(** [updateTotalDuration()]: the sum of [track.duration || 0]. *)
Definition updateTotalDuration (p : Playlist) : Playlist :=
  set_totalDuration
    (fold_left
       (fun total track =>
          total + match duration track with Some d => d | None => 0 end)
       (tracks p) 0)
    p.

(** [this.tracks.find(t => t.trackId === id)] *)
Definition findTrack (id : string) (ts : list TrackEntry)
  : option TrackEntry :=
  find (fun t => String.eqb (trackId t) id) ts.

(** [addTrack(track, userId)], [now] being [Date.now()]; [inl] is the thrown
    error. *)
Definition addTrack (track : TrackEntry) (userId : string) (now : Z)
  (p : Playlist) : string + Playlist :=
  if existsb (fun t => String.eqb (trackId t) (trackId track)) (tracks p) then
    inl "Track already exists in playlist"%string
  else
    inr (updateTotalDuration
           (set_tracks
              (tracks p ++
               [ mkTrackEntry (trackId track) (title track) (artist track)
                   (duration track) (audioUrl track) (imageUrl track)
                   now (Some userId) ])
              p)).

(** [removeTrack(trackId)] *)
Definition removeTrack (id : string) (p : Playlist) : Playlist :=
  updateTotalDuration
    (set_tracks
       (filter (fun track => negb (String.eqb (trackId track) id)) (tracks p))
       p).

(** The array [reorderedTracks] after the [forEach] over [trackIds]: each id
    pushes the track that [find] returns for it, when there is one. *)
Definition reorderedTracks (trackIds : list string) (ts : list TrackEntry)
  : list TrackEntry :=
  fold_left
    (fun acc id =>
       match findTrack id ts with
       | Some track => acc ++ [track]
       | None => acc
       end)
    trackIds [].

(** [reorderTracks(trackIds)] *)
Definition reorderTracks (trackIds : list string) (p : Playlist) : Playlist :=
  set_tracks (reorderedTracks trackIds (tracks p)) p.

(** The ids of [trackIds] that some track of [ts] carries, in the order of
    [trackIds]. *)
Definition presentIds (trackIds : list string) (ts : list TrackEntry)
  : list string :=
  filter
    (fun id => existsb (fun t => String.eqb (trackId t) id) ts)
    trackIds.

End PlaylistModel.

(** ** The current track and the cursor, together *)

Module PlayerSync.

Import Player.

(** On a non-empty queue the cursor is in bounds and the current track is
    the queue entry under it. *)
Definition in_sync (s : State) : Prop :=
  queue s <> [] -> in_bounds s /\ track_at_cursor s.

(** What a call must satisfy, beyond [keeps_bound], for [in_sync] to
    survive it: [setCurrentTrack] writes the track it is given and
    [addToQueue] writes no track at all. *)
Definition keeps_sync (s : State) (a : Action) : Prop :=
  keeps_bound s a
  /\ match a with
     | SetCurrentTrack track _ index =>
         queue s = [] \/ Js.get (queue s) index = Some track
     | AddToQueue _ => queue s <> []
     | _ => True
     end.

(** The states reached from [initial] by calls that satisfy [keeps_sync]. *)
Inductive synced_run : State -> Prop :=
| synced_initial : synced_run initial
| synced_step (a : Action) (s : State) :
    synced_run s -> keeps_sync s a -> synced_run (step a s).

(** The actions that write [queue]. *)
Definition writes_queue (a : Action) : bool :=
  match a with
  | SetQueue _ _ | AddToQueue _ | RemoveFromQueue _ | ClearQueue | Reset =>
      true
  | _ => false
  end.

(** The actions that write [shuffle] or [repeat]. *)
Definition writes_mode (a : Action) : bool :=
  match a with
  | ToggleShuffle | SetRepeat _ | ToggleRepeat => true
  | _ => false
  end.

(** The actions that write [volume] or [isMuted]. *)
Definition writes_volume (a : Action) : bool :=
  match a with
  | SetVolume _ | ToggleMute => true
  | _ => false
  end.

End PlayerSync.

(** ** Durations of a playlist *)

Module PlaylistTotals.

Import PlaylistModel.

(** [track.duration || 0] *)
Definition durationOf (track : TrackEntry) : Z :=
  match duration track with
  | Some d => d
  | None => 0
  end.

(** The sum of the durations of [ts]. *)
Definition sumDurations (ts : list TrackEntry) : Z :=
  fold_right (fun track total => durationOf track + total) 0 ts.

(** The track ids of a playlist are distinct. *)
Definition distinctIds (p : Playlist) : Prop :=
  NoDup (map trackId (tracks p)).

End PlaylistTotals.

(** ** More array primitives *)

Module JsArray.

(** [arr.findIndex(p)], positions counted from [i]; -1 when no element
    satisfies [p]. *)
Fixpoint findIndex_from {A : Type} (p : A -> bool) (i : Z) (arr : list A)
  : Z :=
  match arr with
  | [] => -1
  | a :: rest => if p a then i else findIndex_from p (i + 1) rest
  end.

Definition findIndex {A : Type} (p : A -> bool) (arr : list A) : Z :=
  findIndex_from p 0 arr.

(** [arr.some(p)] *)
Definition some {A : Type} (p : A -> bool) (arr : list A) : bool :=
  existsb p arr.

(** [arr.slice(0, n)] for [n >= 0]. *)
Definition slice0 {A : Type} (n : Z) (arr : list A) : list A :=
  firstn (Z.to_nat n) arr.

End JsArray.

(** ** Objects used as maps *)

Module Obj.

(** An object with string keys, as a list of properties with each key once.
    The stores below never enumerate an object, so the order of the list
    stands for nothing. *)
Definition t (V : Type) : Type := list (string * V).

(** [o[k]]; [None] stands for [undefined]. *)
Fixpoint lookup {V : Type} (k : string) (o : t V) : option V :=
  match o with
  | [] => None
  | (k', v) :: rest => if String.eqb k' k then Some v else lookup k rest
  end.

(** [o[k] = v]: an existing property keeps its place, a new one goes last. *)
Fixpoint assign {V : Type} (k : string) (v : V) (o : t V) : t V :=
  match o with
  | [] => [(k, v)]
  | (k', v') :: rest =>
      if String.eqb k' k then (k, v) :: rest
      else (k', v') :: assign k v rest
  end.

(** [{ ...a, ...b }] *)
Definition spread {V : Type} (a b : t V) : t V :=
  fold_left (fun acc kv => assign (fst kv) (snd kv) acc) b a.

(** The keys of an object. *)
Definition keys {V : Type} (o : t V) : list string := map fst o.

End Obj.

(** ** The hook [useMusicPlayer] *)

Module Hooks.

Import Player.

(** [playTrack(track, playlist = null, queueTracks = [])] *)
Definition playTrack (track : Track) (playlist : option Playlist)
  (queueTracks : list Track) (s : State) : State :=
  if Js.length queueTracks >? 0 then
    let trackIndex :=
      JsArray.findIndex (fun t => String.eqb (id t) (id track)) queueTracks in
    setQueue queueTracks (if trackIndex >=? 0 then trackIndex else 0) s
  else
    setCurrentTrack track playlist 0 s.

(** [playPlaylist(playlist, startIndex = 0)] *)
Definition playPlaylist (playlist : Playlist) (startIndex : Z) (s : State)
  : State :=
  if Js.length (tracks playlist) >? 0 then
    setQueue (tracks playlist) startIndex s
  else s.

End Hooks.

(** ** The favorites store ([useFavoritesStore]) *)

Module FavoritesStore.

(** A favorite as the store keeps it. *)
Record Favorite : Type := mkFavorite {
  trackId : string;
  title : string;
  artist : string
}.

Record State : Type := mkState {
  favorites : list Favorite
}.

Definition initial : State := {| favorites := [] |}.

Definition setFavorites (favs : list Favorite) (s : State) : State :=
  {| favorites := favs |}.

(** [addFavorite(track)]: [return state] when the track id is there. *)
Definition addFavorite (track : Favorite) (s : State) : State :=
  let exists_ :=
    JsArray.some (fun fav => String.eqb (trackId fav) (trackId track))
      (favorites s) in
  if negb exists_ then {| favorites := favorites s ++ [track] |}
  else s.

(** [removeFavorite(trackId)] *)
Definition removeFavorite (id : string) (s : State) : State :=
  {| favorites :=
       filter (fun fav => negb (String.eqb (trackId fav) id)) (favorites s) |}.

(** [isFavorite(trackId)] *)
Definition isFavorite (id : string) (s : State) : bool :=
  JsArray.some (fun fav => String.eqb (trackId fav) id) (favorites s).

End FavoritesStore.

(** ** The UI store ([useUIStore]) *)

Module UIStore.

(** A value kept under [modals]: [{ open, data }], [data] being [null] or
    what the caller passed. *)
Record Modal : Type := mkModal {
  open : bool;
  data : option string
}.

Record State : Type := mkState {
  theme : string;
  sidebarOpen : bool;
  modals : Obj.t Modal;
  searchQuery : string;
  loading : Obj.t bool
}.

Definition initial : State :=
  {| theme := "light";
     sidebarOpen := true;
     modals := [];
     searchQuery := "";
     loading := [] |}.

Definition set_theme (v : string) (s : State) : State :=
  mkState v (sidebarOpen s) (modals s) (searchQuery s) (loading s).

Definition set_sidebarOpen (v : bool) (s : State) : State :=
  mkState (theme s) v (modals s) (searchQuery s) (loading s).

Definition set_modals (v : Obj.t Modal) (s : State) : State :=
  mkState (theme s) (sidebarOpen s) v (searchQuery s) (loading s).

Definition set_searchQuery (v : string) (s : State) : State :=
  mkState (theme s) (sidebarOpen s) (modals s) v (loading s).

Definition set_loading (v : Obj.t bool) (s : State) : State :=
  mkState (theme s) (sidebarOpen s) (modals s) (searchQuery s) v.

(** [toggleTheme()]: [state.theme === 'light' ? 'dark' : 'light'] *)
Definition toggleTheme (s : State) : State :=
  set_theme (if String.eqb (theme s) "light" then "dark" else "light") s.

Definition setTheme (v : string) (s : State) : State := set_theme v s.

Definition toggleSidebar (s : State) : State :=
  set_sidebarOpen (negb (sidebarOpen s)) s.

Definition setSidebarOpen (v : bool) (s : State) : State :=
  set_sidebarOpen v s.

(** [openModal(modalName, data = null)] *)
Definition openModal (modalName : string) (d : option string) (s : State)
  : State :=
  set_modals (Obj.assign modalName (mkModal true d) (modals s)) s.

(** [closeModal(modalName)] *)
Definition closeModal (modalName : string) (s : State) : State :=
  set_modals (Obj.assign modalName (mkModal false None) (modals s)) s.

Definition setSearchQuery (query : string) (s : State) : State :=
  set_searchQuery query s.

(** [setLoading(key, loading)] *)
Definition setLoading (key : string) (v : bool) (s : State) : State :=
  set_loading (Obj.assign key v (loading s)) s.

End UIStore.

(** ** The playlists store ([usePlaylistsStore]) *)

Module PlaylistsStore.

(** A property value of a playlist object received from the server. *)
Inductive Value : Type :=
| VNull
| VBool (b : bool)
| VNum (n : Z)
| VStr (s : string).

(** [a === b] on property values. *)
Definition Value_eqb (a b : Value) : bool :=
  match a, b with
  | VNull, VNull => true
  | VBool x, VBool y => Bool.eqb x y
  | VNum x, VNum y => x =? y
  | VStr x, VStr y => String.eqb x y
  | _, _ => false
  end.

(** A playlist object: whatever properties the server sent. *)
Definition PlaylistObj : Type := Obj.t Value.

(** [p.id === playlistId]; a missing [id] is [undefined], which no id
    equals. *)
Definition has_id (playlistId : Value) (p : PlaylistObj) : bool :=
  match Obj.lookup "id" p with
  | Some v => Value_eqb v playlistId
  | None => false
  end.

Record State : Type := mkState {
  playlists : list PlaylistObj;
  currentPlaylist : option PlaylistObj
}.

Definition initial : State :=
  {| playlists := []; currentPlaylist := None |}.

Definition setPlaylists (ps : list PlaylistObj) (s : State) : State :=
  mkState ps (currentPlaylist s).

(** [addPlaylist(playlist)]: [[playlist, ...state.playlists]] *)
Definition addPlaylist (p : PlaylistObj) (s : State) : State :=
  mkState (p :: playlists s) (currentPlaylist s).

(** [updatePlaylist(playlistId, updates)] *)
Definition updatePlaylist (playlistId : Value) (updates : PlaylistObj)
  (s : State) : State :=
  mkState
    (map (fun p => if has_id playlistId p then Obj.spread p updates else p)
       (playlists s))
    (currentPlaylist s).

(** [removePlaylist(playlistId)] *)
Definition removePlaylist (playlistId : Value) (s : State) : State :=
  mkState (filter (fun p => negb (has_id playlistId p)) (playlists s))
    (currentPlaylist s).

Definition setCurrentPlaylist (p : option PlaylistObj) (s : State) : State :=
  mkState (playlists s) p.

End PlaylistsStore.

(** ** The auth store ([useAuthStore]) *)

Module AuthStore.

(** The user object: whatever properties the server sent. *)
Definition UserObj : Type := Obj.t PlaylistsStore.Value.

Record State : Type := mkState {
  user : option UserObj;
  token : option string;
  isAuthenticated : bool
}.

Definition initial : State :=
  {| user := None; token := None; isAuthenticated := false |}.

(** [login(userData, authToken)] *)
Definition login (userData : UserObj) (authToken : string) (s : State)
  : State :=
  {| user := Some userData; token := Some authToken; isAuthenticated := true |}.

(** [updateUser(userData)]: [{ ...state.user, ...userData }]; spreading
    [null] adds no property. *)
Definition updateUser (userData : UserObj) (s : State) : State :=
  mkState
    (Some (Obj.spread (match user s with Some u => u | None => [] end)
             userData))
    (token s) (isAuthenticated s).

(** [logout()], on the auth store and the music player store it reaches
    into. *)
Definition logout (s : State * Player.State) : State * Player.State :=
  ({| user := None; token := None; isAuthenticated := false |},
   Player.reset (snd s)).

End AuthStore.

(** ** Access to a playlist ([canEdit], [canView]) *)

Module PlaylistAccess.

(** [permissions]: 'view' or 'edit'. *)
Inductive Permission : Type :=
| View
| Edit.

Definition Permission_eqb (a b : Permission) : bool :=
  match a, b with
  | View, View | Edit, Edit => true
  | _, _ => false
  end.

(** An entry of the [collaborators] array. *)
Record Collaborator : Type := mkCollaborator {
  user : string;
  permissions : Permission;
  addedAt : Z
}.

(** What a call throws. *)
Inductive Thrown : Type :=
| TypeError.

(** [canEdit(userId)], [collaborators] being the array of that name of the
    document.  [userId] is [None] when the caller passes [undefined]
    ([req.user?._id] without a user), and [userId.toString()] then throws. *)
Definition canEdit (collaborators : list Collaborator)
  (userId : option string) (p : PlaylistModel.Playlist) : Thrown + bool :=
  match userId with
  | None => inl TypeError
  | Some uid =>
      if String.eqb (PlaylistModel.owner p) uid then inr true
      else if PlaylistModel.collaborative p then
        inr (JsArray.some
               (fun collab =>
                  String.eqb (user collab) uid
                  && Permission_eqb (permissions collab) Edit)
               collaborators)
      else inr false
  end.

(** [canView(userId)]: a public playlist is answered before [userId] is
    looked at. *)
Definition canView (collaborators : list Collaborator)
  (userId : option string) (p : PlaylistModel.Playlist) : Thrown + bool :=
  if PlaylistModel.isPublic p then inr true
  else
    match userId with
    | None => inl TypeError
    | Some uid =>
        if String.eqb (PlaylistModel.owner p) uid then inr true
        else
          inr (JsArray.some (fun collab => String.eqb (user collab) uid)
                 collaborators)
    end.

End PlaylistAccess.

(** ** The user model (mongoose schema [userSchema]) *)

Module UserModel.

(** The track a route hands to [addToRecentlyPlayed] or [addToFavorites];
    an entry of [favorites.tracks] has the same three properties. *)
Record TrackInfo : Type := mkTrackInfo {
  trackId : string;
  title : string;
  artist : string
}.

(** An entry of [recentlyPlayed]. *)
Module Recent.

Record Entry : Type := mkEntry {
  trackId : string;
  title : string;
  artist : string;
  playedAt : Z
}.

End Recent.

(** [addToRecentlyPlayed(track)], [now] being [new Date()]. *)
Definition addToRecentlyPlayed (track : TrackInfo) (now : Z)
  (recentlyPlayed : list Recent.Entry) : list Recent.Entry :=
  let removed :=
    filter
      (fun item => negb (String.eqb (Recent.trackId item) (trackId track)))
      recentlyPlayed in
  let unshifted :=
    Recent.mkEntry (trackId track) (title track) (artist track) now
    :: removed in
  if Js.length unshifted >? 50 then JsArray.slice0 50 unshifted
  else unshifted.

(** [addToFavorites(track)] on [favorites.tracks]. *)
Definition addToFavorites (track : TrackInfo) (favs : list TrackInfo)
  : list TrackInfo :=
  let exists_ :=
    JsArray.some (fun fav => String.eqb (trackId fav) (trackId track)) favs in
  if negb exists_ then
    favs ++ [mkTrackInfo (trackId track) (title track) (artist track)]
  else favs.

(** [removeFromFavorites(trackId)] on [favorites.tracks]. *)
Definition removeFromFavorites (id : string) (favs : list TrackInfo)
  : list TrackInfo :=
  filter (fun fav => negb (String.eqb (trackId fav) id)) favs.

End UserModel.

(** ** Array utilities ([frontend/src/utils]) *)

Module Utils.

(** [arr.slice(start, end)]: a negative index counts from the end, and both
    are clipped to the array. *)
Definition slice {A : Type} (start end_ : Z) (arr : list A) : list A :=
  let len := Js.length arr in
  let k := if start <? 0 then Z.max (len + start) 0 else Z.min start len in
  let final := if end_ <? 0 then Z.max (len + end_) 0 else Z.min end_ len in
  firstn (Z.to_nat (final - k)) (skipn (Z.to_nat k) arr).

(** The loop of [chunkArray], from the value [i] of its counter and the
    [chunks] pushed so far; [None] when [fuel] iterations do not end it. *)
Fixpoint chunk_loop {A : Type} (fuel : nat) (array : list A) (size i : Z)
  (chunks : list (list A)) : option (list (list A)) :=
  match fuel with
  | O => None
  | S fuel' =>
      if i <? Js.length array then
        chunk_loop fuel' array size (i + size)
          (chunks ++ [slice i (i + size) array])
      else Some chunks
  end.

(** [chunkArray(array, size)] *)
Definition chunkArray {A : Type} (fuel : nat) (array : list A) (size : Z)
  : option (list (list A)) :=
  chunk_loop fuel array size 0 [].

(** [arr[n] = v] for a position [n] of the array. *)
Fixpoint update {A : Type} (n : nat) (v : A) (arr : list A) : list A :=
  match arr, n with
  | [], _ => []
  | _ :: rest, O => v :: rest
  | x :: rest, S n' => x :: update n' v rest
  end.

(** An array object as [shuffleArray] can leave it: the elements, [None]
    being [undefined] (an empty slot reads as [undefined] too), and the
    properties stored under negative keys, which are no elements and do not
    count in [length]. *)
Record Arr (A : Type) : Type := mkArr {
  elems : list (option A);
  others : list (Z * option A)
}.

Arguments mkArr {A} elems others.
Arguments elems {A} a.
Arguments others {A} a.

(** [arr[k]]: an element, a property under a negative key, or
    [undefined]. *)
Definition read {A : Type} (arr : Arr A) (k : Z) : option A :=
  if k <? 0 then
    match find (fun kv => fst kv =? k) (others arr) with
    | Some kv => snd kv
    | None => None
    end
  else
    match nth_error (elems arr) (Z.to_nat k) with
    | Some v => v
    | None => None
    end.

(** [arr[k] = v]: inside the array the element is replaced; past its end
    the array grows up to position [k], the slots between staying empty; a
    negative [k] names a property. *)
Definition write {A : Type} (k : Z) (v : option A) (arr : Arr A) : Arr A :=
  if k <? 0 then mkArr (elems arr) ((k, v) :: others arr)
  else
    let n := Z.to_nat k in
    if (n <? List.length (elems arr))%nat then
      mkArr (update n v (elems arr)) (others arr)
    else
      mkArr (elems arr ++ repeat None (n - List.length (elems arr)) ++ [v])
        (others arr).

(** [[arr[i], arr[j]] = [arr[j], arr[i]]]: the right-hand side is read
    first, then [arr[i]] and [arr[j]] are written in that order. *)
Definition swap {A : Type} (i j : Z) (arr : Arr A) : Arr A :=
  let vj := read arr j in
  let vi := read arr i in
  write j vi (write i vj arr).

(** The loop of [shuffleArray], counting [i] down to 1; [random call] is
    what the call number [call] of [Math.random()] returns. *)
Fixpoint shuffle_loop {A : Type} (random : nat -> Q) (call : nat) (i : nat)
  (shuffled : Arr A) : Arr A :=
  match i with
  | O => shuffled
  | S i' =>
      let j :=
        Js.Math_floor (Js.mul (random call) (inject_Z (Z.of_nat i + 1))) in
      shuffle_loop random (S call) i' (swap (Z.of_nat i) j shuffled)
  end.

(** [shuffleArray(array)]: the loop on the copy [[...array]]. *)
Definition shuffleArray {A : Type} (random : nat -> Q) (array : list A)
  : Arr A :=
  shuffle_loop random 0 (List.length array - 1) (mkArr (map Some array) []).

End Utils.

(** ** Sample data *)

Module Samples.

Definition trackA : Player.Track :=
  Player.mkTrack "a" "Alpha" "Ann" 180 "https://cdn.example/a.mp3"
    "https://cdn.example/a.jpg".

Definition trackB : Player.Track :=
  Player.mkTrack "b" "Beta" "Bob" 201 "https://cdn.example/b.mp3"
    "https://cdn.example/b.jpg".

Definition trackC : Player.Track :=
  Player.mkTrack "c" "Gamma" "Cy" 95 "https://cdn.example/c.mp3"
    "https://cdn.example/c.jpg".

(** A store holding [queue] with the cursor on [cursor]. *)
Definition playing (queue : list Player.Track) (cursor : Z) : Player.State :=
  Player.setQueue queue cursor Player.initial.

Definition entry (trackId title : string) : PlaylistModel.TrackEntry :=
  PlaylistModel.mkTrackEntry trackId title "Ann" (Some 180) "" "" 0 None.

(** A playlist document holding [entries]. *)
Definition playlistOf (entries : list PlaylistModel.TrackEntry)
  : PlaylistModel.Playlist :=
  PlaylistModel.mkPlaylist "Mix" "" "owner-1" entries false false 0 0 true.

End Samples.

(** * Properties *)

(** ** Facts about the array primitives *)

Module JsFacts.

Lemma length_nonneg {A : Type} (arr : list A) : 0 <= Js.length arr.
Proof. unfold Js.length. lia. Qed.

Lemma length_zero_iff {A : Type} (arr : list A) :
  Js.length arr = 0 <-> arr = [].
Proof.
  unfold Js.length. destruct arr; simpl; split; intro H;
    try reflexivity; try discriminate; lia.
Qed.

Lemma length_app {A : Type} (l1 l2 : list A) :
  Js.length (l1 ++ l2) = Js.length l1 + Js.length l2.
Proof. unfold Js.length. rewrite List.length_app. lia. Qed.

(** Reading inside the array gives an element, reading outside gives
    [undefined]. *)
Lemma get_in_range {A : Type} (arr : list A) (i : Z) :
  0 <= i < Js.length arr -> exists a, Js.get arr i = Some a.
Proof.
  unfold Js.get, Js.length. intros Hi.
  destruct (Z.ltb_spec i 0) as [Hneg | _]; [lia |].
  destruct (nth_error arr (Z.to_nat i)) as [a |] eqn:E.
  - now exists a.
  - apply nth_error_None in E. lia.
Qed.

Lemma get_out_of_range {A : Type} (arr : list A) (i : Z) :
  i < 0 \/ Js.length arr <= i -> Js.get arr i = None.
Proof.
  unfold Js.get, Js.length. intros Hi.
  destruct (Z.ltb_spec i 0) as [Hneg | Hpos]; [reflexivity |].
  apply nth_error_None. lia.
Qed.

Lemma get_Some_range {A : Type} (arr : list A) (i : Z) (a : A) :
  Js.get arr i = Some a -> 0 <= i < Js.length arr.
Proof.
  unfold Js.get, Js.length. intros H.
  destruct (Z.ltb_spec i 0) as [Hneg | Hpos]; [discriminate |].
  assert (Hlt : (Z.to_nat i < List.length arr)%nat)
    by (apply nth_error_Some; congruence).
  lia.
Qed.

Lemma get_last_app {A : Type} (arr : list A) (a : A) (i : Z) :
  0 <= i < Js.length arr -> Js.get (arr ++ [a]) i = Js.get arr i.
Proof.
  unfold Js.get, Js.length. intros Hi.
  destruct (Z.ltb_spec i 0) as [Hneg | _]; [lia |].
  apply nth_error_app1. lia.
Qed.

(** [arr.filter((_, i) => i !== index)], positions counted from [k]: the
    element at position [index], if any, is cut out. *)
Lemma filteri_from_cut {A : Type} (index : Z) (arr : list A) :
  forall k,
    Js.filteri_from (fun _ i => negb (i =? index)) k arr =
    if index <? k then arr
    else firstn (Z.to_nat (index - k)) arr
         ++ skipn (S (Z.to_nat (index - k))) arr.
Proof.
  induction arr as [| a rest IH]; intros k; simpl.
  - destruct (index <? k); [reflexivity |].
    now rewrite firstn_nil.
  - rewrite IH.
    destruct (Z.eqb_spec k index) as [-> | Hne]; simpl.
    + rewrite Z.ltb_irrefl.
      replace (index <? index + 1) with true by (symmetry; apply Z.ltb_lt; lia).
      now rewrite Z.sub_diag.
    + destruct (Z.ltb_spec index k) as [Hlt | Hge].
      * replace (index <? k + 1) with true
          by (symmetry; apply Z.ltb_lt; lia).
        reflexivity.
      * replace (index <? k + 1) with false
          by (symmetry; apply Z.ltb_ge; lia).
        replace (Z.to_nat (index - k)) with (S (Z.to_nat (index - (k + 1))))
          by lia.
        reflexivity.
Qed.

Lemma filteri_cut {A : Type} (index : Z) (arr : list A) :
  0 <= index ->
  Js.filteri (fun _ i => negb (i =? index)) arr =
  firstn (Z.to_nat index) arr ++ skipn (S (Z.to_nat index)) arr.
Proof.
  intros Hi. unfold Js.filteri. rewrite filteri_from_cut.
  replace (index <? 0) with false by (symmetry; apply Z.ltb_ge; lia).
  now rewrite Z.sub_0_r.
Qed.

(** An index outside the array removes nothing. *)
Lemma filteri_out_of_range {A : Type} (index : Z) (arr : list A) :
  index < 0 \/ Js.length arr <= index ->
  Js.filteri (fun _ i => negb (i =? index)) arr = arr.
Proof.
  intros [Hneg | Hbig]; unfold Js.filteri; rewrite filteri_from_cut.
  - replace (index <? 0) with true by (symmetry; apply Z.ltb_lt; lia).
    reflexivity.
  - unfold Js.length in Hbig.
    destruct (index <? 0); [reflexivity |].
    rewrite firstn_all2, skipn_all2 by lia.
    now rewrite app_nil_r.
Qed.

(** An index inside the array removes one element. *)
Lemma length_filteri_in_range {A : Type} (index : Z) (arr : list A) :
  0 <= index < Js.length arr ->
  Js.length (Js.filteri (fun _ i => negb (i =? index)) arr) =
  Js.length arr - 1.
Proof.
  intros Hi. rewrite filteri_cut by lia.
  unfold Js.length in *.
  rewrite List.length_app, length_firstn, length_skipn. lia.
Qed.

(** After the removal, the positions before [index] keep their element and
    the later ones hold the element that followed. *)
Lemma get_filteri_in_range {A : Type} (index : Z) (arr : list A) (j : Z) :
  0 <= index < Js.length arr -> 0 <= j ->
  Js.get (Js.filteri (fun _ i => negb (i =? index)) arr) j =
  if j <? index then Js.get arr j else Js.get arr (j + 1).
Proof.
  intros Hi Hj. rewrite filteri_cut by lia.
  unfold Js.get, Js.length in *.
  replace (j <? 0) with false by (symmetry; apply Z.ltb_ge; lia).
  replace (j + 1 <? 0) with false by (symmetry; apply Z.ltb_ge; lia).
  rewrite nth_error_app, length_firstn.
  destruct (Z.ltb_spec j index) as [Hlt | Hge].
  - replace (Z.to_nat j <? Nat.min (Z.to_nat index) (List.length arr))%nat
      with true by (symmetry; apply Nat.ltb_lt; lia).
    rewrite nth_error_firstn.
    replace (Z.to_nat j <? Z.to_nat index)%nat
      with true by (symmetry; apply Nat.ltb_lt; lia).
    reflexivity.
  - replace (Z.to_nat j <? Nat.min (Z.to_nat index) (List.length arr))%nat
      with false by (symmetry; apply Nat.ltb_ge; lia).
    rewrite nth_error_skipn. f_equal. lia.
Qed.

End JsFacts.

(** ** Facts about the binary64 product *)

Module DoubleFacts.

Lemma pow2_pos (e : Z) : (0 < Js.pow2 e)%Q.
Proof. unfold Js.pow2. now apply Qpower_0_lt. Qed.

Lemma pow2_add (a b : Z) : (Js.pow2 (a + b) == Js.pow2 a * Js.pow2 b)%Q.
Proof. unfold Js.pow2. now apply Qpower_plus. Qed.

Lemma pow2_le (a b : Z) : a <= b -> (Js.pow2 a <= Js.pow2 b)%Q.
Proof.
  intros Hab. unfold Js.pow2. apply Qpower_le_compat_l; [exact Hab |].
  discriminate.
Qed.

Lemma pow2_nonneg_exponent (k : Z) :
  0 <= k -> (Js.pow2 k == inject_Z (2 ^ k))%Q.
Proof.
  intros Hk. unfold Js.pow2. now rewrite Zpower_Qpower.
Qed.

(** A positive rational, as a quotient of two positive integers. *)
Lemma Q_times_den (x : Q) :
  (x * inject_Z (Z.pos (Qden x)) == inject_Z (Qnum x))%Q.
Proof.
  destruct x as [a b]. unfold Qeq, Qmult, inject_Z. simpl.
  rewrite Pos.mul_1_r. ring.
Qed.

(** [ilog2 x] is the exponent of the binade of [x]:
    [2 ** ilog2 x <= x < 2 ** (ilog2 x + 1)]. *)
Lemma ilog2_spec (x : Q) :
  (0 < x)%Q ->
  (Js.pow2 (Js.ilog2 x) <= x)%Q /\ (x < Js.pow2 (Js.ilog2 x + 1))%Q.
Proof.
  intros Hx.
  assert (Ha : 0 < Qnum x).
  { destruct x as [a b]. unfold Qlt in Hx. simpl in *. lia. }
  pose proof (Z.log2_spec (Qnum x) Ha) as [Halo Hahi].
  pose proof (Z.log2_spec (Z.pos (Qden x)) ltac:(lia)) as [Hblo Hbhi].
  pose proof (Z.log2_nonneg (Qnum x)) as Hla.
  pose proof (Z.log2_nonneg (Z.pos (Qden x))) as Hlb.
  set (la := Z.log2 (Qnum x)) in *.
  set (lb := Z.log2 (Z.pos (Qden x))) in *.
  pose proof (Q_times_den x) as Hquot.
  set (A := inject_Z (Qnum x)) in *.
  set (B := inject_Z (Z.pos (Qden x))) in *.
  (* the four integer bounds, in Q *)
  assert (HAlo : (Js.pow2 la <= A)%Q).
  { rewrite pow2_nonneg_exponent by lia. unfold A. now rewrite <- Zle_Qle. }
  assert (HAhi : (A < Js.pow2 (la + 1))%Q).
  { rewrite pow2_nonneg_exponent by lia. unfold A.
    unfold Qlt, inject_Z; simpl. rewrite Z.add_1_r. lia. }
  assert (HBlo : (Js.pow2 lb <= B)%Q).
  { rewrite pow2_nonneg_exponent by lia. unfold B. now rewrite <- Zle_Qle. }
  assert (HBhi : (B < Js.pow2 (lb + 1))%Q).
  { rewrite pow2_nonneg_exponent by lia. unfold B.
    unfold Qlt, inject_Z; simpl. rewrite Z.add_1_r. lia. }
  pose proof (pow2_pos lb) as Hplb.
  pose proof (pow2_pos (lb + 1)) as Hplb1.
  assert (HB : (0 < B)%Q) by reflexivity.
  (* [2 ** (la - lb - 1) < x < 2 ** (la - lb + 1)] *)
  assert (Hbelow : (Js.pow2 (la - lb - 1) <= x)%Q).
  { assert (Hsplit : (Js.pow2 la == Js.pow2 (la - lb - 1) * Js.pow2 (lb + 1))%Q).
    { rewrite <- pow2_add. now replace (la - lb - 1 + (lb + 1)) with la by lia. }
    pose proof (pow2_pos (la - lb - 1)) as Hp.
    apply Qnot_lt_le. intros Hlt.
    assert (H1 : (x * B < Js.pow2 (la - lb - 1) * Js.pow2 (lb + 1))%Q).
    { apply Qlt_trans with (y := (Js.pow2 (la - lb - 1) * B)%Q).
      - now apply Qmult_lt_compat_r.
      - rewrite !(Qmult_comm (Js.pow2 (la - lb - 1))).
        now apply Qmult_lt_compat_r. }
    rewrite Hquot, <- Hsplit in H1.
    apply (Qlt_irrefl A). now apply Qlt_le_trans with (y := Js.pow2 la). }
  assert (Habove : (x < Js.pow2 (la - lb + 1))%Q).
  { assert (Hsplit : (Js.pow2 (la + 1) == Js.pow2 (la - lb + 1) * Js.pow2 lb)%Q).
    { rewrite <- pow2_add. now replace (la - lb + 1 + lb) with (la + 1) by lia. }
    pose proof (pow2_pos (la - lb + 1)) as Hp.
    apply Qnot_le_lt. intros Hle.
    assert (H1 : (Js.pow2 (la - lb + 1) * Js.pow2 lb <= x * B)%Q).
    { apply Qle_trans with (y := (Js.pow2 (la - lb + 1) * B)%Q).
      - rewrite !(Qmult_comm (Js.pow2 (la - lb + 1))).
        apply Qmult_le_compat_r; [exact HBlo | now apply Qlt_le_weak].
      - apply Qmult_le_compat_r; [exact Hle | now apply Qlt_le_weak]. }
    rewrite Hquot, <- Hsplit in H1.
    apply (Qlt_irrefl A). now apply Qlt_le_trans with (y := Js.pow2 (la + 1)). }
  unfold Js.ilog2. fold la lb.
  destruct (Qle_bool (Js.pow2 (la - lb)) x) eqn:Hcheck.
  - apply Qle_bool_iff in Hcheck. now split.
  - split; [exact Hbelow |].
    replace (la - lb - 1 + 1) with (la - lb) by lia.
    apply Qnot_le_lt. intros Hle. apply Qle_bool_iff in Hle. congruence.
Qed.

(** The nearest integer is within a half. *)
Lemma round_half_even_near (q : Q) :
  (q - (1 # 2) <= inject_Z (Js.round_half_even q))%Q
  /\ (inject_Z (Js.round_half_even q) <= q + (1 # 2))%Q.
Proof.
  pose proof (Qfloor_le q) as Hlo. pose proof (Qlt_floor q) as Hhi.
  rewrite inject_Z_plus in Hhi. change (inject_Z 1) with 1%Q in Hhi.
  unfold Js.round_half_even.
  destruct (q - inject_Z (Qfloor q) ?= 1 # 2)%Q eqn:Hcmp.
  - apply Qeq_alt in Hcmp.
    destruct (Z.even (Qfloor q)); rewrite ?inject_Z_plus;
      change (inject_Z 1) with 1%Q; split; lra.
  - apply Qlt_alt in Hcmp. split; lra.
  - apply Qgt_alt in Hcmp. rewrite inject_Z_plus.
    change (inject_Z 1) with 1%Q. split; lra.
Qed.

Lemma round_half_even_nonneg (q : Q) :
  (0 <= q)%Q -> 0 <= Js.round_half_even q.
Proof.
  intros Hq.
  assert (Hf : 0 <= Qfloor q).
  { change 0 with (Qfloor 0). now apply Qfloor_resp_le. }
  unfold Js.round_half_even.
  destruct (q - inject_Z (Qfloor q) ?= 1 # 2)%Q; [| lia | lia].
  destruct (Z.even (Qfloor q)); lia.
Qed.

(** Rounding a positive number moves it by at most half a unit of its
    binade, and not below 0. *)
Lemma round64_pos_near (x : Q) :
  (0 < x)%Q ->
  let e := Z.max (Js.ilog2 x - 52) (-1074) in
  (0 <= Js.round64_pos x)%Q
  /\ (Js.round64_pos x <= x + Js.pow2 e * (1 # 2))%Q
  /\ (x - Js.pow2 e * (1 # 2) <= Js.round64_pos x)%Q.
Proof.
  intros Hx e. unfold Js.round64_pos. fold e.
  pose proof (pow2_pos e) as Hp.
  set (q := (x / Js.pow2 e)%Q).
  assert (Hq : (q * Js.pow2 e == x)%Q).
  { unfold q. field. intros H0. rewrite H0 in Hp. now apply (Qlt_irrefl 0). }
  assert (Hq0 : (0 <= q)%Q).
  { unfold q. apply Qle_shift_div_l; [exact Hp |]. lra. }
  pose proof (round_half_even_near q) as [Hlo Hhi].
  pose proof (round_half_even_nonneg q Hq0) as Hm.
  set (m := inject_Z (Js.round_half_even q)) in *.
  assert (Hm0 : (0 <= m)%Q) by (unfold m, Qle, inject_Z; simpl; lia).
  split; [| split].
  - apply Qmult_le_0_compat; [exact Hm0 | now apply Qlt_le_weak].
  - apply Qle_trans with (y := ((q + (1 # 2)) * Js.pow2 e)%Q).
    + apply Qmult_le_compat_r; [exact Hhi | now apply Qlt_le_weak].
    + rewrite <- Hq. ring_simplify. apply Qle_refl.
  - apply Qle_trans with (y := ((q - (1 # 2)) * Js.pow2 e)%Q).
    + rewrite <- Hq. ring_simplify. apply Qle_refl.
    + apply Qmult_le_compat_r; [exact Hlo | now apply Qlt_le_weak].
Qed.

(** The largest binary64 number below 1 is [1 - 2 ** -53]. *)
Lemma double_below_one (r : Q) :
  Js.is_double r -> (r < 1)%Q -> (r <= 1 - Js.pow2 (-53))%Q.
Proof.
  intros (m & e & Hm & He & Hr) Hlt.
  assert (Hu : (Js.pow2 (-53) * inject_Z (2 ^ 53) == 1)%Q) by reflexivity.
  pose proof (pow2_pos (-53)) as Hupos.
  set (u := Js.pow2 (-53)) in *.
  set (V := inject_Z (2 ^ 53)) in *.
  assert (HV : (0 < V)%Q) by reflexivity.
  destruct (Z.le_gt_cases (-53) e) as [Hhigh | Hlow].
  - (* [r] is a multiple of [2 ** -53] *)
    assert (Hpow : (Js.pow2 e == inject_Z (2 ^ (e + 53)) * u)%Q).
    { rewrite <- pow2_nonneg_exponent by lia. unfold u.
      rewrite <- pow2_add. now replace (e + 53 + -53) with e by lia. }
    assert (HM : (r == inject_Z (m * 2 ^ (e + 53)) * u)%Q).
    { rewrite Hr, Hpow, inject_Z_mult. ring. }
    set (M := m * 2 ^ (e + 53)) in *.
    assert (Hbound : M < 2 ^ 53).
    { apply Z.lt_nge. intros Hge.
      assert (Hge' : (V <= inject_Z M)%Q) by (unfold V; now rewrite <- Zle_Qle).
      assert (H1 : (1 <= r)%Q).
      { rewrite HM, <- Hu. rewrite (Qmult_comm u V).
        apply Qmult_le_compat_r; [exact Hge' | now apply Qlt_le_weak]. }
      apply (Qlt_irrefl r). now apply Qlt_le_trans with (y := 1%Q). }
    assert (Hle : (inject_Z M <= V - 1)%Q).
    { apply Qle_trans with (y := inject_Z (2 ^ 53 - 1)).
      - rewrite <- Zle_Qle. lia.
      - unfold V. vm_compute. discriminate. }
    rewrite HM.
    apply Qle_trans with (y := ((V - 1) * u)%Q).
    + apply Qmult_le_compat_r; [exact Hle | now apply Qlt_le_weak].
    + setoid_replace ((V - 1) * u)%Q with (u * V - u)%Q by ring.
      rewrite Hu. apply Qle_refl.
  - (* [r] is below a half *)
    assert (Hhalf : (V * Js.pow2 (-54) == 1 # 2)%Q) by reflexivity.
    assert (Hsmall : (u <= 1 # 2)%Q) by (unfold u; vm_compute; discriminate).
    pose proof (pow2_pos e) as Hpe.
    pose proof (pow2_le e (-54) ltac:(lia)) as Hpe54.
    pose proof (pow2_pos (-54)) as Hp54.
    assert (HmV : (inject_Z m <= V)%Q) by (unfold V; rewrite <- Zle_Qle; lia).
    rewrite Hr.
    apply Qle_trans with (y := (1 # 2)%Q); [| lra].
    destruct (Z.le_gt_cases m 0) as [Hneg | Hpos].
    + apply Qle_trans with (y := 0%Q); [| discriminate].
      assert (Hm0 : (inject_Z m <= 0)%Q)
        by (unfold Qle, inject_Z; simpl; lia).
      setoid_replace 0%Q with (0 * Js.pow2 e)%Q by ring.
      apply Qmult_le_compat_r; [exact Hm0 | now apply Qlt_le_weak].
    + rewrite <- Hhalf.
      apply Qle_trans with (y := (V * Js.pow2 e)%Q).
      * apply Qmult_le_compat_r; [exact HmV | now apply Qlt_le_weak].
      * rewrite !(Qmult_comm V).
        apply Qmult_le_compat_r; [exact Hpe54 | now apply Qlt_le_weak].
Qed.

(** Rounding keeps a positive number at most [n (1 - 2 ** -53)] below
    [n]. *)
Lemma round64_pos_below (x n : Q) :
  (0 < x)%Q -> (1 <= n)%Q -> (x <= n * (1 - Js.pow2 (-53)))%Q ->
  (Js.round64_pos x < n)%Q.
Proof.
  intros Hx Hn Hxn.
  destruct (round64_pos_near x Hx) as (_ & Hup & _).
  pose proof (ilog2_spec x Hx) as [Hbinade _].
  pose proof (pow2_pos (-53)) as Hupos.
  assert (Hu1 : (Js.pow2 (-53) < 1)%Q) by (vm_compute; reflexivity).
  set (u := Js.pow2 (-53)) in *.
  assert (Hnu : (u <= n * u)%Q).
  { setoid_replace u with (1 * u)%Q at 1 by ring.
    apply Qmult_le_compat_r; [exact Hn | now apply Qlt_le_weak]. }
  assert (Hxltn : (x < n)%Q).
  { apply Qle_lt_trans with (y := (n * (1 - u))%Q); [exact Hxn |].
    setoid_replace (n * (1 - u))%Q with (n - n * u)%Q by ring. lra. }
  set (e := Z.max (Js.ilog2 x - 52) (-1074)) in *.
  assert (Hhalfulp : (Js.pow2 e * (1 # 2) < n * u)%Q).
  { destruct (Z.max_spec (Js.ilog2 x - 52) (-1074)) as [[_ He] | [_ He]];
      fold e in He; rewrite He.
    - apply Qlt_le_trans with (y := u); [| exact Hnu].
      unfold u. vm_compute. reflexivity.
    - assert (Hsplit :
        (Js.pow2 (Js.ilog2 x - 52) * (1 # 2) == Js.pow2 (Js.ilog2 x) * u)%Q).
      { replace (Js.ilog2 x - 52) with (Js.ilog2 x + -52) by lia.
        rewrite pow2_add. unfold u.
        setoid_replace (Js.pow2 (-53)) with (Js.pow2 (-52) * (1 # 2))%Q
          by reflexivity.
        ring. }
      rewrite Hsplit.
      apply Qle_lt_trans with (y := (x * u)%Q).
      + apply Qmult_le_compat_r; [exact Hbinade | now apply Qlt_le_weak].
      + now apply Qmult_lt_compat_r. }
  apply Qle_lt_trans with (y := (x + Js.pow2 e * (1 # 2))%Q); [exact Hup |].
  apply Qlt_le_trans with (y := (n * (1 - u) + n * u)%Q).
  - rewrite (Qplus_comm x), (Qplus_comm (n * (1 - u))).
    now apply Qplus_lt_le_compat.
  - ring_simplify. apply Qle_refl.
Qed.

(** [Math.random() * n], rounded to binary64, stays in [0, n): the product
    of the largest number below 1 with [n] still rounds below [n]. *)
Lemma mul_random_range (random : Q) (n : Z) :
  Js.is_double random -> (0 <= random)%Q -> (random < 1)%Q -> 0 < n ->
  (0 <= Js.mul random (inject_Z n))%Q
  /\ (Js.mul random (inject_Z n) < inject_Z n)%Q.
Proof.
  intros Hdouble Hlo Hhi Hn.
  pose proof (double_below_one random Hdouble Hhi) as Hbelow.
  assert (Hn1 : (1 <= inject_Z n)%Q)
    by (unfold Qle, inject_Z; simpl; lia).
  assert (Hn0 : (0 < inject_Z n)%Q)
    by (unfold Qlt, inject_Z; simpl; lia).
  assert (Hprod : (0 <= random * inject_Z n)%Q)
    by (apply Qmult_le_0_compat; [exact Hlo | now apply Qlt_le_weak]).
  unfold Js.mul, Js.round64.
  destruct (random * inject_Z n ?= 0)%Q eqn:Hcmp.
  - split; [apply Qle_refl | exact Hn0].
  - apply Qlt_alt in Hcmp. exfalso.
    apply (Qlt_irrefl 0). now apply Qle_lt_trans with (y := (random * inject_Z n)%Q).
  - apply Qgt_alt in Hcmp.
    split; [now apply round64_pos_near |].
    apply round64_pos_below; [exact Hcmp | exact Hn1 |].
    rewrite (Qmult_comm (inject_Z n)).
    apply Qmult_le_compat_r; [exact Hbelow | now apply Qlt_le_weak].
Qed.

(** A product with 0 is 0. *)
Lemma mul_zero_r (x : Q) : Js.mul x (inject_Z 0) = 0%Q.
Proof.
  unfold Js.mul, Js.round64.
  assert (H0 : (x * inject_Z 0 == 0)%Q) by (change (inject_Z 0) with 0%Q; ring).
  apply Qeq_alt in H0. now rewrite H0.
Qed.

(** The model on the products that exact arithmetic gets wrong:
    [0.3333333333333333 * 3] is 1 and [0.6666666666666666 * 3] is 2. *)
Example mul_rounds_up :
  (Js.mul (6004799503160661 # 18014398509481984) 3 == 1)%Q
  /\ (Js.mul (6004799503160661 # 9007199254740992) 3 == 2)%Q
  /\ Js.Math_floor ((6004799503160661 # 18014398509481984) * 3) = 0
  /\ Js.Math_floor (Js.mul (6004799503160661 # 18014398509481984) 3) = 1.
Proof. repeat split. Qed.

End DoubleFacts.

(** ** Facts about the shuffle draw *)

Module ShuffleFacts.

Import Player.

(** [queue.map((_, i) => i)] lists the positions. *)
Lemma nth_error_positions {A : Type} (arr : list A) :
  forall k j,
    (j < List.length arr)%nat ->
    nth_error (Js.mapi_from (fun (_ : A) i => i) k arr) j
    = Some (k + Z.of_nat j).
Proof.
  induction arr as [| a rest IH]; intros k j Hj; simpl in *; [lia |].
  destruct j as [| j]; simpl.
  - f_equal. lia.
  - rewrite IH by lia. f_equal. lia.
Qed.

Lemma length_positions {A : Type} (arr : list A) :
  forall k,
    List.length (Js.mapi_from (fun (_ : A) i => i) k arr) = List.length arr.
Proof.
  induction arr as [| a rest IH]; intros k; simpl; [reflexivity |].
  now rewrite IH.
Qed.

(** Positions counted from beyond [c] all differ from [c]. *)
Lemma filter_positions_above {A : Type} (c : Z) (arr : list A) :
  forall k,
    c < k ->
    filter (fun i => negb (i =? c))
      (Js.mapi_from (fun (_ : A) i => i) k arr)
    = Js.mapi_from (fun (_ : A) i => i) k arr.
Proof.
  induction arr as [| a rest IH]; intros k Hk; simpl; [reflexivity |].
  destruct (Z.eqb_spec k c) as [-> | _]; [lia |]. simpl.
  now rewrite IH by lia.
Qed.

(** Filtering [c] out of the positions [k, k+1, ...] leaves one position
    fewer, shifted by one from [c] on. *)
Lemma filter_positions_through {A : Type} (c : Z) (arr : list A) :
  forall k,
    k <= c < k + Js.length arr ->
    let rest :=
      filter (fun i => negb (i =? c))
        (Js.mapi_from (fun (_ : A) i => i) k arr) in
    List.length rest = Nat.pred (List.length arr) /\
    forall j,
      (j < Nat.pred (List.length arr))%nat ->
      nth_error rest j =
      Some (if k + Z.of_nat j <? c then k + Z.of_nat j
            else k + Z.of_nat j + 1).
Proof.
  induction arr as [| a tl IH]; intros k Hk; unfold Js.length in *;
    simpl in *; [lia |].
  destruct (Z.eqb_spec k c) as [-> | Hne]; simpl.
  - rewrite filter_positions_above by lia.
    split; [apply length_positions |].
    intros j Hj. rewrite nth_error_positions by lia.
    replace (c + Z.of_nat j <? c) with false
      by (symmetry; apply Z.ltb_ge; lia).
    f_equal. lia.
  - destruct (IH (k + 1)) as [Hlen Hnth]; [lia |].
    split.
    + rewrite Hlen. destruct tl; simpl in *; lia.
    + intros [| j] Hj; simpl.
      * replace (k + 0 <? c) with true by (symmetry; apply Z.ltb_lt; lia).
        f_equal. lia.
      * rewrite Hnth by lia.
        replace (k + 1 + Z.of_nat j) with (k + Z.pos (Pos.of_succ_nat j))
          by lia.
        reflexivity.
Qed.

Lemma availableIndices_length (q : list Track) (c : Z) :
  0 <= c < Js.length q ->
  Js.length (availableIndices q (Js.Num c)) = Js.length q - 1.
Proof.
  intros Hc. unfold availableIndices, Js.mapi, Js.strict_ne, Js.strict_eq.
  destruct (filter_positions_through c q 0) as [Hlen _]; [lia |].
  unfold Js.length in *. rewrite Hlen. lia.
Qed.

Lemma availableIndices_get (q : list Track) (c j : Z) :
  0 <= c < Js.length q ->
  0 <= j < Js.length q - 1 ->
  Js.get (availableIndices q (Js.Num c)) j
  = Some (if j <? c then j else j + 1).
Proof.
  intros Hc Hj.
  unfold availableIndices, Js.mapi, Js.strict_ne, Js.strict_eq.
  destruct (filter_positions_through c q 0) as [_ Hnth]; [lia |].
  unfold Js.get, Js.length in *.
  replace (j <? 0) with false by (symmetry; apply Z.ltb_ge; lia).
  rewrite Hnth by lia.
  rewrite Z2Nat.id by lia. reflexivity.
Qed.

(** [Math.floor(Math.random() * n)] is one of [0 .. n-1]. *)
Lemma floor_random_range (random : Q) (n : Z) :
  is_random random -> 0 < n ->
  0 <= Js.Math_floor (Js.mul random (inject_Z n)) < n.
Proof.
  intros (Hdouble & Hlo & Hhi) Hn. unfold Js.Math_floor.
  destruct (DoubleFacts.mul_random_range random n Hdouble Hlo Hhi Hn)
    as [Hge Hlt].
  split.
  - change 0 with (Qfloor 0). now apply Qfloor_resp_le.
  - rewrite Zlt_Qlt.
    apply Qle_lt_trans with (y := Js.mul random (inject_Z n));
      [apply Qfloor_le | exact Hlt].
Qed.

(** On an empty candidate list the draw is position 0, whatever the random
    number. *)
Lemma floor_random_empty (random : Q) :
  Js.Math_floor (Js.mul random (inject_Z 0)) = 0.
Proof. now rewrite DoubleFacts.mul_zero_r. Qed.

(** Two values that [Math.random()] may return. *)
Lemma is_random_half : is_random (1 # 2).
Proof.
  split; [| split; [discriminate | reflexivity]].
  exists 1, (-1). split; [reflexivity |]. split; [lia | reflexivity].
Qed.

Lemma is_random_three_quarters : is_random (3 # 4).
Proof.
  split; [| split; [discriminate | reflexivity]].
  exists 3, (-2). split; [reflexivity |]. split; [lia | reflexivity].
Qed.

(** The shuffle draw on a queue of at least two tracks: an index of the
    queue other than the cursor. *)
Lemma pickAvailable_in_range (random : Q) (q : list Track) (c : Z) :
  is_random random ->
  2 <= Js.length q ->
  0 <= c < Js.length q ->
  exists i,
    pickAvailable random (availableIndices q (Js.Num c)) = Js.Num i
    /\ 0 <= i < Js.length q /\ i <> c.
Proof.
  intros Hr Hlen Hc. unfold pickAvailable.
  rewrite availableIndices_length by exact Hc.
  pose proof (floor_random_range random (Js.length q - 1) Hr ltac:(lia))
    as Hk.
  rewrite availableIndices_get by lia.
  set (k := Js.Math_floor (Js.mul random (inject_Z (Js.length q - 1)))) in *.
  exists (if k <? c then k else k + 1).
  split; [reflexivity |].
  destruct (Z.ltb_spec k c); lia.
Qed.

End ShuffleFacts.

(** ** The queue controller *)

Module QueueSpec.

Import Player Samples.

(** The scenarios of the specification, run on the store. *)
Example scenario_advance_sequential :
  let s' := nextTrack (1 # 2) (playing [trackA; trackB; trackC] 0) in
  currentIndex s' = Js.Num 1 /\ currentTrack s' = Js.Obj trackB.
Proof. split; reflexivity. Qed.

Example scenario_advance_repeat_all :
  let s' :=
    nextTrack (1 # 2) (setRepeat All (playing [trackA; trackB; trackC] 2)) in
  currentIndex s' = Js.Num 0 /\ currentTrack s' = Js.Obj trackA.
Proof. split; reflexivity. Qed.

Example scenario_dequeue_before_cursor :
  let s' := removeFromQueue 0 (playing [trackA; trackB] 1) in
  currentIndex s' = Js.Num 0 /\ currentTrack s' = Js.Obj trackB.
Proof. split; reflexivity. Qed.

Example scenario_dequeue_at_cursor :
  let s' := removeFromQueue 1 (playing [trackA; trackB; trackC] 1) in
  currentIndex s' = Js.Num 1 /\ currentTrack s' = Js.Obj trackC.
Proof. split; reflexivity. Qed.

Example scenario_dequeue_last_at_cursor :
  let s' := removeFromQueue 2 (playing [trackA; trackB; trackC] 2) in
  currentIndex s' = Js.Num 0 /\ currentTrack s' = Js.Obj trackA.
Proof. split; reflexivity. Qed.

(** C2.  [setQueue(tracks, startIndex)] stores [startIndex] as the cursor
    without checking it against the bounds of [tracks]; the current track is
    [tracks[startIndex]] when [startIndex] is in range and [null] when it is
    not.  In particular [setQueue([], startIndex)] gives a [null] current
    track, and the cursor still holds [startIndex]. *)
Theorem setQueue_cursor_and_track
  (tracks : list Track) (startIndex : Z) (s : State) :
  let s' := setQueue tracks startIndex s in
  queue s' = tracks
  /\ currentIndex s' = Js.Num startIndex
  /\ (0 <= startIndex < Js.length tracks ->
      exists t,
        Js.get tracks startIndex = Some t /\ currentTrack s' = Js.Obj t)
  /\ (startIndex < 0 \/ Js.length tracks <= startIndex ->
      currentTrack s' = Js.Null)
  /\ currentTrack (setQueue [] startIndex s) = Js.Null
  /\ currentIndex (setQueue [] startIndex s) = Js.Num startIndex.
Proof.
  cbn zeta. unfold setQueue, set; simpl.
  repeat split.
  - intros Hin. destruct (JsFacts.get_in_range tracks startIndex Hin) as [t Ht].
    exists t. now rewrite Ht.
  - intros Hout. now rewrite JsFacts.get_out_of_range.
  - unfold Js.get. destruct (startIndex <? 0); [reflexivity |].
    now destruct (Z.to_nat startIndex).
Qed.

Lemma setQueue_cursor_and_track_witness :
  (0 <= 1 < Js.length [trackA; trackB]
   /\ currentTrack (setQueue [trackA; trackB] 1 initial) = Js.Obj trackB)
  /\ ((7 < 0 \/ Js.length [trackA; trackB] <= 7)
      /\ currentTrack (setQueue [trackA; trackB] 7 initial) = Js.Null
      /\ currentIndex (setQueue [trackA; trackB] 7 initial) = Js.Num 7).
Proof.
  pose proof (setQueue_cursor_and_track [trackA; trackB] 1 initial) as H1.
  pose proof (setQueue_cursor_and_track [trackA; trackB] 7 initial) as H7.
  cbn zeta in H1, H7.
  destruct H1 as (_ & _ & Hin & _).
  destruct H7 as (_ & Hcur & _ & Hout & _).
  assert (R1 : 0 <= 1 < Js.length [trackA; trackB])
    by (unfold Js.length; simpl; lia).
  assert (R7 : 7 < 0 \/ Js.length [trackA; trackB] <= 7)
    by (right; unfold Js.length; simpl; lia).
  split.
  - split; [exact R1 |].
    destruct (Hin R1) as (t & Hget & Htrack).
    rewrite Htrack. f_equal.
    vm_compute in Hget. injection Hget as <-. reflexivity.
  - split; [exact R7 |]. split; [exact (Hout R7) | exact Hcur].
Defined.

(** C10.  Neither [clearQueue()] nor [reset()] touches the playback modes or
    the volume flags: [shuffle], [repeat], [volume] and [isMuted] are the same
    after the call as before. *)
Theorem clear_and_reset_keep_modes (s : State) :
  (shuffle (clearQueue s) = shuffle s
   /\ repeat (clearQueue s) = repeat s
   /\ volume (clearQueue s) = volume s
   /\ isMuted (clearQueue s) = isMuted s)
  /\ (shuffle (reset s) = shuffle s
      /\ repeat (reset s) = repeat s
      /\ volume (reset s) = volume s
      /\ isMuted (reset s) = isMuted s).
Proof. repeat split. Qed.

(** C4, as stated, fails: under shuffle the random draw is taken before
    [repeat] is looked at, so from the last index the cursor need not wrap
    to 0. *)
Lemma nextTrack_repeat_all_shuffle_counterexample :
  let s := toggleShuffle (setRepeat All (playing [trackA; trackB; trackC] 2)) in
  queue s <> []
  /\ repeat s = All
  /\ currentIndex s = Js.Num (Js.length (queue s) - 1)
  /\ is_random (1 # 2)
  /\ currentIndex (nextTrack (1 # 2) s) = Js.Num 1
  /\ currentIndex (nextTrack (1 # 2) s) <> Js.Num 0
  /\ currentTrack (nextTrack (1 # 2) s) = Js.Obj trackB.
Proof.
  cbn zeta.
  split; [discriminate |]. split; [reflexivity |]. split; [reflexivity |].
  split; [exact ShuffleFacts.is_random_half |].
  split; [reflexivity |]. split; [| reflexivity].
  intros Heq. vm_compute in Heq. discriminate Heq.
Qed.

(** C4, amended.  With shuffle off, a non-empty queue and [repeat = 'all'],
    [nextTrack()] with the cursor at the last index sets the cursor to 0 and
    the current track to the first queue element, resets the elapsed time to
    0 and marks loading; nothing else changes. *)
Theorem nextTrack_repeat_all_wraps
  (random : Q) (s : State) (first : Track) (rest : list Track) :
  shuffle s = false ->
  repeat s = All ->
  queue s = first :: rest ->
  currentIndex s = Js.Num (Js.length (queue s) - 1) ->
  let s' := nextTrack random s in
  currentIndex s' = Js.Num 0
  /\ currentTrack s' = Js.Obj first
  /\ currentTime s' = 0%Q
  /\ isLoading s' = true
  /\ s' = set [ set_currentIndex (Js.Num 0);
                set_currentTrack (Js.Obj first);
                set_currentTime 0;
                set_isLoading true ] s.
Proof.
  intros Hshuffle Hrepeat Hqueue Hcursor.
  assert (Hnext :
    nextTrack random s
    = set [ set_currentIndex (Js.Num 0);
            set_currentTrack (Js.Obj first);
            set_currentTime 0;
            set_isLoading true ] s).
  { unfold nextTrack, nextIndex.
    rewrite Hshuffle, Hrepeat, Hcursor, Hqueue. simpl.
    destruct (Z.eqb_spec (Js.length (first :: rest)) 0) as [Hz | _].
    - unfold Js.length in Hz. simpl in Hz. lia.
    - rewrite Z.eqb_refl. reflexivity. }
  cbn zeta. rewrite Hnext. repeat split.
Qed.

Lemma nextTrack_repeat_all_wraps_witness :
  let s := setRepeat All (playing [trackA; trackB; trackC] 2) in
  currentIndex (nextTrack (1 # 2) s) = Js.Num 0
  /\ currentTrack (nextTrack (1 # 2) s) = Js.Obj trackA
  /\ currentTime (nextTrack (1 # 2) s) = 0%Q
  /\ isLoading (nextTrack (1 # 2) s) = true.
Proof.
  cbn zeta.
  pose proof
    (nextTrack_repeat_all_wraps (1 # 2)
       (setRepeat All (playing [trackA; trackB; trackC] 2))
       trackA [trackB; trackC]
       eq_refl eq_refl eq_refl eq_refl) as H.
  cbn zeta in H. destruct H as (H1 & H2 & H3 & H4 & _).
  repeat split; assumption.
Defined.

(** C3.  With shuffle on and a queue of exactly one track (cursor 0), the
    candidate list is empty; the draw from it is [undefined], and the store
    writes that: the cursor and the current track become [undefined], the
    elapsed time 0 and loading true.  The state is not left unchanged. *)
Theorem nextTrack_shuffle_singleton_writes_undefined
  (random : Q) (s : State) (only : Track) :
  shuffle s = true ->
  queue s = [only] ->
  currentIndex s = Js.Num 0 ->
  availableIndices (queue s) (currentIndex s) = []
  /\ nextTrack random s
     = set [ set_currentIndex Js.Undef;
             set_currentTrack Js.Undefined;
             set_currentTime 0;
             set_isLoading true ] s
  /\ currentIndex (nextTrack random s) = Js.Undef
  /\ currentTrack (nextTrack random s) = Js.Undefined
  /\ nextTrack random s <> s.
Proof.
  intros Hshuffle Hqueue Hcursor.
  assert (Havail : availableIndices (queue s) (currentIndex s) = [])
    by (now rewrite Hqueue, Hcursor).
  assert (Hnext :
    nextTrack random s
    = set [ set_currentIndex Js.Undef;
            set_currentTrack Js.Undefined;
            set_currentTime 0;
            set_isLoading true ] s).
  { unfold nextTrack, nextIndex. rewrite Hshuffle, Havail, Hqueue.
    unfold pickAvailable.
    change (Js.length (@nil Z)) with 0.
    rewrite ShuffleFacts.floor_random_empty. reflexivity. }
  split; [exact Havail |]. split; [exact Hnext |].
  rewrite Hnext. repeat split.
  intros Heq. apply (f_equal currentIndex) in Heq.
  rewrite Hcursor in Heq. discriminate.
Qed.

Lemma nextTrack_shuffle_singleton_witness :
  let s := toggleShuffle (playing [trackA] 0) in
  currentIndex (nextTrack (1 # 2) s) = Js.Undef
  /\ currentTrack (nextTrack (1 # 2) s) = Js.Undefined
  /\ nextTrack (1 # 2) s <> s.
Proof.
  cbn zeta.
  destruct
    (nextTrack_shuffle_singleton_writes_undefined (1 # 2)
       (toggleShuffle (playing [trackA] 0)) trackA
       eq_refl eq_refl eq_refl) as (_ & _ & H1 & H2 & H3).
  repeat split; assumption.
Defined.

(** C8.  With shuffle on, a queue of at least two tracks and the cursor in
    bounds, [nextTrack()] moves the cursor to an index [i] of the queue other
    than the previous cursor and makes [queue[i]] the current track, whatever
    number in [0, 1) the random draw returns. *)
Theorem nextTrack_shuffle_picks_other_track
  (random : Q) (s : State) (c : Z) :
  shuffle s = true ->
  2 <= Js.length (queue s) ->
  currentIndex s = Js.Num c ->
  0 <= c < Js.length (queue s) ->
  is_random random ->
  exists i t,
    0 <= i < Js.length (queue s)
    /\ i <> c
    /\ Js.get (queue s) i = Some t
    /\ currentIndex (nextTrack random s) = Js.Num i
    /\ currentTrack (nextTrack random s) = Js.Obj t
    /\ queue (nextTrack random s) = queue s.
Proof.
  intros Hshuffle Hlen Hcursor Hc Hr.
  destruct (ShuffleFacts.pickAvailable_in_range random (queue s) c Hr Hlen Hc)
    as (i & Hpick & Hi & Hne).
  destruct (JsFacts.get_in_range (queue s) i Hi) as [t Ht].
  exists i, t.
  unfold nextTrack, nextIndex.
  destruct (Z.eqb_spec (Js.length (queue s)) 0) as [Hz | _]; [lia |].
  rewrite Hshuffle, Hcursor, Hpick. unfold set; simpl.
  rewrite Ht. repeat split; try lia; assumption.
Qed.

Lemma nextTrack_shuffle_picks_other_track_witness :
  exists i t,
    0 <= i < 3
    /\ i <> 1
    /\ Js.get [trackA; trackB; trackC] i = Some t
    /\ currentIndex
         (nextTrack (3 # 4)
            (toggleShuffle (playing [trackA; trackB; trackC] 1)))
       = Js.Num i
    /\ currentTrack
         (nextTrack (3 # 4)
            (toggleShuffle (playing [trackA; trackB; trackC] 1)))
       = Js.Obj t.
Proof.
  destruct
    (nextTrack_shuffle_picks_other_track (3 # 4)
       (toggleShuffle (playing [trackA; trackB; trackC] 1)) 1
       eq_refl
       ltac:(vm_compute; discriminate)
       eq_refl
       ltac:(vm_compute; split; [discriminate | reflexivity])
       ShuffleFacts.is_random_three_quarters)
    as (i & t & Hi & Hne & Hget & Hcur & Htrack & _).
  exists i, t. repeat split; try assumption; apply Hi.
Defined.

(** *** [removeFromQueue], case by case *)

(** [queue.filter((_, i) => i !== index)] *)
Local Abbreviation without index q :=
  (Js.filteri (fun _ i => negb (i =? index)) q).

Lemma removeFromQueue_before (s : State) (c index : Z) :
  currentIndex s = Js.Num c ->
  index < c ->
  removeFromQueue index s
  = set [ set_queue (without index (queue s));
          set_currentIndex (Js.Num (c - 1));
          set_currentTrack
            (Js.or_null (Js.get (without index (queue s)) (c - 1))) ] s.
Proof.
  intros Hcursor Hlt. unfold removeFromQueue. rewrite Hcursor. simpl.
  replace (index <? c) with true by (symmetry; apply Z.ltb_lt; lia).
  reflexivity.
Qed.

Lemma removeFromQueue_after (s : State) (c index : Z) :
  currentIndex s = Js.Num c ->
  c < index ->
  removeFromQueue index s
  = set [ set_queue (without index (queue s));
          set_currentIndex (Js.Num c);
          set_currentTrack
            (Js.or_null (Js.get (without index (queue s)) c)) ] s.
Proof.
  intros Hcursor Hgt. unfold removeFromQueue. rewrite Hcursor. simpl.
  replace (index <? c) with false by (symmetry; apply Z.ltb_ge; lia).
  replace (index =? c) with false by (symmetry; apply Z.eqb_neq; lia).
  reflexivity.
Qed.

Lemma removeFromQueue_at_cursor (s : State) (c : Z) :
  currentIndex s = Js.Num c ->
  removeFromQueue c s
  = if Js.length (without c (queue s)) =? 0 then
      set [ set_queue [];
            set_currentTrack Js.Null;
            set_currentIndex (Js.Num 0);
            set_isPlaying false ] s
    else
      let cursor :=
        if c >=? Js.length (without c (queue s)) then 0 else c in
      set [ set_queue (without c (queue s));
            set_currentIndex (Js.Num cursor);
            set_currentTrack
              (Js.or_null (Js.get (without c (queue s)) cursor)) ] s.
Proof.
  intros Hcursor. unfold removeFromQueue. rewrite Hcursor. simpl.
  rewrite Z.ltb_irrefl, Z.eqb_refl.
  destruct (Js.length (without c (queue s)) =? 0); [reflexivity |].
  cbn zeta.
  destruct (c >=? Js.length (without c (queue s))); reflexivity.
Qed.

(** C5.  With the cursor in bounds, [removeFromQueue(index)] adjusts the
    cursor as follows.  [index < currentIndex]: the cursor goes down by 1.
    [index = currentIndex] and the queue becomes empty: the queue is emptied,
    the current track cleared and [isPlaying] set to false.
    [index = currentIndex] on the last element of a longer queue: the cursor
    goes back to 0.  [index = currentIndex] elsewhere: the cursor keeps its
    value and the current track becomes the track that followed.
    [index > currentIndex]: the cursor is unchanged. *)
Theorem removeFromQueue_adjusts_cursor (s : State) (c index : Z) :
  currentIndex s = Js.Num c ->
  0 <= c < Js.length (queue s) ->
  let s' := removeFromQueue index s in
  (index < c -> currentIndex s' = Js.Num (c - 1))
  /\ (index = c -> Js.length (queue s) = 1 ->
      queue s' = [] /\ currentTrack s' = Js.Null /\ isPlaying s' = false)
  /\ (index = c -> 1 < Js.length (queue s) -> c = Js.length (queue s) - 1 ->
      currentIndex s' = Js.Num 0)
  /\ (index = c -> c < Js.length (queue s) - 1 ->
      currentIndex s' = Js.Num c
      /\ exists following,
           Js.get (queue s) (c + 1) = Some following
           /\ currentTrack s' = Js.Obj following)
  /\ (c < index -> currentIndex s' = Js.Num c).
Proof.
  intros Hcursor Hc. cbn zeta.
  pose proof (JsFacts.length_filteri_in_range c (queue s) Hc) as Hlen.
  split; [| split; [| split; [| split]]].
  - intros Hlt. now rewrite (removeFromQueue_before s c index).
  - intros -> Hone. rewrite (removeFromQueue_at_cursor s c Hcursor).
    rewrite Hlen, Hone. repeat split.
  - intros -> Hmore Hlast. rewrite (removeFromQueue_at_cursor s c Hcursor).
    rewrite Hlen.
    replace (Js.length (queue s) - 1 =? 0) with false
      by (symmetry; apply Z.eqb_neq; lia).
    cbn zeta.
    replace (c >=? Js.length (queue s) - 1) with true
      by (symmetry; apply Z.geb_le; lia).
    reflexivity.
  - intros -> Hinner. rewrite (removeFromQueue_at_cursor s c Hcursor).
    rewrite Hlen.
    replace (Js.length (queue s) - 1 =? 0) with false
      by (symmetry; apply Z.eqb_neq; lia).
    cbn zeta.
    replace (c >=? Js.length (queue s) - 1) with false
      by (symmetry; rewrite Z.geb_leb; apply Z.leb_gt; lia).
    split; [reflexivity |].
    destruct (JsFacts.get_in_range (queue s) (c + 1)) as [t Ht]; [lia |].
    exists t. split; [exact Ht |].
    unfold set; simpl.
    rewrite JsFacts.get_filteri_in_range by lia.
    rewrite Z.ltb_irrefl, Ht. reflexivity.
  - intros Hgt. now rewrite (removeFromQueue_after s c index).
Qed.

Lemma removeFromQueue_adjusts_cursor_witness :
  currentIndex (removeFromQueue 0 (playing [trackA; trackB; trackC] 1))
  = Js.Num 0
  /\ (queue (removeFromQueue 0 (playing [trackA] 0)) = []
      /\ currentTrack (removeFromQueue 0 (playing [trackA] 0)) = Js.Null
      /\ isPlaying (removeFromQueue 0 (playing [trackA] 0)) = false)
  /\ currentIndex (removeFromQueue 2 (playing [trackA; trackB; trackC] 2))
     = Js.Num 0
  /\ currentIndex (removeFromQueue 1 (playing [trackA; trackB; trackC] 1))
     = Js.Num 1
  /\ currentIndex (removeFromQueue 2 (playing [trackA; trackB; trackC] 1))
     = Js.Num 1.
Proof.
  assert (R : forall c, 0 <= c < 3 ->
                0 <= c < Js.length (queue (playing [trackA; trackB; trackC] c)))
    by (intros c Hc; exact Hc).
  destruct (removeFromQueue_adjusts_cursor
              (playing [trackA; trackB; trackC] 1) 1 0 eq_refl
              (R 1 ltac:(lia))) as (Hbefore & _).
  destruct (removeFromQueue_adjusts_cursor
              (playing [trackA] 0) 0 0 eq_refl
              ltac:(vm_compute; split; [discriminate | reflexivity]))
    as (_ & Hempty & _).
  destruct (removeFromQueue_adjusts_cursor
              (playing [trackA; trackB; trackC] 2) 2 2 eq_refl
              (R 2 ltac:(lia))) as (_ & _ & Hlast & _).
  destruct (removeFromQueue_adjusts_cursor
              (playing [trackA; trackB; trackC] 1) 1 1 eq_refl
              (R 1 ltac:(lia))) as (_ & _ & _ & Hinner & _).
  destruct (removeFromQueue_adjusts_cursor
              (playing [trackA; trackB; trackC] 1) 1 2 eq_refl
              (R 1 ltac:(lia))) as (_ & _ & _ & _ & Hafter).
  split; [apply Hbefore; lia |].
  split; [apply Hempty; reflexivity |].
  split; [apply Hlast; [reflexivity | reflexivity | reflexivity] |].
  split; [apply Hinner; [reflexivity | reflexivity] |].
  apply Hafter; lia.
Defined.

(** *** [previousTrack] *)

(** C6.  On a non-empty queue, [previousTrack()] wraps the cursor from 0 to
    the last index when [repeat = 'all'], moves it down by 1 when it is
    greater than 0, and otherwise does nothing; and shuffle has no effect on
    it: the call does the same whether [shuffle] is true or false. *)
Theorem previousTrack_sequential (s : State) :
  queue s <> [] ->
  (repeat s = All -> currentIndex s = Js.Num 0 ->
   exists last,
     Js.get (queue s) (Js.length (queue s) - 1) = Some last
     /\ previousTrack s
        = set [ set_currentIndex (Js.Num (Js.length (queue s) - 1));
                set_currentTrack (Js.Obj last);
                set_currentTime 0;
                set_isLoading true ] s)
  /\ (forall c, currentIndex s = Js.Num c -> 0 < c ->
      previousTrack s
      = set [ set_currentIndex (Js.Num (c - 1));
              set_currentTrack (Js.read (Js.get (queue s) (c - 1)));
              set_currentTime 0;
              set_isLoading true ] s)
  /\ (~ (repeat s = All /\ currentIndex s = Js.Num 0) ->
      (forall c, currentIndex s = Js.Num c -> c <= 0) ->
      previousTrack s = s)
  /\ (forall b,
        previousTrack (set_shuffle b s) = set_shuffle b (previousTrack s)).
Proof.
  intros Hne.
  assert (Hlen : (Js.length (queue s) =? 0) = false).
  { apply Z.eqb_neq. intros Hz. now apply JsFacts.length_zero_iff in Hz. }
  split; [| split; [| split]].
  - intros Hrepeat Hcursor.
    destruct (JsFacts.get_in_range (queue s) (Js.length (queue s) - 1))
      as [last Hlast].
    { pose proof (JsFacts.length_nonneg (queue s)).
      apply Z.eqb_neq in Hlen. lia. }
    exists last. split; [exact Hlast |].
    unfold previousTrack, prevIndex. rewrite Hlen, Hrepeat, Hcursor. simpl.
    now rewrite Hlast.
  - intros c Hcursor Hpos.
    unfold previousTrack, prevIndex. rewrite Hlen, Hcursor.
    unfold Js.strict_eq, Js.num_gt, Js.add, Js.get_at.
    replace (0 =? c) with false by (symmetry; apply Z.eqb_neq; lia).
    rewrite andb_false_r.
    replace (c >? 0) with true by (symmetry; apply Z.gtb_lt; lia).
    reflexivity.
  - intros Hnowrap Hnodec.
    unfold previousTrack, prevIndex. rewrite Hlen.
    destruct (currentIndex s) as [c |] eqn:Hcursor;
      unfold Js.strict_eq, Js.num_gt.
    + pose proof (Hnodec c eq_refl) as Hc.
      replace (c >? 0) with false
        by (symmetry; rewrite Z.gtb_ltb; apply Z.ltb_ge; lia).
      destruct (repeat s) eqn:Hrepeat; cbn [RepeatMode_eqb andb];
        try reflexivity.
      destruct (Z.eqb_spec 0 c) as [<- | _]; [| reflexivity].
      exfalso. apply Hnowrap. now split.
    + now rewrite andb_false_r.
  - intros b. unfold previousTrack, prevIndex. simpl.
    destruct (Js.length (queue s) =? 0); [reflexivity |].
    destruct (RepeatMode_eqb (repeat s) All && Js.strict_eq 0 (currentIndex s));
      [reflexivity |].
    destruct (Js.num_gt (currentIndex s) 0); reflexivity.
Qed.

Lemma previousTrack_sequential_witness :
  currentIndex
    (previousTrack (setRepeat All (playing [trackA; trackB; trackC] 0)))
  = Js.Num 2
  /\ currentIndex (previousTrack (playing [trackA; trackB; trackC] 2))
     = Js.Num 1
  /\ previousTrack (playing [trackA; trackB; trackC] 0)
     = playing [trackA; trackB; trackC] 0.
Proof.
  destruct (previousTrack_sequential
              (setRepeat All (playing [trackA; trackB; trackC] 0))
              ltac:(discriminate)) as (Hwrap & _).
  destruct (previousTrack_sequential (playing [trackA; trackB; trackC] 2)
              ltac:(discriminate)) as (_ & Hdec & _).
  destruct (previousTrack_sequential (playing [trackA; trackB; trackC] 0)
              ltac:(discriminate)) as (_ & _ & Hstay & _).
  split; [| split].
  - destruct (Hwrap eq_refl eq_refl) as (last & _ & Heq).
    rewrite Heq. reflexivity.
  - rewrite (Hdec 2 eq_refl ltac:(lia)). reflexivity.
  - apply Hstay.
    + intros [Hrepeat _]. discriminate Hrepeat.
    + intros c Hc. injection Hc as <-. lia.
Defined.

(** *** Indices out of range and empty queues *)

Lemma queue_removeFromQueue (s : State) (index : Z) :
  queue (removeFromQueue index s) = without index (queue s).
Proof.
  unfold removeFromQueue.
  destruct (Js.lt_num index (currentIndex s)); [reflexivity |].
  destruct (Js.strict_eq index (currentIndex s)); [| reflexivity].
  destruct (Z.eqb_spec (Js.length (without index (queue s))) 0) as [Hz | _].
  - apply JsFacts.length_zero_iff in Hz. now rewrite Hz.
  - destruct (Js.num_ge (currentIndex s) (Js.length (without index (queue s))));
      reflexivity.
Qed.

Lemma seekToTrack_out_of_range (s : State) (index : Z) :
  index < 0 \/ Js.length (queue s) <= index -> seekToTrack index s = s.
Proof.
  intros Hout. unfold seekToTrack.
  destruct (Z.geb_spec index 0) as [Hge | Hlt]; simpl; [| reflexivity].
  destruct (Z.ltb_spec index (Js.length (queue s))); [lia | reflexivity].
Qed.

(** C7, as stated, fails for [removeFromQueue].  The call rewrites the
    current track from the queue, so a track set by [setCurrentTrack] is
    replaced even when the index removes nothing; and an index below 0 is
    below the cursor, which is moved down. *)
Lemma removeFromQueue_out_of_range_counterexample :
  (let s := setCurrentTrack trackC None 0 (playing [trackA; trackB] 0) in
   Js.length (queue s) <= 5
   /\ currentTrack s = Js.Obj trackC
   /\ currentTrack (removeFromQueue 5 s) = Js.Obj trackA
   /\ currentTrack (removeFromQueue 5 s) <> currentTrack s)
  /\ (let s := playing [trackA; trackB] 1 in
      -1 < 0
      /\ currentIndex s = Js.Num 1
      /\ currentIndex (removeFromQueue (-1) s) = Js.Num 0
      /\ currentIndex (removeFromQueue (-1) s) <> currentIndex s).
Proof.
  cbn zeta. split.
  - split; [vm_compute; discriminate |].
    repeat split; try reflexivity.
    vm_compute. discriminate.
  - repeat split; try reflexivity. vm_compute. discriminate.
Qed.

(** C7, amended.  Every action is a total function of the state.  For an
    index outside [0, queue.length), [seekToTrack(index)] leaves the state
    unchanged and [removeFromQueue(index)] leaves the queue unchanged; for an
    index at or beyond [queue.length] and a cursor in bounds,
    [removeFromQueue(index)] also leaves the cursor unchanged and sets the
    current track to [queue[currentIndex]], so that the whole state is
    unchanged when that was the current track already.  [nextTrack] and
    [previousTrack] on an empty queue leave the state unchanged. *)
Theorem invalid_inputs_degrade (s : State) (index : Z) (random : Q) :
  (index < 0 \/ Js.length (queue s) <= index ->
   seekToTrack index s = s
   /\ queue (removeFromQueue index s) = queue s)
  /\ (Js.length (queue s) <= index -> in_bounds s ->
      currentIndex (removeFromQueue index s) = currentIndex s
      /\ currentTrack (removeFromQueue index s)
         = Js.or_null (Js.get_at (queue s) (currentIndex s))
      /\ (track_at_cursor s -> removeFromQueue index s = s))
  /\ (queue s = [] -> nextTrack random s = s /\ previousTrack s = s).
Proof.
  split; [| split].
  - intros Hout. split; [now apply seekToTrack_out_of_range |].
    rewrite queue_removeFromQueue.
    now apply JsFacts.filteri_out_of_range.
  - intros Hbig (c & Hcursor & Hc).
    rewrite (removeFromQueue_after s c index Hcursor) by lia.
    rewrite JsFacts.filteri_out_of_range by (right; exact Hbig).
    split; [now rewrite Hcursor |]. split; [now rewrite Hcursor |].
    unfold track_at_cursor. rewrite Hcursor. intros Htrack.
    unfold set; simpl in *. rewrite <- Htrack, <- Hcursor.
    now destruct s.
  - intros Hempty. unfold nextTrack, previousTrack.
    rewrite Hempty. split; reflexivity.
Qed.

Lemma invalid_inputs_degrade_witness :
  (seekToTrack 5 (playing [trackA; trackB] 0) = playing [trackA; trackB] 0
   /\ seekToTrack (-1) (playing [trackA; trackB] 0)
      = playing [trackA; trackB] 0
   /\ queue (removeFromQueue (-1) (playing [trackA; trackB] 0))
      = [trackA; trackB])
  /\ removeFromQueue 5 (playing [trackA; trackB] 1)
     = playing [trackA; trackB] 1
  /\ (nextTrack (1 # 2) initial = initial /\ previousTrack initial = initial).
Proof.
  destruct (invalid_inputs_degrade (playing [trackA; trackB] 0) 5 (1 # 2))
    as (Hbig & _).
  destruct (invalid_inputs_degrade (playing [trackA; trackB] 0) (-1) (1 # 2))
    as (Hneg & _).
  destruct (invalid_inputs_degrade (playing [trackA; trackB] 1) 5 (1 # 2))
    as (_ & Hsync & _).
  destruct (invalid_inputs_degrade initial 0 (1 # 2)) as (_ & _ & Hempty).
  split; [| split].
  - split; [apply Hbig; right; vm_compute; discriminate |].
    split; apply Hneg; left; reflexivity.
  - apply Hsync.
    + vm_compute; discriminate.
    + exists 1. split; [reflexivity |].
      vm_compute. split; [discriminate | reflexivity].
    + reflexivity.
  - apply Hempty. reflexivity.
Defined.

(** *** The cursor bound *)

(** C1, as stated, fails: [setQueue] stores the start index it is given, so
    one call from the initial state leaves a non-empty queue with the cursor
    outside it. *)
Lemma cursor_bound_counterexample :
  reachable (setQueue [trackA] 5 initial)
  /\ cursor_ok initial
  /\ queue (setQueue [trackA] 5 initial) <> []
  /\ currentIndex (setQueue [trackA] 5 initial) = Js.Num 5
  /\ ~ cursor_ok (setQueue [trackA] 5 initial).
Proof.
  split; [| split; [| split; [| split]]].
  - exact (reachable_step (SetQueue [trackA] 5) initial reachable_initial I).
  - intros Hne. now contradiction Hne.
  - discriminate.
  - reflexivity.
  - intros Hok. destruct Hok as (c & Hcursor & Hc); [discriminate |].
    injection Hcursor as <-. vm_compute in Hc. destruct Hc as [_ Hc].
    discriminate Hc.
Qed.

(** An action that keeps the queue and the cursor keeps the bound. *)
Lemma cursor_ok_frame (s s' : State) :
  queue s' = queue s -> currentIndex s' = currentIndex s ->
  cursor_ok s -> cursor_ok s'.
Proof.
  unfold cursor_ok, in_bounds. intros -> -> Hok. exact Hok.
Qed.

Lemma cursor_ok_at (s' : State) (c : Z) :
  currentIndex s' = Js.Num c ->
  (queue s' <> [] -> 0 <= c < Js.length (queue s')) ->
  cursor_ok s'.
Proof.
  intros Hcursor Hc Hne. exists c. split; [exact Hcursor | exact (Hc Hne)].
Qed.

Lemma nonempty_length {A : Type} (arr : list A) :
  arr <> [] -> 0 < Js.length arr.
Proof.
  intros Hne. pose proof (JsFacts.length_nonneg arr).
  destruct (Z.eq_dec (Js.length arr) 0) as [Hz | Hnz]; [| lia].
  now apply JsFacts.length_zero_iff in Hz.
Qed.

Lemma nextTrack_keeps_cursor_ok (random : Q) (s : State) :
  is_random random ->
  (shuffle s = true -> Js.length (queue s) <> 1) ->
  cursor_ok s -> cursor_ok (nextTrack random s).
Proof.
  intros Hr Hsingle Hok. unfold nextTrack.
  destruct (Z.eqb_spec (Js.length (queue s)) 0) as [_ | Hnz]; [exact Hok |].
  assert (Hne : queue s <> [])
    by (intros Hnil; apply Hnz; now rewrite Hnil).
  destruct (Hok Hne) as (c & Hcursor & Hc).
  unfold nextIndex.
  destruct (shuffle s) eqn:Hshuffle.
  - destruct (ShuffleFacts.pickAvailable_in_range random (queue s) c Hr)
      as (i & Hpick & Hi & _); [specialize (Hsingle eq_refl); lia | exact Hc |].
    rewrite Hcursor, Hpick.
    apply cursor_ok_at with (c := i); [reflexivity | intros _; exact Hi].
  - destruct (RepeatMode_eqb (repeat s) One).
    { apply cursor_ok_at with (c := c); [exact Hcursor | intros _; exact Hc]. }
    destruct (RepeatMode_eqb (repeat s) All
              && Js.strict_eq (Js.length (queue s) - 1) (currentIndex s)).
    { apply cursor_ok_at with (c := 0); [reflexivity |].
      intros _. change (0 <= 0 < Js.length (queue s)). lia. }
    destruct (Js.num_lt (currentIndex s) (Js.length (queue s) - 1)) eqn:Hlt;
      [| exact Hok].
    rewrite Hcursor in *. simpl in Hlt. apply Z.ltb_lt in Hlt.
    apply cursor_ok_at with (c := c + 1); [reflexivity |].
    intros _. change (0 <= c + 1 < Js.length (queue s)). lia.
Qed.

Lemma previousTrack_keeps_cursor_ok (s : State) :
  cursor_ok s -> cursor_ok (previousTrack s).
Proof.
  intros Hok. unfold previousTrack.
  destruct (Z.eqb_spec (Js.length (queue s)) 0) as [_ | Hnz]; [exact Hok |].
  assert (Hne : queue s <> [])
    by (intros Hnil; apply Hnz; now rewrite Hnil).
  destruct (Hok Hne) as (c & Hcursor & Hc).
  unfold prevIndex.
  destruct (RepeatMode_eqb (repeat s) All && Js.strict_eq 0 (currentIndex s)).
  { apply cursor_ok_at with (c := Js.length (queue s) - 1); [reflexivity |].
    intros _.
    change (0 <= Js.length (queue s) - 1 < Js.length (queue s)). lia. }
  destruct (Js.num_gt (currentIndex s) 0) eqn:Hgt; [| exact Hok].
  rewrite Hcursor in *. simpl in Hgt. apply Z.gtb_lt in Hgt.
  apply cursor_ok_at with (c := c - 1); [reflexivity |].
  intros _. change (0 <= c - 1 < Js.length (queue s)). lia.
Qed.

Lemma seekToTrack_keeps_cursor_ok (index : Z) (s : State) :
  cursor_ok s -> cursor_ok (seekToTrack index s).
Proof.
  intros Hok. unfold seekToTrack.
  destruct (Z.geb_spec index 0) as [Hge | _]; simpl; [| exact Hok].
  destruct (Z.ltb_spec index (Js.length (queue s))) as [Hlt | _];
    [| exact Hok].
  apply cursor_ok_at with (c := index); [reflexivity |].
  intros _. change (0 <= index < Js.length (queue s)). lia.
Qed.

Lemma addToQueue_keeps_cursor_ok (track : Track) (s : State) :
  (queue s = [] -> currentIndex s = Js.Num 0) ->
  cursor_ok s -> cursor_ok (addToQueue track s).
Proof.
  intros Hzero Hok.
  destruct (queue s) as [| first rest] eqn:Hqueue.
  - apply cursor_ok_at with (c := 0).
    + exact (Hzero eq_refl).
    + intros _. unfold addToQueue, set; simpl. rewrite Hqueue.
      vm_compute. split; [discriminate | reflexivity].
  - destruct Hok as (c & Hcursor & Hc); [now rewrite Hqueue |].
    apply cursor_ok_at with (c := c); [exact Hcursor |].
    intros _. unfold addToQueue, set; simpl.
    rewrite Hqueue in *. rewrite JsFacts.length_app.
    pose proof (JsFacts.length_nonneg [track]). lia.
Qed.

Lemma removeFromQueue_keeps_cursor_ok (index : Z) (s : State) :
  0 <= index ->
  cursor_ok s -> cursor_ok (removeFromQueue index s).
Proof.
  intros Hindex Hok Hne'.
  rewrite queue_removeFromQueue in Hne'.
  assert (Hne : queue s <> []).
  { intros Hnil. apply Hne'. rewrite Hnil. reflexivity. }
  destruct (Hok Hne) as (c & Hcursor & Hc).
  unfold in_bounds. rewrite queue_removeFromQueue.
  assert (Hlen' : 0 < Js.length (without index (queue s)))
    by now apply nonempty_length.
  destruct (Z.lt_trichotomy index c) as [Hlt | [-> | Hgt]].
  - exists (c - 1).
    rewrite (removeFromQueue_before s c index Hcursor Hlt).
    split; [reflexivity |].
    rewrite JsFacts.length_filteri_in_range in * by lia. lia.
  - rewrite (removeFromQueue_at_cursor s c Hcursor).
    destruct (Z.eqb_spec (Js.length (without c (queue s))) 0) as [Hz | _];
      [lia |].
    cbn zeta.
    destruct (Z.geb_spec c (Js.length (without c (queue s)))) as [_ | Hin].
    + exists 0. split; [reflexivity | lia].
    + exists c. split; [reflexivity | lia].
  - exists c.
    rewrite (removeFromQueue_after s c index Hcursor Hgt).
    split; [reflexivity |].
    destruct (Z.lt_ge_cases index (Js.length (queue s))) as [Hin | Hout].
    + rewrite JsFacts.length_filteri_in_range by lia. lia.
    + rewrite JsFacts.filteri_out_of_range by (right; exact Hout). exact Hc.
Qed.

(** One step of the store under [keeps_bound]. *)
Lemma step_keeps_cursor_ok (s : State) (a : Action) :
  cursor_ok s -> keeps_bound s a -> cursor_ok (step a s).
Proof.
  intros Hok Hguard.
  destruct a; simpl in Hguard |- *;
    try (apply (cursor_ok_frame s); [reflexivity | reflexivity | exact Hok]).
  - (* setCurrentTrack *)
    apply cursor_ok_at with (c := index); [reflexivity |].
    intros Hne. destruct Hguard as [Hnil | Hin]; [| exact Hin].
    now contradiction Hne.
  - (* setQueue *)
    apply cursor_ok_at with (c := startIndex); [reflexivity |].
    intros Hne. destruct Hguard as [Hnil | Hin]; [| exact Hin].
    now contradiction Hne.
  - (* toggleMute *)
    unfold toggleMute. destruct (isMuted s); exact Hok.
  - (* nextTrack *)
    destruct Hguard as [Hr Hsingle]. now apply nextTrack_keeps_cursor_ok.
  - (* previousTrack *)
    now apply previousTrack_keeps_cursor_ok.
  - (* seekToTrack *)
    now apply seekToTrack_keeps_cursor_ok.
  - (* addToQueue *)
    now apply addToQueue_keeps_cursor_ok.
  - (* removeFromQueue *)
    now apply removeFromQueue_keeps_cursor_ok.
  - (* clearQueue *)
    intros Hne. now contradiction Hne.
  - (* reset *)
    intros Hne. now contradiction Hne.
Qed.

(** C1, amended.  From a state in which a non-empty queue has its cursor in
    bounds, a call keeps that bound when it satisfies [keeps_bound]:
    [previousTrack], [seekToTrack], [clearQueue] and [reset] always;
    [setQueue(tracks, startIndex)] when [tracks] is empty or [startIndex] is
    an index of [tracks]; [setCurrentTrack(track, playlist, index)] when the
    queue is empty or [index] is an index of it; [addToQueue] when the queue
    is non-empty or the cursor is 0; [nextTrack] when shuffle is off or the
    queue length is not 1; [removeFromQueue(index)] when [index >= 0].  Every
    state reached from the initial state by such calls satisfies the bound. *)
Theorem cursor_bound_preserved :
  (forall s a, cursor_ok s -> keeps_bound s a -> cursor_ok (step a s))
  /\ (forall s, bounded_run s -> cursor_ok s).
Proof.
  split; [exact step_keeps_cursor_ok |].
  intros s Hrun. induction Hrun as [| a s _ IH Hguard].
  - intros Hne. now contradiction Hne.
  - now apply step_keeps_cursor_ok.
Qed.

Lemma cursor_bound_preserved_witness :
  cursor_ok (removeFromQueue 0 (playing [trackA; trackB; trackC] 2))
  /\ cursor_ok
       (nextTrack (1 # 2)
          (toggleShuffle (addToQueue trackB (addToQueue trackA initial)))).
Proof.
  destruct cursor_bound_preserved as [Hstep Hrun].
  assert (Hplaying : cursor_ok (playing [trackA; trackB; trackC] 2)).
  { apply (Hstep initial (SetQueue [trackA; trackB; trackC] 2)).
    - intros Hne. now contradiction Hne.
    - right. vm_compute. split; [discriminate | reflexivity]. }
  split.
  - apply (Hstep (playing [trackA; trackB; trackC] 2) (RemoveFromQueue 0)).
    + exact Hplaying.
    + simpl. lia.
  - apply Hrun.
    apply (bounded_step (NextTrack (1 # 2))).
    + apply (bounded_step ToggleShuffle); [| exact I].
      apply (bounded_step (AddToQueue trackB));
        [| intros Hnil; discriminate Hnil].
      apply (bounded_step (AddToQueue trackA)); [| intros _; reflexivity].
      exact bounded_initial.
    + split; [exact ShuffleFacts.is_random_half |].
      intros _. vm_compute. discriminate.
Defined.

End QueueSpec.

(** ** The playlist model *)

Module PlaylistSpec.

Import PlaylistModel Samples.

(** What one id of [trackIds] pushes. *)
Local Abbreviation pushed ts :=
  (fun id : string =>
     match findTrack id ts with
     | Some track => [track]
     | None => []
     end).

(** The [forEach] loop, unrolled from any starting array. *)
Lemma reorder_loop (ts : list TrackEntry) (trackIds : list string) :
  forall acc,
    fold_left
      (fun acc id =>
         match findTrack id ts with
         | Some track => acc ++ [track]
         | None => acc
         end)
      trackIds acc
    = acc ++ flat_map (pushed ts) trackIds.
Proof.
  induction trackIds as [| id rest IH]; intros acc; simpl.
  - now rewrite app_nil_r.
  - rewrite IH. destruct (findTrack id ts); simpl.
    + now rewrite <- app_assoc.
    + reflexivity.
Qed.

Lemma reorderedTracks_flat_map (trackIds : list string) (ts : list TrackEntry) :
  reorderedTracks trackIds ts = flat_map (pushed ts) trackIds.
Proof. unfold reorderedTracks. now rewrite reorder_loop. Qed.

Lemma findTrack_Some (id : string) (ts : list TrackEntry) (t : TrackEntry) :
  findTrack id ts = Some t -> In t ts /\ trackId t = id.
Proof.
  unfold findTrack. intros Hfind. apply find_some in Hfind.
  destruct Hfind as [Hin Heq]. split; [exact Hin |].
  now apply String.eqb_eq.
Qed.

Lemma findTrack_present (id : string) (ts : list TrackEntry) :
  existsb (fun t => String.eqb (trackId t) id) ts
  = match findTrack id ts with Some _ => true | None => false end.
Proof.
  unfold findTrack. induction ts as [| a rest IH]; simpl; [reflexivity |].
  destruct (String.eqb (trackId a) id); [reflexivity | exact IH].
Qed.

(** When the track ids are distinct, [find] returns the track itself. *)
Lemma findTrack_own_id (ts : list TrackEntry) (t : TrackEntry) :
  NoDup (map trackId ts) -> In t ts -> findTrack (trackId t) ts = Some t.
Proof.
  unfold findTrack.
  induction ts as [| a rest IH]; intros Hnodup Hin; simpl in *; [easy |].
  apply NoDup_cons_iff in Hnodup. destruct Hnodup as [Hfresh Hnodup].
  destruct (String.eqb_spec (trackId a) (trackId t)) as [Hsame | Hdiff].
  - destruct Hin as [-> | Hin]; [reflexivity |].
    exfalso. apply Hfresh. rewrite Hsame. now apply in_map.
  - destruct Hin as [-> | Hin]; [now contradiction Hdiff |].
    now apply IH.
Qed.

Lemma In_reorderedTracks (trackIds : list string) (ts : list TrackEntry)
  (t : TrackEntry) :
  In t (reorderedTracks trackIds ts)
  <-> In (trackId t) trackIds /\ findTrack (trackId t) ts = Some t.
Proof.
  rewrite reorderedTracks_flat_map, in_flat_map. split.
  - intros (id & Hid & Hpushed).
    destruct (findTrack id ts) as [u |] eqn:Hfind; simpl in Hpushed;
      [| contradiction].
    destruct Hpushed as [-> | []].
    destruct (findTrack_Some id ts t Hfind) as [_ <-]. now split.
  - intros [Hid Hfind]. exists (trackId t). split; [exact Hid |].
    rewrite Hfind. now left.
Qed.

Lemma trackIds_reorderedTracks (trackIds : list string) (ts : list TrackEntry) :
  map trackId (reorderedTracks trackIds ts) = presentIds trackIds ts.
Proof.
  rewrite reorderedTracks_flat_map. unfold presentIds.
  induction trackIds as [| id rest IH]; simpl; [reflexivity |].
  rewrite map_app, IH, findTrack_present.
  destruct (findTrack id ts) as [t |] eqn:Hfind; simpl; [| reflexivity].
  now destruct (findTrack_Some id ts t Hfind) as [_ ->].
Qed.

(** Where no id is listed twice and the present tracks have distinct ids,
    [reorderTracks(trackIds)] rebuilds the track list as exactly the present
    tracks whose id is in [trackIds], in the order of [trackIds]: tracks
    whose id is not listed are dropped and ids that match no present track
    contribute nothing. *)
Lemma reorderTracks_without_repeats (trackIds : list string) (p : Playlist) :
  NoDup (map trackId (tracks p)) ->
  NoDup trackIds ->
  let p' := reorderTracks trackIds p in
  (forall t, In t (tracks p') <-> In t (tracks p) /\ In (trackId t) trackIds)
  /\ map trackId (tracks p') = presentIds trackIds (tracks p)
  /\ NoDup (map trackId (tracks p')).
Proof.
  intros Hdistinct Hnodup. cbn zeta. unfold reorderTracks; simpl.
  split; [| split].
  - intros t. rewrite In_reorderedTracks. split.
    + intros [Hid Hfind]. split; [| exact Hid].
      now apply findTrack_Some in Hfind.
    + intros [Hin Hid]. split; [exact Hid |].
      now apply findTrack_own_id.
  - apply trackIds_reorderedTracks.
  - rewrite trackIds_reorderedTracks. unfold presentIds.
    now apply NoDup_filter.
Qed.

(** C9.  The claim fails when [trackIds] lists an id twice: the loop pushes
    the track that [find] returns once for every occurrence, so a present
    track is in the new list twice and the list is not made of the present
    tracks any more; two entries then carry one track id, which [addTrack]
    refuses to create. *)
Theorem reorderTracks_repeated_id_duplicates
  (id : string) (before between after : list string) (p : Playlist) :
  In id (map trackId (tracks p)) ->
  let p' := reorderTracks (before ++ id :: between ++ id :: after) p in
  (exists t l1 l2 l3,
     In t (tracks p)
     /\ trackId t = id
     /\ tracks p' = l1 ++ t :: l2 ++ t :: l3)
  /\ ~ NoDup (tracks p')
  /\ ~ NoDup (map trackId (tracks p')).
Proof.
  intros Hpresent. cbn zeta.
  assert (Hfound : exists t, findTrack id (tracks p) = Some t).
  { pose proof (findTrack_present id (tracks p)) as Hex.
    destruct (findTrack id (tracks p)) as [t |]; [now exists t |].
    apply in_map_iff in Hpresent. destruct Hpresent as (u & Hid & Hin).
    assert (Htrue :
      existsb (fun t => String.eqb (trackId t) id) (tracks p) = true).
    { apply existsb_exists. exists u. split; [exact Hin |].
      now apply String.eqb_eq. }
    congruence. }
  destruct Hfound as [t Hfind].
  destruct (findTrack_Some id (tracks p) t Hfind) as [Hin Hid].
  assert (Hshape :
    tracks (reorderTracks (before ++ id :: between ++ id :: after) p)
    = flat_map (pushed (tracks p)) before
      ++ t :: flat_map (pushed (tracks p)) between
      ++ t :: flat_map (pushed (tracks p)) after).
  { unfold reorderTracks; simpl. rewrite reorderedTracks_flat_map.
    rewrite flat_map_app. simpl. rewrite Hfind. simpl.
    rewrite flat_map_app. simpl. rewrite Hfind. reflexivity. }
  assert (Htwice : forall (B : Type) (x : B) (l1 l2 l3 : list B),
            ~ NoDup (l1 ++ x :: l2 ++ x :: l3)).
  { intros B x l1 l2 l3 Hnodup. apply NoDup_remove_2 in Hnodup.
    apply Hnodup. apply in_or_app. right. apply in_or_app. right. now left. }
  split; [| split].
  - exists t, (flat_map (pushed (tracks p)) before),
      (flat_map (pushed (tracks p)) between),
      (flat_map (pushed (tracks p)) after).
    now split; [| split].
  - rewrite Hshape. apply Htwice.
  - rewrite Hshape, map_app. simpl. rewrite map_app. simpl. apply Htwice.
Qed.

Lemma reorderTracks_repeated_id_duplicates_witness :
  tracks (reorderTracks ["a"; "a"]%string (playlistOf [entry "a" "One"]))
  = [entry "a" "One"; entry "a" "One"]
  /\ ~ NoDup
         (map trackId
            (tracks
               (reorderTracks ["a"; "a"]%string
                  (playlistOf [entry "a" "One"])))).
Proof.
  split; [reflexivity |].
  apply (reorderTracks_repeated_id_duplicates "a" [] [] []
           (playlistOf [entry "a" "One"])).
  now left.
Defined.

End PlaylistSpec.

(** ** More of the queue controller *)

Module QueueMore.

Import Player PlayerSync Samples.

Lemma nonempty_of_in_range {A : Type} (arr : list A) (c : Z) :
  0 <= c < Js.length arr -> (Js.length arr =? 0) = false.
Proof. intros Hc. apply Z.eqb_neq. lia. Qed.

(** With shuffle off and [repeat = 'one'], [nextTrack()] keeps the cursor
    and reloads the same track: the current track becomes the queue entry
    under the cursor, the elapsed time 0 and loading true. *)
Theorem nextTrack_repeat_one_replays (random : Q) (s : State) (c : Z) :
  shuffle s = false ->
  repeat s = One ->
  currentIndex s = Js.Num c ->
  0 <= c < Js.length (queue s) ->
  exists t,
    Js.get (queue s) c = Some t
    /\ nextTrack random s
       = set [ set_currentIndex (Js.Num c);
               set_currentTrack (Js.Obj t);
               set_currentTime 0;
               set_isLoading true ] s.
Proof.
  intros Hshuffle Hrepeat Hcursor Hc.
  destruct (JsFacts.get_in_range (queue s) c Hc) as [t Ht].
  exists t. split; [exact Ht |].
  unfold nextTrack, nextIndex.
  rewrite (nonempty_of_in_range _ c Hc), Hshuffle, Hrepeat, Hcursor.
  cbn [RepeatMode_eqb Js.get_at]. now rewrite Ht.
Qed.

Lemma nextTrack_repeat_one_replays_witness :
  currentIndex
    (nextTrack (1 # 2) (setRepeat One (playing [trackA; trackB; trackC] 1)))
  = Js.Num 1
  /\ currentTrack
       (nextTrack (1 # 2) (setRepeat One (playing [trackA; trackB; trackC] 1)))
     = Js.Obj trackB.
Proof.
  destruct
    (nextTrack_repeat_one_replays (1 # 2)
       (setRepeat One (playing [trackA; trackB; trackC] 1)) 1
       eq_refl eq_refl eq_refl
       ltac:(vm_compute; split; [discriminate | reflexivity]))
    as (t & Hget & Heq).
  rewrite Heq. vm_compute in Hget. injection Hget as <-.
  split; reflexivity.
Defined.

(** [nextTrack()] from a cursor before the last index, shuffle off and
    [repeat] other than 'one'. *)
Lemma nextTrack_steps_forward (random : Q) (s : State) (c : Z) :
  shuffle s = false ->
  repeat s <> One ->
  currentIndex s = Js.Num c ->
  0 <= c < Js.length (queue s) - 1 ->
  nextTrack random s
  = set [ set_currentIndex (Js.Num (c + 1));
          set_currentTrack (Js.read (Js.get (queue s) (c + 1)));
          set_currentTime 0;
          set_isLoading true ] s.
Proof.
  intros Hshuffle Hrepeat Hcursor Hc.
  assert (Hone : RepeatMode_eqb (repeat s) One = false)
    by (destruct (repeat s); try reflexivity; now contradiction Hrepeat).
  unfold nextTrack, nextIndex.
  rewrite (nonempty_of_in_range (queue s) c ltac:(lia)), Hshuffle, Hone, Hcursor.
  unfold Js.strict_eq, Js.num_lt, Js.add, Js.get_at.
  replace (Js.length (queue s) - 1 =? c) with false
    by (symmetry; apply Z.eqb_neq; lia).
  rewrite andb_false_r.
  replace (c <? Js.length (queue s) - 1) with true
    by (symmetry; apply Z.ltb_lt; lia).
  reflexivity.
Qed.

(** With shuffle off and [repeat] other than 'one', [nextTrack()] moves the
    cursor to the following track while there is one; at the last index with
    [repeat = 'off'] it leaves the state as it is. *)
Theorem nextTrack_sequential (random : Q) (s : State) (c : Z) :
  shuffle s = false ->
  repeat s <> One ->
  currentIndex s = Js.Num c ->
  0 <= c < Js.length (queue s) ->
  (c < Js.length (queue s) - 1 ->
   exists t,
     Js.get (queue s) (c + 1) = Some t
     /\ nextTrack random s
        = set [ set_currentIndex (Js.Num (c + 1));
                set_currentTrack (Js.Obj t);
                set_currentTime 0;
                set_isLoading true ] s)
  /\ (repeat s = Off -> c = Js.length (queue s) - 1 ->
      nextTrack random s = s).
Proof.
  intros Hshuffle Hrepeat Hcursor Hc.
  assert (Hone : RepeatMode_eqb (repeat s) One = false)
    by (destruct (repeat s); try reflexivity; now contradiction Hrepeat).
  split.
  - intros Hlt.
    destruct (JsFacts.get_in_range (queue s) (c + 1)) as [t Ht]; [lia |].
    exists t. split; [exact Ht |].
    rewrite (nextTrack_steps_forward random s c) by (assumption || lia).
    now rewrite Ht.
  - intros Hoff Hlast.
    unfold nextTrack, nextIndex.
    rewrite (nonempty_of_in_range _ c Hc), Hshuffle, Hoff, Hcursor.
    cbn [RepeatMode_eqb andb]. unfold Js.num_lt.
    replace (c <? Js.length (queue s) - 1) with false
      by (symmetry; apply Z.ltb_ge; lia).
    reflexivity.
Qed.

Lemma nextTrack_sequential_witness :
  currentTrack (nextTrack (1 # 2) (playing [trackA; trackB] 0))
  = Js.Obj trackB
  /\ nextTrack (1 # 2) (playing [trackA; trackB] 1)
     = playing [trackA; trackB] 1.
Proof.
  assert (R : forall c, 0 <= c < 2 ->
                0 <= c < Js.length (queue (playing [trackA; trackB] c)))
    by (intros c Hc; exact Hc).
  destruct (nextTrack_sequential (1 # 2) (playing [trackA; trackB] 0) 0
              eq_refl ltac:(discriminate) eq_refl (R 0 ltac:(lia)))
    as (Hmove & _).
  destruct (nextTrack_sequential (1 # 2) (playing [trackA; trackB] 1) 1
              eq_refl ltac:(discriminate) eq_refl (R 1 ltac:(lia)))
    as (_ & Hstop).
  split.
  - destruct (Hmove ltac:(vm_compute; reflexivity)) as (t & Hget & Heq).
    rewrite Heq. vm_compute in Hget. injection Hget as <-. reflexivity.
  - apply Hstop; reflexivity.
Defined.

(** [previousTrack()] from a cursor above 0. *)
Lemma previousTrack_steps_back (s : State) (c : Z) :
  currentIndex s = Js.Num c ->
  0 < c ->
  (Js.length (queue s) =? 0) = false ->
  previousTrack s
  = set [ set_currentIndex (Js.Num (c - 1));
          set_currentTrack (Js.read (Js.get (queue s) (c - 1)));
          set_currentTime 0;
          set_isLoading true ] s.
Proof.
  intros Hcursor Hpos Hlen.
  unfold previousTrack, prevIndex. rewrite Hlen, Hcursor.
  unfold Js.strict_eq, Js.num_gt, Js.add, Js.get_at.
  replace (0 =? c) with false by (symmetry; apply Z.eqb_neq; lia).
  rewrite andb_false_r.
  replace (c >? 0) with true by (symmetry; apply Z.gtb_lt; lia).
  reflexivity.
Qed.

(** With shuffle off and [repeat] other than 'one', [previousTrack()] undoes
    a [nextTrack()] that moved: from a cursor in bounds that is not the last
    index, or from any cursor under [repeat = 'all'], the two calls bring
    the cursor back and make the queue entry under it the current track. *)
Theorem previousTrack_undoes_nextTrack (random : Q) (s : State) (c : Z) :
  shuffle s = false ->
  repeat s <> One ->
  currentIndex s = Js.Num c ->
  0 <= c < Js.length (queue s) ->
  repeat s = All \/ c < Js.length (queue s) - 1 ->
  exists t,
    Js.get (queue s) c = Some t
    /\ previousTrack (nextTrack random s)
       = set [ set_currentIndex (Js.Num c);
               set_currentTrack (Js.Obj t);
               set_currentTime 0;
               set_isLoading true ] s.
Proof.
  intros Hshuffle Hrepeat Hcursor Hc Hmoves.
  destruct (JsFacts.get_in_range (queue s) c Hc) as [t Ht].
  exists t. split; [exact Ht |].
  assert (Hone : RepeatMode_eqb (repeat s) One = false)
    by (destruct (repeat s); try reflexivity; now contradiction Hrepeat).
  pose proof (nonempty_of_in_range _ c Hc) as Hlen.
  destruct (Z.eq_dec c (Js.length (queue s) - 1)) as [Hlast | Hinner].
  - (* at the last index: [repeat = 'all'] wraps to 0 and back *)
    destruct Hmoves as [Hall | Hlt]; [| lia].
    unfold nextTrack, nextIndex.
    rewrite Hlen, Hshuffle, Hall, Hcursor.
    cbn [RepeatMode_eqb Js.strict_eq].
    replace (Js.length (queue s) - 1 =? c) with true
      by (symmetry; apply Z.eqb_eq; lia).
    cbn [andb].
    unfold previousTrack, prevIndex, set; simpl.
    rewrite Hlen, Hall. cbn [RepeatMode_eqb andb].
    rewrite <- Hlast. cbn [Js.get_at]. rewrite Ht. reflexivity.
  - (* elsewhere: one step forward, one step back *)
    rewrite (nextTrack_steps_forward random s c) by (assumption || lia).
    rewrite (previousTrack_steps_back _ (c + 1)); [| reflexivity | lia |].
    + replace (c + 1 - 1) with c by lia.
      unfold set; cbn [fold_left]. cbn [queue set_isLoading set_currentTime
        set_currentTrack set_currentIndex]. rewrite Ht.
      now destruct s.
    + unfold set; cbn [fold_left]. cbn [queue set_isLoading set_currentTime
        set_currentTrack set_currentIndex]. exact Hlen.
Qed.

Lemma previousTrack_undoes_nextTrack_witness :
  currentIndex
    (previousTrack (nextTrack (1 # 2) (playing [trackA; trackB; trackC] 1)))
  = Js.Num 1
  /\ currentIndex
       (previousTrack
          (nextTrack (1 # 2)
             (setRepeat All (playing [trackA; trackB; trackC] 2))))
     = Js.Num 2.
Proof.
  destruct
    (previousTrack_undoes_nextTrack (1 # 2)
       (playing [trackA; trackB; trackC] 1) 1
       eq_refl ltac:(discriminate) eq_refl
       ltac:(vm_compute; split; [discriminate | reflexivity])
       ltac:(right; vm_compute; reflexivity))
    as (t & _ & Hinner).
  destruct
    (previousTrack_undoes_nextTrack (1 # 2)
       (setRepeat All (playing [trackA; trackB; trackC] 2)) 2
       eq_refl ltac:(discriminate) eq_refl
       ltac:(vm_compute; split; [discriminate | reflexivity])
       ltac:(left; reflexivity))
    as (u & _ & Hwrap).
  rewrite Hinner, Hwrap. split; reflexivity.
Defined.

(** [seekToTrack(index)] with an index of the queue moves the cursor there
    and makes that queue entry the current track; afterwards the cursor is in
    bounds and the current track is the entry under it. *)
Theorem seekToTrack_in_range (s : State) (index : Z) :
  0 <= index < Js.length (queue s) ->
  exists t,
    Js.get (queue s) index = Some t
    /\ seekToTrack index s
       = set [ set_currentIndex (Js.Num index);
               set_currentTrack (Js.Obj t);
               set_currentTime 0;
               set_isLoading true ] s
    /\ in_bounds (seekToTrack index s)
    /\ track_at_cursor (seekToTrack index s).
Proof.
  intros Hin.
  destruct (JsFacts.get_in_range (queue s) index Hin) as [t Ht].
  exists t. split; [exact Ht |].
  assert (Heq :
    seekToTrack index s
    = set [ set_currentIndex (Js.Num index);
            set_currentTrack (Js.Obj t);
            set_currentTime 0;
            set_isLoading true ] s).
  { unfold seekToTrack.
    replace (index >=? 0) with true by (symmetry; apply Z.geb_le; lia).
    replace (index <? Js.length (queue s)) with true
      by (symmetry; apply Z.ltb_lt; lia).
    cbn [andb]. now rewrite Ht. }
  rewrite Heq. split; [reflexivity |]. split.
  - exists index. split; [reflexivity | exact Hin].
  - unfold track_at_cursor, set; simpl. now rewrite Ht.
Qed.

Lemma seekToTrack_in_range_witness :
  currentIndex (seekToTrack 2 (playing [trackA; trackB; trackC] 0)) = Js.Num 2
  /\ currentTrack (seekToTrack 2 (playing [trackA; trackB; trackC] 0))
     = Js.Obj trackC.
Proof.
  destruct (seekToTrack_in_range (playing [trackA; trackB; trackC] 0) 2
              ltac:(vm_compute; split; [discriminate | reflexivity]))
    as (t & Hget & Heq & _).
  rewrite Heq. vm_compute in Hget. injection Hget as <-.
  split; reflexivity.
Defined.

(** [addToQueue(track)] puts the track at the end: the queue is one longer,
    every position that was in the queue keeps its track, the new last
    position holds [track], and the cursor and the current track are not
    touched. *)
Theorem addToQueue_appends (track : Track) (s : State) :
  let s' := addToQueue track s in
  Js.length (queue s') = Js.length (queue s) + 1
  /\ (forall i, 0 <= i < Js.length (queue s) ->
        Js.get (queue s') i = Js.get (queue s) i)
  /\ Js.get (queue s') (Js.length (queue s)) = Some track
  /\ currentIndex s' = currentIndex s
  /\ currentTrack s' = currentTrack s.
Proof.
  cbn zeta. unfold addToQueue, set; simpl.
  split; [rewrite JsFacts.length_app; reflexivity |].
  split; [intros i Hi; now apply JsFacts.get_last_app |].
  split; [| split; reflexivity].
  unfold Js.get, Js.length.
  replace (Z.of_nat (List.length (queue s)) <? 0) with false
    by (symmetry; apply Z.ltb_ge; lia).
  rewrite Nat2Z.id, nth_error_app2, Nat.sub_diag by lia. reflexivity.
Qed.

Lemma addToQueue_appends_witness :
  Js.get (queue (addToQueue trackC (playing [trackA; trackB] 1))) 0
  = Some trackA.
Proof.
  destruct (addToQueue_appends trackC (playing [trackA; trackB] 1))
    as (_ & Hkeep & _).
  rewrite (Hkeep 0 ltac:(vm_compute; split; [discriminate | reflexivity])).
  reflexivity.
Defined.

(** [removeFromQueue(index)] with an index of the queue takes that entry out:
    the queue is one shorter, the positions before [index] keep their track
    and each later position holds the track that followed it. *)
Theorem removeFromQueue_takes_entry_out (s : State) (index : Z) :
  0 <= index < Js.length (queue s) ->
  let s' := removeFromQueue index s in
  Js.length (queue s') = Js.length (queue s) - 1
  /\ (forall j, 0 <= j < index -> Js.get (queue s') j = Js.get (queue s) j)
  /\ (forall j, index <= j -> Js.get (queue s') j = Js.get (queue s) (j + 1)).
Proof.
  intros Hin. cbn zeta. rewrite QueueSpec.queue_removeFromQueue.
  split; [now apply JsFacts.length_filteri_in_range |].
  split; intros j Hj; rewrite JsFacts.get_filteri_in_range by lia.
  - replace (j <? index) with true by (symmetry; apply Z.ltb_lt; lia).
    reflexivity.
  - replace (j <? index) with false by (symmetry; apply Z.ltb_ge; lia).
    reflexivity.
Qed.

Lemma removeFromQueue_takes_entry_out_witness :
  Js.length (queue (removeFromQueue 1 (playing [trackA; trackB; trackC] 0)))
  = 2
  /\ Js.get (queue (removeFromQueue 1 (playing [trackA; trackB; trackC] 0))) 1
     = Some trackC.
Proof.
  destruct (removeFromQueue_takes_entry_out
              (playing [trackA; trackB; trackC] 0) 1
              ltac:(vm_compute; split; [discriminate | reflexivity]))
    as (Hlen & _ & Hafter).
  split; [exact Hlen |].
  rewrite (Hafter 1 ltac:(lia)). reflexivity.
Defined.

(** Removing a track other than the one under the cursor does not change
    what is playing: with the cursor in bounds, the current track being the
    entry under it, and [index >= 0] different from the cursor,
    [removeFromQueue(index)] keeps the current track, and the cursor still
    points at it. *)
Theorem removeFromQueue_elsewhere_keeps_track (s : State) (c index : Z) :
  currentIndex s = Js.Num c ->
  0 <= c < Js.length (queue s) ->
  track_at_cursor s ->
  0 <= index ->
  index <> c ->
  currentTrack (removeFromQueue index s) = currentTrack s
  /\ track_at_cursor (removeFromQueue index s)
  /\ in_bounds (removeFromQueue index s).
Proof.
  intros Hcursor Hc Htrack Hindex Hne.
  unfold track_at_cursor in Htrack. rewrite Hcursor in Htrack.
  cbn [Js.get_at] in Htrack.
  destruct (Z.lt_trichotomy index c) as [Hlt | [Heq | Hgt]]; [| lia |].
  - assert (Hnew :
      Js.get (Js.filteri (fun _ i => negb (i =? index)) (queue s)) (c - 1)
      = Js.get (queue s) c).
    { rewrite JsFacts.get_filteri_in_range by lia.
      replace (c - 1 <? index) with false by (symmetry; apply Z.ltb_ge; lia).
      f_equal. lia. }
    rewrite (QueueSpec.removeFromQueue_before s c index Hcursor Hlt).
    unfold track_at_cursor, in_bounds, set; simpl.
    rewrite Hnew, Htrack. split; [reflexivity |]. split; [reflexivity |].
    exists (c - 1). split; [reflexivity |].
    rewrite JsFacts.length_filteri_in_range by lia. lia.
  - assert (Hnew :
      Js.get (Js.filteri (fun _ i => negb (i =? index)) (queue s)) c
      = Js.get (queue s) c).
    { destruct (Z.lt_ge_cases index (Js.length (queue s))) as [Hin | Hout].
      - rewrite JsFacts.get_filteri_in_range by lia.
        replace (c <? index) with true by (symmetry; apply Z.ltb_lt; lia).
        reflexivity.
      - now rewrite JsFacts.filteri_out_of_range by (right; exact Hout). }
    rewrite (QueueSpec.removeFromQueue_after s c index Hcursor Hgt).
    unfold track_at_cursor, in_bounds, set; simpl.
    rewrite Hnew, Htrack. split; [reflexivity |]. split; [reflexivity |].
    exists c. split; [reflexivity |].
    destruct (Z.lt_ge_cases index (Js.length (queue s))) as [Hin | Hout].
    + rewrite JsFacts.length_filteri_in_range by lia. lia.
    + now rewrite JsFacts.filteri_out_of_range by (right; exact Hout).
Qed.

Lemma removeFromQueue_elsewhere_keeps_track_witness :
  currentTrack (removeFromQueue 0 (playing [trackA; trackB; trackC] 1))
  = Js.Obj trackB
  /\ currentTrack (removeFromQueue 2 (playing [trackA; trackB; trackC] 1))
     = Js.Obj trackB.
Proof.
  assert (R : 0 <= 1 < Js.length (queue (playing [trackA; trackB; trackC] 1)))
    by (vm_compute; split; [discriminate | reflexivity]).
  destruct (removeFromQueue_elsewhere_keeps_track
              (playing [trackA; trackB; trackC] 1) 1 0
              eq_refl R eq_refl ltac:(lia) ltac:(lia)) as (Hbefore & _).
  destruct (removeFromQueue_elsewhere_keeps_track
              (playing [trackA; trackB; trackC] 1) 1 2
              eq_refl R eq_refl ltac:(lia) ltac:(lia)) as (Hafter & _).
  rewrite Hbefore, Hafter. split; reflexivity.
Defined.

(** *** The current track follows the cursor *)

Lemma track_at_cursor_of_read (s : State) :
  in_bounds s ->
  currentTrack s = Js.read (Js.get_at (queue s) (currentIndex s)) ->
  track_at_cursor s.
Proof.
  intros (c & Hcursor & Hc) Hread. unfold track_at_cursor.
  rewrite Hread, Hcursor. cbn [Js.get_at].
  destruct (JsFacts.get_in_range (queue s) c Hc) as [t Ht].
  now rewrite Ht.
Qed.

Lemma nextTrack_reads_queue (random : Q) (s : State) :
  nextTrack random s = s
  \/ currentTrack (nextTrack random s)
     = Js.read (Js.get_at (queue (nextTrack random s))
                  (currentIndex (nextTrack random s))).
Proof.
  unfold nextTrack.
  destruct (Js.length (queue s) =? 0); [now left |].
  destruct (nextIndex random s); [right; reflexivity | now left].
Qed.

Lemma previousTrack_reads_queue (s : State) :
  previousTrack s = s
  \/ currentTrack (previousTrack s)
     = Js.read (Js.get_at (queue (previousTrack s))
                  (currentIndex (previousTrack s))).
Proof.
  unfold previousTrack.
  destruct (Js.length (queue s) =? 0); [now left |].
  destruct (prevIndex s); [right; reflexivity | now left].
Qed.

Lemma seekToTrack_reads_queue (index : Z) (s : State) :
  seekToTrack index s = s
  \/ currentTrack (seekToTrack index s)
     = Js.read (Js.get_at (queue (seekToTrack index s))
                  (currentIndex (seekToTrack index s))).
Proof.
  unfold seekToTrack.
  destruct ((index >=? 0) && (index <? Js.length (queue s)));
    [right; reflexivity | now left].
Qed.

(** Whatever the index, [removeFromQueue] leaves the current track equal to
    the queue entry under the cursor, or [null] when there is none. *)
Lemma removeFromQueue_track_at_cursor (index : Z) (s : State) :
  track_at_cursor (removeFromQueue index s).
Proof.
  unfold track_at_cursor, removeFromQueue.
  destruct (Js.lt_num index (currentIndex s)); [reflexivity |].
  destruct (Js.strict_eq index (currentIndex s)); [| reflexivity].
  destruct (Js.length _ =? 0); [reflexivity |].
  destruct (Js.num_ge (currentIndex s) _); reflexivity.
Qed.

Lemma in_sync_cursor_ok (s : State) : in_sync s -> cursor_ok s.
Proof. intros Hsync Hne. now destruct (Hsync Hne). Qed.

Lemma step_keeps_sync (s : State) (a : Action) :
  in_sync s -> keeps_sync s a -> in_sync (step a s).
Proof.
  intros Hsync [Hbound Hextra] Hne'.
  pose proof (QueueSpec.step_keeps_cursor_ok s a (in_sync_cursor_ok s Hsync)
                Hbound Hne') as Hin.
  split; [exact Hin |].
  destruct a; simpl in Hextra, Hne', Hin |- *;
    try (now apply Hsync).
  - (* setCurrentTrack *)
    destruct Hextra as [Hnil | Hget]; [now contradiction Hne' |].
    unfold track_at_cursor, setCurrentTrack, set; simpl. now rewrite Hget.
  - (* setQueue *) reflexivity.
  - (* toggleMute *)
    unfold toggleMute in *. destruct (isMuted s); now apply Hsync.
  - (* nextTrack *)
    destruct (nextTrack_reads_queue random s) as [Heq | Hread].
    + rewrite Heq in *. now apply Hsync.
    + now apply track_at_cursor_of_read.
  - (* previousTrack *)
    destruct (previousTrack_reads_queue s) as [Heq | Hread].
    + rewrite Heq in *. now apply Hsync.
    + now apply track_at_cursor_of_read.
  - (* seekToTrack *)
    destruct (seekToTrack_reads_queue index s) as [Heq | Hread].
    + rewrite Heq in *. now apply Hsync.
    + now apply track_at_cursor_of_read.
  - (* addToQueue *)
    destruct (Hsync Hextra) as [(c & Hcursor & Hc) Htrack].
    unfold track_at_cursor in *. unfold addToQueue, set; simpl.
    rewrite Htrack, Hcursor. cbn [Js.get_at].
    now rewrite JsFacts.get_last_app.
  - (* removeFromQueue *)
    apply removeFromQueue_track_at_cursor.
  - (* clearQueue *) reflexivity.
  - (* reset *) reflexivity.
Qed.

(** From a state in which a non-empty queue has its cursor in bounds and the
    current track is the queue entry under the cursor, a call keeps both when
    it satisfies [keeps_sync]: what [keeps_bound] asks, and further that
    [setCurrentTrack] is given the queue entry at its index (or the queue is
    empty) and [addToQueue] finds a non-empty queue.  Every state reached
    from the initial state by such calls has the current track under the
    cursor. *)
Theorem current_track_follows_cursor :
  (forall s a, in_sync s -> keeps_sync s a -> in_sync (step a s))
  /\ (forall s, synced_run s -> in_sync s).
Proof.
  split; [exact step_keeps_sync |].
  intros s Hrun. induction Hrun as [| a s _ IH Hguard].
  - intros Hne. now contradiction Hne.
  - now apply step_keeps_sync.
Qed.

Lemma current_track_follows_cursor_witness :
  in_sync
    (removeFromQueue 0
       (nextTrack (1 # 2) (setQueue [trackA; trackB; trackC] 0 initial))).
Proof.
  destruct current_track_follows_cursor as [_ Hrun].
  apply Hrun.
  apply (synced_step (RemoveFromQueue 0)); [| split; [simpl; lia | exact I]].
  apply (synced_step (NextTrack (1 # 2))).
  - apply (synced_step (SetQueue [trackA; trackB; trackC] 0));
      [exact synced_initial |].
    split; [| exact I].
    right. vm_compute. split; [discriminate | reflexivity].
  - split; [| exact I].
    split; [exact ShuffleFacts.is_random_half |].
    intros Hshuffle. discriminate Hshuffle.
Defined.

(** *** What each action leaves alone *)

(** Only [setQueue], [addToQueue], [removeFromQueue], [clearQueue] and
    [reset] change the queue (shuffle, in particular, never reorders it);
    only [toggleShuffle], [setRepeat] and [toggleRepeat] change [shuffle] or
    [repeat]; only [setVolume] and [toggleMute] change [volume] or
    [isMuted]. *)
Theorem actions_frame (a : Action) (s : State) :
  (writes_queue a = false -> queue (step a s) = queue s)
  /\ (writes_mode a = false ->
      shuffle (step a s) = shuffle s /\ repeat (step a s) = repeat s)
  /\ (writes_volume a = false ->
      volume (step a s) = volume s /\ isMuted (step a s) = isMuted s).
Proof.
  assert (Hnext : forall random,
    queue (nextTrack random s) = queue s
    /\ shuffle (nextTrack random s) = shuffle s
    /\ repeat (nextTrack random s) = repeat s
    /\ volume (nextTrack random s) = volume s
    /\ isMuted (nextTrack random s) = isMuted s).
  { intros random. unfold nextTrack.
    destruct (Js.length (queue s) =? 0); [repeat split |].
    destruct (nextIndex random s); repeat split. }
  assert (Hprev :
    queue (previousTrack s) = queue s
    /\ shuffle (previousTrack s) = shuffle s
    /\ repeat (previousTrack s) = repeat s
    /\ volume (previousTrack s) = volume s
    /\ isMuted (previousTrack s) = isMuted s).
  { unfold previousTrack.
    destruct (Js.length (queue s) =? 0); [repeat split |].
    destruct (prevIndex s); repeat split. }
  assert (Hseek : forall index,
    queue (seekToTrack index s) = queue s
    /\ shuffle (seekToTrack index s) = shuffle s
    /\ repeat (seekToTrack index s) = repeat s
    /\ volume (seekToTrack index s) = volume s
    /\ isMuted (seekToTrack index s) = isMuted s).
  { intros index. unfold seekToTrack.
    destruct ((index >=? 0) && (index <? Js.length (queue s)));
      repeat split. }
  assert (Hremove : forall index,
    shuffle (removeFromQueue index s) = shuffle s
    /\ repeat (removeFromQueue index s) = repeat s
    /\ volume (removeFromQueue index s) = volume s
    /\ isMuted (removeFromQueue index s) = isMuted s).
  { intros index. unfold removeFromQueue.
    destruct (Js.lt_num index (currentIndex s)); [repeat split |].
    destruct (Js.strict_eq index (currentIndex s)); [| repeat split].
    destruct (Js.length _ =? 0); [repeat split |].
    destruct (Js.num_ge (currentIndex s) _); repeat split. }
  assert (Hmute :
    queue (toggleMute s) = queue s
    /\ shuffle (toggleMute s) = shuffle s
    /\ repeat (toggleMute s) = repeat s).
  { unfold toggleMute. destruct (isMuted s); repeat split. }
  destruct a; simpl;
    (split; [| split]); intros Hw; try discriminate Hw;
    try split;
    first [ reflexivity | apply Hnext | apply Hprev | apply Hseek
          | apply Hremove | apply Hmute ].
Qed.

Lemma actions_frame_witness :
  queue (step (NextTrack (1 # 2))
           (toggleShuffle (playing [trackA; trackB; trackC] 0)))
  = [trackA; trackB; trackC]
  /\ repeat (step (SetQueue [trackB] 0) (setRepeat All initial)) = All
  /\ volume (step Reset (setVolume (3 # 10) initial)) = 3 # 10.
Proof.
  destruct (actions_frame (NextTrack (1 # 2))
              (toggleShuffle (playing [trackA; trackB; trackC] 0)))
    as (Hq & _).
  destruct (actions_frame (SetQueue [trackB] 0) (setRepeat All initial))
    as (_ & Hm & _).
  destruct (actions_frame Reset (setVolume (3 # 10) initial))
    as (_ & _ & Hv).
  split; [exact (Hq eq_refl) |].
  split; [exact (proj2 (Hm eq_refl)) | exact (proj1 (Hv eq_refl))].
Defined.

(** *** Modes and volume *)

(** [toggleRepeat()] steps through off, all, one and back to off, and
    changes nothing else: three calls give the state back. *)
Theorem toggleRepeat_cycles (s : State) :
  repeat (toggleRepeat s)
  = match repeat s with
    | Off => All
    | All => One
    | One => Off
    end
  /\ toggleRepeat s = set_repeat (repeat (toggleRepeat s)) s
  /\ toggleRepeat (toggleRepeat (toggleRepeat s)) = s.
Proof.
  destruct s as [? ? ? ? ? ? ? ? ? ? ? mode].
  destruct mode; repeat split.
Qed.

(** [toggleMute()] does not remember the volume: muting writes volume 0, and
    unmuting then finds 0 and falls back to 0.8, whatever the volume was. *)
Theorem toggleMute_forgets_volume (s : State) :
  isMuted s = false ->
  isMuted (toggleMute s) = true
  /\ volume (toggleMute s) = 0%Q
  /\ isMuted (toggleMute (toggleMute s)) = false
  /\ volume (toggleMute (toggleMute s)) = (8 # 10)%Q.
Proof.
  intros Hunmuted. unfold toggleMute at 1 2 4 6. rewrite Hunmuted.
  unfold toggleMute, set; simpl. repeat split.
Qed.

Lemma toggleMute_forgets_volume_witness :
  volume (setVolume (3 # 10) initial) = (3 # 10)%Q
  /\ volume (toggleMute (toggleMute (setVolume (3 # 10) initial)))
     = (8 # 10)%Q.
Proof.
  split; [reflexivity |].
  apply (toggleMute_forgets_volume (setVolume (3 # 10) initial)).
  reflexivity.
Defined.

(** *** Logging out *)

(** [logout()] empties the auth store and resets the player: the player is
    the initial one again except for [volume], [isMuted], [shuffle] and
    [repeat], which keep their values. *)
Theorem logout_resets_player (auth : AuthStore.State) (player : State) :
  fst (AuthStore.logout (auth, player)) = AuthStore.initial
  /\ snd (AuthStore.logout (auth, player))
     = set [ set_volume (volume player);
             set_isMuted (isMuted player);
             set_shuffle (shuffle player);
             set_repeat (repeat player) ] initial
  /\ queue (snd (AuthStore.logout (auth, player))) = []
  /\ currentTrack (snd (AuthStore.logout (auth, player))) = Js.Null
  /\ isPlaying (snd (AuthStore.logout (auth, player))) = false.
Proof. repeat split. Qed.

(** *** The hooks *)

(** [findIndex] returns the position of the first element that [find]
    returns, and -1 when there is none. *)
Lemma findIndex_from_find {A : Type} (p : A -> bool) (arr : list A) :
  forall i,
    match find p arr with
    | Some a =>
        exists k,
          JsArray.findIndex_from p i arr = i + Z.of_nat k
          /\ nth_error arr k = Some a
    | None => JsArray.findIndex_from p i arr = -1
    end.
Proof.
  induction arr as [| x rest IH]; intros i; simpl; [reflexivity |].
  destruct (p x).
  - exists 0%nat. split; [lia | reflexivity].
  - specialize (IH (i + 1)). destruct (find p rest) as [a |].
    + destruct IH as (k & Hidx & Hnth). exists (S k).
      split; [lia | exact Hnth].
    + exact IH.
Qed.

(** [playTrack(track, playlist, queueTracks)] with a non-empty [queueTracks]
    replaces the queue by it and starts at the first entry whose id is that
    of [track]; when no entry has that id it starts at position 0, on
    another track than the one asked for.  Either way the cursor is in
    bounds and the current track is the entry under it. *)
Theorem playTrack_with_queue
  (track : Track) (playlist : option Playlist) (queueTracks : list Track)
  (s : State) :
  queueTracks <> [] ->
  let s' := Hooks.playTrack track playlist queueTracks s in
  queue s' = queueTracks
  /\ in_bounds s'
  /\ track_at_cursor s'
  /\ (forall t,
        find (fun t => String.eqb (id t) (id track)) queueTracks = Some t ->
        currentTrack s' = Js.Obj t /\ id t = id track)
  /\ (find (fun t => String.eqb (id t) (id track)) queueTracks = None ->
      currentIndex s' = Js.Num 0
      /\ currentTrack s' = Js.read (Js.get queueTracks 0)
      /\ currentTrack s' <> Js.Obj track).
Proof.
  intros Hne. cbn zeta. unfold Hooks.playTrack.
  pose proof (QueueSpec.nonempty_length queueTracks Hne) as Hlen.
  replace (Js.length queueTracks >? 0) with true
    by (symmetry; apply Z.gtb_lt; lia).
  unfold JsArray.findIndex.
  pose proof (findIndex_from_find
                (fun t => String.eqb (id t) (id track)) queueTracks 0)
    as Hfind.
  destruct (find (fun t => String.eqb (id t) (id track)) queueTracks)
    as [found |] eqn:Efind.
  - destruct Hfind as (k & Hidx & Hnth). rewrite Hidx, Z.add_0_l.
    replace (Z.of_nat k >=? 0) with true
      by (symmetry; apply Z.geb_le; lia).
    assert (Hk : (k < List.length queueTracks)%nat)
      by (apply nth_error_Some; congruence).
    assert (Hget : Js.get queueTracks (Z.of_nat k) = Some found).
    { unfold Js.get.
      replace (Z.of_nat k <? 0) with false
        by (symmetry; apply Z.ltb_ge; lia).
      now rewrite Nat2Z.id. }
    unfold setQueue, set, track_at_cursor, in_bounds; simpl.
    rewrite Hget.
    split; [reflexivity |]. split.
    { exists (Z.of_nat k). split; [reflexivity |].
      unfold Js.length. lia. }
    split; [reflexivity |]. split.
    + intros t Ht. injection Ht as <-. split; [reflexivity |].
      apply find_some in Efind. now apply String.eqb_eq.
    + discriminate.
  - rewrite Hfind. cbn [Z.geb Z.compare].
    destruct (JsFacts.get_in_range queueTracks 0) as [first Hfirst];
      [lia |].
    unfold setQueue, set, track_at_cursor, in_bounds; simpl.
    rewrite Hfirst.
    split; [reflexivity |]. split.
    { exists 0. split; [reflexivity | lia]. }
    split; [reflexivity |]. split; [discriminate |].
    intros _. split; [reflexivity |]. split; [reflexivity |].
    intros Heq. injection Heq as ->.
    assert (Hin : In track queueTracks).
    { unfold Js.get in Hfirst. simpl in Hfirst.
      destruct queueTracks as [| x rest]; [discriminate |].
      injection Hfirst as ->. now left. }
    pose proof (find_none _ _ Efind track Hin) as Hno. simpl in Hno.
    now rewrite String.eqb_refl in Hno.
Qed.

Lemma playTrack_with_queue_witness :
  currentTrack (Hooks.playTrack trackB None [trackA; trackB; trackC] initial)
  = Js.Obj trackB
  /\ currentTrack (Hooks.playTrack trackC None [trackA; trackB] initial)
     = Js.Obj trackA.
Proof.
  destruct (playTrack_with_queue trackB None [trackA; trackB; trackC] initial
              ltac:(discriminate)) as (_ & _ & _ & Hfound & _).
  destruct (playTrack_with_queue trackC None [trackA; trackB] initial
              ltac:(discriminate)) as (_ & _ & _ & _ & Hmissing).
  split.
  - apply (Hfound trackB). reflexivity.
  - destruct (Hmissing eq_refl) as (_ & Htrack & _). rewrite Htrack.
    reflexivity.
Defined.

(** [playTrack(track, playlist)] without queue tracks keeps the queue that
    is there: the track becomes the current one and the cursor goes to 0,
    so the current track need not be the queue entry under the cursor. *)
Theorem playTrack_without_queue
  (track : Track) (playlist : option Playlist) (s : State) :
  let s' := Hooks.playTrack track playlist [] s in
  queue s' = queue s
  /\ currentIndex s' = Js.Num 0
  /\ currentTrack s' = Js.Obj track
  /\ currentPlaylist s' = playlist
  /\ (forall first rest,
        queue s = first :: rest -> first <> track -> ~ track_at_cursor s').
Proof.
  cbn zeta. repeat split.
  intros first rest Hqueue Hdiff Hsync.
  unfold track_at_cursor, Hooks.playTrack, setCurrentTrack, set in Hsync.
  simpl in Hsync. rewrite Hqueue in Hsync.
  injection Hsync as Heq. now apply Hdiff.
Qed.

Lemma playTrack_without_queue_witness :
  ~ track_at_cursor
      (Hooks.playTrack trackC None [] (playing [trackA; trackB] 1)).
Proof.
  destruct (playTrack_without_queue trackC None (playing [trackA; trackB] 1))
    as (_ & _ & _ & _ & Hdesync).
  apply (Hdesync trackA [trackB]); [reflexivity |].
  intros Heq. discriminate Heq.
Defined.

(** [playPlaylist(playlist, startIndex)] does nothing for a playlist without
    tracks; otherwise it replaces the queue, and with [startIndex] an index
    of the tracks the cursor is in bounds and the current track is the entry
    under it. *)
Theorem playPlaylist_starts_queue
  (playlist : Playlist) (startIndex : Z) (s : State) :
  (tracks playlist = [] -> Hooks.playPlaylist playlist startIndex s = s)
  /\ (tracks playlist <> [] ->
      queue (Hooks.playPlaylist playlist startIndex s) = tracks playlist
      /\ currentIndex (Hooks.playPlaylist playlist startIndex s)
         = Js.Num startIndex)
  /\ (0 <= startIndex < Js.length (tracks playlist) ->
      in_bounds (Hooks.playPlaylist playlist startIndex s)
      /\ track_at_cursor (Hooks.playPlaylist playlist startIndex s)).
Proof.
  unfold Hooks.playPlaylist. split; [| split].
  - intros Hnil. now rewrite Hnil.
  - intros Hne. pose proof (QueueSpec.nonempty_length _ Hne) as Hlen.
    replace (Js.length (tracks playlist) >? 0) with true
      by (symmetry; apply Z.gtb_lt; lia).
    split; reflexivity.
  - intros Hin.
    replace (Js.length (tracks playlist) >? 0) with true
      by (symmetry; apply Z.gtb_lt; lia).
    split; [| reflexivity].
    exists startIndex. split; [reflexivity | exact Hin].
Qed.

Lemma playPlaylist_starts_queue_witness :
  Hooks.playPlaylist (mkPlaylist "Empty" []) 0 (playing [trackA] 0)
  = playing [trackA] 0
  /\ track_at_cursor
       (Hooks.playPlaylist (mkPlaylist "Mix" [trackA; trackB]) 1 initial).
Proof.
  destruct (playPlaylist_starts_queue (mkPlaylist "Empty" []) 0
              (playing [trackA] 0)) as (Hempty & _).
  destruct (playPlaylist_starts_queue (mkPlaylist "Mix" [trackA; trackB]) 1
              initial) as (_ & _ & Hin).
  split; [apply Hempty; reflexivity |].
  apply Hin. vm_compute. split; [discriminate | reflexivity].
Defined.

End QueueMore.

(** ** Lists keyed by an id *)

Module Keyed.

Section ById.

Variable A : Type.
Variable key : A -> string.

(** [arr.some(x => x.key === k)] *)
Lemma some_key_In (k : string) (arr : list A) :
  JsArray.some (fun x => String.eqb (key x) k) arr = true
  <-> In k (map key arr).
Proof.
  unfold JsArray.some. rewrite existsb_exists, in_map_iff. split.
  - intros (x & Hin & Heq). exists x. split; [| exact Hin].
    now apply String.eqb_eq.
  - intros (x & Heq & Hin). exists x. split; [exact Hin |].
    now apply String.eqb_eq.
Qed.

Lemma some_key_false (k : string) (arr : list A) :
  JsArray.some (fun x => String.eqb (key x) k) arr = false
  <-> ~ In k (map key arr).
Proof.
  rewrite <- some_key_In.
  destruct (JsArray.some _ arr); split; intros H.
  - discriminate H.
  - now contradiction H.
  - intros Htrue. discriminate Htrue.
  - reflexivity.
Qed.

(** [arr.filter(x => x.key !== k)] *)
Lemma filter_key_gone (k : string) (arr : list A) :
  ~ In k (map key (filter (fun x => negb (String.eqb (key x) k)) arr)).
Proof.
  rewrite in_map_iff. intros (x & Heq & Hin).
  apply filter_In in Hin. destruct Hin as [_ Hkeep].
  apply negb_true_iff, String.eqb_neq in Hkeep. now apply Hkeep.
Qed.

Lemma filter_key_absent (k : string) (arr : list A) :
  ~ In k (map key arr) ->
  filter (fun x => negb (String.eqb (key x) k)) arr = arr.
Proof.
  induction arr as [| x rest IH]; intros Habsent; simpl; [reflexivity |].
  simpl in Habsent.
  destruct (String.eqb_spec (key x) k) as [Heq | _]; simpl.
  - exfalso. apply Habsent. now left.
  - rewrite IH; [reflexivity |]. intros Hin. apply Habsent. now right.
Qed.

Lemma filter_key_other (k k' : string) (arr : list A) :
  k' <> k ->
  (In k' (map key (filter (fun x => negb (String.eqb (key x) k)) arr))
   <-> In k' (map key arr)).
Proof.
  intros Hne. rewrite !in_map_iff. split.
  - intros (x & Heq & Hin). apply filter_In in Hin.
    exists x. now split.
  - intros (x & Heq & Hin). exists x. split; [exact Heq |].
    apply filter_In. split; [exact Hin |].
    apply negb_true_iff, String.eqb_neq. congruence.
Qed.

(** Pushing an element and filtering its key out again gives the array
    back, when the key was not there. *)
Lemma filter_key_pushed (x : A) (arr : list A) :
  ~ In (key x) (map key arr) ->
  filter (fun y => negb (String.eqb (key y) (key x))) (arr ++ [x]) = arr.
Proof.
  intros Habsent. rewrite filter_app, filter_key_absent by exact Habsent.
  simpl. rewrite String.eqb_refl. simpl. apply app_nil_r.
Qed.

Lemma NoDup_key_pushed (x : A) (arr : list A) :
  NoDup (map key arr) -> ~ In (key x) (map key arr) ->
  NoDup (map key (arr ++ [x])).
Proof.
  intros Hnodup Habsent. rewrite map_app. simpl.
  apply NoDup_app.
  - exact Hnodup.
  - constructor; [easy | constructor].
  - intros k Hin [<- | []]. now apply Habsent.
Qed.

Lemma NoDup_key_filter (f : A -> bool) (arr : list A) :
  NoDup (map key arr) -> NoDup (map key (filter f arr)).
Proof.
  induction arr as [| x rest IH]; intros Hnodup; simpl; [constructor |].
  simpl in Hnodup. apply NoDup_cons_iff in Hnodup.
  destruct Hnodup as [Hfresh Hnodup].
  destruct (f x); simpl; [| now apply IH].
  constructor; [| now apply IH].
  intros Hin. apply Hfresh.
  apply in_map_iff in Hin. destruct Hin as (y & Heq & Hin).
  apply filter_In in Hin. apply in_map_iff. exists y. now split.
Qed.

End ById.

End Keyed.

(** ** The favorites store *)

Module FavoritesSpec.

Import FavoritesStore.

(** The track ids of the favorites. *)
Local Abbreviation ids s := (map trackId (favorites s)).

Lemma isFavorite_In (id : string) (s : State) :
  isFavorite id s = true <-> In id (ids s).
Proof. apply Keyed.some_key_In. Qed.

Lemma addFavorite_absent (track : Favorite) (s : State) :
  isFavorite (trackId track) s = false ->
  addFavorite track s = {| favorites := favorites s ++ [track] |}.
Proof. unfold isFavorite, addFavorite. intros ->. reflexivity. Qed.

Lemma addFavorite_present (track : Favorite) (s : State) :
  isFavorite (trackId track) s = true -> addFavorite track s = s.
Proof. unfold isFavorite, addFavorite. intros ->. reflexivity. Qed.

(** [addFavorite(track)] makes the track id a favorite and never stores an
    id twice: when the id is there already the state is left as it is, even
    if the new object differs, so a second call changes nothing; distinct
    ids stay distinct. *)
Theorem addFavorite_once (track : Favorite) (s : State) :
  isFavorite (trackId track) (addFavorite track s) = true
  /\ (isFavorite (trackId track) s = true -> addFavorite track s = s)
  /\ (isFavorite (trackId track) s = false ->
      favorites (addFavorite track s) = favorites s ++ [track])
  /\ addFavorite track (addFavorite track s) = addFavorite track s
  /\ (NoDup (ids s) -> NoDup (ids (addFavorite track s))).
Proof.
  pose proof (addFavorite_present track s) as Hthere.
  pose proof (addFavorite_absent track s) as Hnew.
  assert (Hafter : isFavorite (trackId track) (addFavorite track s) = true).
  { destruct (isFavorite (trackId track) s) eqn:E.
    - now rewrite (Hthere eq_refl).
    - rewrite (Hnew eq_refl). apply isFavorite_In. simpl.
      rewrite map_app. apply in_or_app. right. now left. }
  split; [exact Hafter |]. split; [exact Hthere |].
  split; [intros E; now rewrite (Hnew E) |].
  split.
  - unfold addFavorite at 1. fold (isFavorite (trackId track)
                                     (addFavorite track s)).
    now rewrite Hafter.
  - intros Hnodup. destruct (isFavorite (trackId track) s) eqn:E.
    + now rewrite (Hthere eq_refl).
    + rewrite (Hnew eq_refl). simpl.
      apply Keyed.NoDup_key_pushed; [exact Hnodup |].
      now apply Keyed.some_key_false.
Qed.

Lemma addFavorite_once_witness :
  addFavorite (mkFavorite "a" "Renamed" "Ann")
    (addFavorite (mkFavorite "a" "Alpha" "Ann") initial)
  = addFavorite (mkFavorite "a" "Alpha" "Ann") initial
  /\ NoDup
       (map trackId
          (favorites
             (addFavorite (mkFavorite "b" "Beta" "Bob")
                (addFavorite (mkFavorite "a" "Alpha" "Ann") initial)))).
Proof.
  destruct (addFavorite_once (mkFavorite "a" "Renamed" "Ann")
              (addFavorite (mkFavorite "a" "Alpha" "Ann") initial))
    as (_ & Hthere & _).
  destruct (addFavorite_once (mkFavorite "b" "Beta" "Bob")
              (addFavorite (mkFavorite "a" "Alpha" "Ann") initial))
    as (_ & _ & _ & _ & Hdistinct).
  split; [apply Hthere; reflexivity |].
  apply Hdistinct. repeat constructor. intros [].
Defined.

(** [removeFavorite(trackId)] removes every favorite with that id and no
    other: the id is no favorite afterwards, every other id is one exactly
    if it was, and removing a track just added to a state that did not have
    it gives that state back. *)
Theorem removeFavorite_removes (id : string) (s : State) :
  isFavorite id (removeFavorite id s) = false
  /\ (forall other, other <> id ->
        isFavorite other (removeFavorite id s) = isFavorite other s)
  /\ (isFavorite id s = false -> removeFavorite id s = s)
  /\ (forall track,
        trackId track = id -> isFavorite id s = false ->
        removeFavorite id (addFavorite track s) = s).
Proof.
  split; [| split; [| split]].
  - apply Keyed.some_key_false. apply Keyed.filter_key_gone.
  - intros other Hne.
    destruct (isFavorite other s) eqn:E.
    + apply isFavorite_In. apply isFavorite_In in E.
      now apply Keyed.filter_key_other.
    + apply Keyed.some_key_false. apply Keyed.some_key_false in E.
      intros Hin. apply E. simpl in Hin.
      now apply Keyed.filter_key_other in Hin.
  - intros Habsent. apply Keyed.some_key_false in Habsent.
    unfold removeFavorite. rewrite Keyed.filter_key_absent by exact Habsent.
    now destruct s.
  - intros track <- Habsent.
    unfold removeFavorite. rewrite (addFavorite_absent track s Habsent).
    cbn [favorites].
    apply Keyed.some_key_false in Habsent.
    rewrite Keyed.filter_key_pushed by exact Habsent.
    now destruct s.
Qed.

Lemma removeFavorite_removes_witness :
  removeFavorite "b"
    (addFavorite (mkFavorite "b" "Beta" "Bob")
       (addFavorite (mkFavorite "a" "Alpha" "Ann") initial))
  = addFavorite (mkFavorite "a" "Alpha" "Ann") initial.
Proof.
  apply (removeFavorite_removes "b"
           (addFavorite (mkFavorite "a" "Alpha" "Ann") initial));
    reflexivity.
Defined.

End FavoritesSpec.

(** ** The user model *)

Module UserSpec.

Import UserModel.

(** What [addToRecentlyPlayed] computes, in one expression: the new entry in
    front of the other entries, cut to 50. *)
Lemma addToRecentlyPlayed_firstn
  (track : TrackInfo) (now : Z) (recentlyPlayed : list Recent.Entry) :
  addToRecentlyPlayed track now recentlyPlayed
  = Recent.mkEntry (trackId track) (title track) (artist track) now
    :: firstn 49
         (filter
            (fun item =>
               negb (String.eqb (Recent.trackId item) (trackId track)))
            recentlyPlayed).
Proof.
  unfold addToRecentlyPlayed, JsArray.slice0.
  set (removed := filter _ recentlyPlayed).
  destruct (Z.gtb_spec (Js.length (Recent.mkEntry (trackId track)
                                     (title track) (artist track) now
                                   :: removed)) 50) as [Hlong | Hshort].
  - reflexivity.
  - unfold Js.length in Hshort. simpl in Hshort.
    rewrite firstn_all2 by lia. reflexivity.
Qed.

(** [addToRecentlyPlayed(track)] puts the track first, stamped with the
    current time, keeps no other entry with its id nor any entry that was
    not there, and never leaves more than 50 entries; distinct ids stay
    distinct.  A list that is full loses its last entry when the track is
    new to it. *)
Theorem addToRecentlyPlayed_bounded
  (track : TrackInfo) (now : Z) (recentlyPlayed : list Recent.Entry) :
  let updated := addToRecentlyPlayed track now recentlyPlayed in
  Js.length updated <= 50
  /\ (exists rest,
        updated
        = Recent.mkEntry (trackId track) (title track) (artist track) now
          :: rest
        /\ ~ In (trackId track) (map Recent.trackId rest)
        /\ (forall item, In item rest -> In item recentlyPlayed))
  /\ (NoDup (map Recent.trackId recentlyPlayed) ->
      NoDup (map Recent.trackId updated))
  /\ (Js.length recentlyPlayed = 50 ->
      ~ In (trackId track) (map Recent.trackId recentlyPlayed) ->
      updated
      = Recent.mkEntry (trackId track) (title track) (artist track) now
        :: removelast recentlyPlayed).
Proof.
  cbn zeta. rewrite addToRecentlyPlayed_firstn.
  set (removed :=
         filter
           (fun item =>
              negb (String.eqb (Recent.trackId item) (trackId track)))
           recentlyPlayed).
  assert (Hgone : ~ In (trackId track) (map Recent.trackId removed))
    by apply Keyed.filter_key_gone.
  assert (Hsub : forall k,
            In k (map Recent.trackId (firstn 49 removed)) ->
            In k (map Recent.trackId removed)).
  { intros k Hin. apply in_map_iff in Hin.
    destruct Hin as (item & Heq & Hin).
    apply in_map_iff. exists item. split; [exact Heq |].
    rewrite <- (firstn_skipn 49 removed). apply in_or_app. now left. }
  split; [| split; [| split]].
  - unfold Js.length. cbn [List.length]. rewrite length_firstn. lia.
  - exists (firstn 49 removed). split; [reflexivity |].
    split; [intros Hin; now apply Hgone, Hsub |].
    intros item Hin.
    assert (Hin' : In item removed).
    { rewrite <- (firstn_skipn 49 removed). apply in_or_app. now left. }
    now apply filter_In in Hin'.
  - intros Hnodup. cbn [map Recent.trackId]. constructor.
    + intros Hin. now apply Hgone, Hsub.
    + assert (Hremoved : NoDup (map Recent.trackId removed))
        by now apply Keyed.NoDup_key_filter.
      rewrite <- (firstn_skipn 49 removed), map_app in Hremoved.
      now apply NoDup_app_remove_r in Hremoved.
  - intros Hfull Habsent. f_equal.
    unfold removed. rewrite Keyed.filter_key_absent by exact Habsent.
    rewrite removelast_firstn_len.
    unfold Js.length in Hfull. f_equal. lia.
Qed.

Lemma addToRecentlyPlayed_bounded_witness :
  NoDup
    (map Recent.trackId
       (addToRecentlyPlayed (mkTrackInfo "a" "Alpha" "Ann") 20
          [Recent.mkEntry "b" "Beta" "Bob" 10;
           Recent.mkEntry "a" "Alpha" "Ann" 5])).
Proof.
  destruct (addToRecentlyPlayed_bounded (mkTrackInfo "a" "Alpha" "Ann") 20
              [Recent.mkEntry "b" "Beta" "Bob" 10;
               Recent.mkEntry "a" "Alpha" "Ann" 5])
    as (_ & _ & Hdistinct & _).
  apply Hdistinct.
  repeat constructor; simpl; intuition discriminate.
Defined.

(** [addToFavorites] and [removeFromFavorites] on the user document: an id
    is stored at most once (a second add of the same id changes nothing and
    distinct ids stay distinct), a removed id is gone while the other tracks
    stay, and removing a track just added to a list that did not have it
    gives the list back. *)
Theorem user_favorites_once (track : TrackInfo) (favs : list TrackInfo) :
  In (trackId track) (map trackId (addToFavorites track favs))
  /\ (In (trackId track) (map trackId favs) ->
      addToFavorites track favs = favs)
  /\ (NoDup (map trackId favs) ->
      NoDup (map trackId (addToFavorites track favs)))
  /\ ~ In (trackId track)
         (map trackId (removeFromFavorites (trackId track) favs))
  /\ (forall other,
        In other favs -> trackId other <> trackId track ->
        In other (removeFromFavorites (trackId track) favs))
  /\ (~ In (trackId track) (map trackId favs) ->
      removeFromFavorites (trackId track) (addToFavorites track favs) = favs).
Proof.
  assert (Heta :
    mkTrackInfo (trackId track) (title track) (artist track) = track)
    by now destruct track.
  unfold addToFavorites, removeFromFavorites. rewrite Heta.
  destruct (JsArray.some
              (fun fav => String.eqb (trackId fav) (trackId track)) favs)
    eqn:E; cbn [negb].
  - pose proof (proj1 (Keyed.some_key_In _ trackId _ _) E) as Hin.
    split; [exact Hin |]. split; [reflexivity |]. split; [easy |].
    split; [apply Keyed.filter_key_gone |]. split.
    + intros other Hother Hne. apply filter_In. split; [exact Hother |].
      now apply negb_true_iff, String.eqb_neq.
    + intros Habsent. now contradiction Habsent.
  - pose proof (proj1 (Keyed.some_key_false _ trackId _ _) E) as Habsent.
    split; [rewrite map_app; apply in_or_app; right; now left |].
    split; [intros Hin; now contradiction Habsent |].
    split; [intros Hnodup; now apply Keyed.NoDup_key_pushed |].
    split; [apply Keyed.filter_key_gone |]. split.
    + intros other Hother Hne. apply filter_In. split; [exact Hother |].
      now apply negb_true_iff, String.eqb_neq.
    + intros _. now apply Keyed.filter_key_pushed.
Qed.

Lemma user_favorites_once_witness :
  addToFavorites (mkTrackInfo "a" "Renamed" "Ann")
    [mkTrackInfo "a" "Alpha" "Ann"]
  = [mkTrackInfo "a" "Alpha" "Ann"]
  /\ removeFromFavorites "b"
       (addToFavorites (mkTrackInfo "b" "Beta" "Bob")
          [mkTrackInfo "a" "Alpha" "Ann"])
     = [mkTrackInfo "a" "Alpha" "Ann"].
Proof.
  destruct (user_favorites_once (mkTrackInfo "a" "Renamed" "Ann")
              [mkTrackInfo "a" "Alpha" "Ann"]) as (_ & Hthere & _).
  destruct (user_favorites_once (mkTrackInfo "b" "Beta" "Bob")
              [mkTrackInfo "a" "Alpha" "Ann"])
    as (_ & _ & _ & _ & _ & Hback).
  split.
  - apply Hthere. now left.
  - apply Hback. simpl. intuition discriminate.
Defined.

End UserSpec.

(** ** More of the playlist model *)

Module PlaylistMore.

Import PlaylistModel PlaylistTotals PlaylistAccess Samples.

(** The [reduce] of [updateTotalDuration] adds up the durations. *)
Lemma reduce_durations (ts : list TrackEntry) :
  forall start,
    fold_left
      (fun total track =>
         total + match duration track with Some d => d | None => 0 end)
      ts start
    = start + sumDurations ts.
Proof.
  induction ts as [| t rest IH]; intros start; simpl; [lia |].
  rewrite IH. unfold durationOf. lia.
Qed.

Lemma totalDuration_updateTotalDuration (p : Playlist) :
  totalDuration (updateTotalDuration p) = sumDurations (tracks p).
Proof.
  unfold updateTotalDuration. simpl. now rewrite reduce_durations.
Qed.

Lemma sumDurations_app (ts us : list TrackEntry) :
  sumDurations (ts ++ us) = sumDurations ts + sumDurations us.
Proof.
  induction ts as [| t rest IH]; simpl; [reflexivity |].
  rewrite IH. lia.
Qed.

Lemma sumDurations_Permutation (ts us : list TrackEntry) :
  Permutation ts us -> sumDurations ts = sumDurations us.
Proof.
  induction 1; simpl; lia.
Qed.

(** [addTrack(track, userId)] throws when a track with that id is in the
    playlist and changes nothing then; otherwise it appends the track,
    stamped with the user and the time, and the total duration becomes the
    sum of the durations.  Distinct ids stay distinct. *)
Theorem addTrack_once
  (track : TrackEntry) (userId : string) (now : Z) (p : Playlist) :
  (In (trackId track) (map trackId (tracks p)) ->
   addTrack track userId now p = inl "Track already exists in playlist"%string)
  /\ (~ In (trackId track) (map trackId (tracks p)) ->
      exists p',
        addTrack track userId now p = inr p'
        /\ tracks p'
           = tracks p
             ++ [ mkTrackEntry (trackId track) (title track) (artist track)
                    (duration track) (audioUrl track) (imageUrl track)
                    now (Some userId) ]
        /\ totalDuration p' = sumDurations (tracks p) + durationOf track
        /\ totalDuration p' = sumDurations (tracks p')
        /\ (distinctIds p -> distinctIds p')).
Proof.
  unfold addTrack. split.
  - intros Hin. apply (Keyed.some_key_In _ trackId) in Hin.
    unfold JsArray.some in Hin. now rewrite Hin.
  - intros Habsent.
    pose proof (proj2 (Keyed.some_key_false _ trackId _ _) Habsent) as E.
    unfold JsArray.some in E. rewrite E.
    eexists. split; [reflexivity |].
    split; [reflexivity |].
    rewrite totalDuration_updateTotalDuration. cbn [tracks set_tracks].
    split; [rewrite sumDurations_app; simpl; unfold durationOf; simpl; lia |].
    split; [reflexivity |].
    unfold distinctIds. cbn [tracks updateTotalDuration set_totalDuration
                               set_tracks].
    intros Hnodup.
    now apply (Keyed.NoDup_key_pushed _ trackId
                 (mkTrackEntry (trackId track) (title track) (artist track)
                    (duration track) (audioUrl track) (imageUrl track)
                    now (Some userId))).
Qed.

Lemma addTrack_once_witness :
  addTrack (entry "a" "Again") "user-1" 7
    (playlistOf [entry "a" "One"; entry "b" "Two"])
  = inl "Track already exists in playlist"%string
  /\ exists p',
       addTrack (entry "c" "Three") "user-1" 7
         (playlistOf [entry "a" "One"; entry "b" "Two"]) = inr p'
       /\ totalDuration p' = 540.
Proof.
  destruct (addTrack_once (entry "a" "Again") "user-1" 7
              (playlistOf [entry "a" "One"; entry "b" "Two"]))
    as (Hthere & _).
  destruct (addTrack_once (entry "c" "Three") "user-1" 7
              (playlistOf [entry "a" "One"; entry "b" "Two"]))
    as (_ & Hnew).
  split; [apply Hthere; now left |].
  destruct Hnew as (p' & Hadd & _ & Htotal & _).
  { simpl. intuition discriminate. }
  exists p'. split; [exact Hadd | exact Htotal].
Defined.

(** [removeTrack(trackId)] takes out every track with that id and no other,
    and the total duration becomes the sum of the durations left; removing
    a track that [addTrack] has just added gives the track list back. *)
Theorem removeTrack_removes (id : string) (p : Playlist) :
  ~ In id (map trackId (tracks (removeTrack id p)))
  /\ (forall t, In t (tracks p) -> trackId t <> id ->
        In t (tracks (removeTrack id p)))
  /\ (forall t, In t (tracks (removeTrack id p)) -> In t (tracks p))
  /\ totalDuration (removeTrack id p) = sumDurations (tracks (removeTrack id p))
  /\ (distinctIds p -> distinctIds (removeTrack id p))
  /\ (forall track userId now p',
        trackId track = id ->
        addTrack track userId now p = inr p' ->
        tracks (removeTrack id p') = tracks p).
Proof.
  split; [apply Keyed.filter_key_gone |].
  split.
  { intros t Hin Hne. apply filter_In. split; [exact Hin |].
    now apply negb_true_iff, String.eqb_neq. }
  split; [intros t Hin; now apply filter_In in Hin |].
  split; [unfold removeTrack; now rewrite totalDuration_updateTotalDuration |].
  split; [intros Hnodup; now apply Keyed.NoDup_key_filter |].
  intros track userId now p' <- Hadd.
  unfold addTrack in Hadd.
  destruct (existsb _ (tracks p)) eqn:E; [discriminate |].
  injection Hadd as <-.
  cbn [removeTrack tracks updateTotalDuration set_totalDuration set_tracks].
  apply (Keyed.filter_key_pushed _ trackId
           (mkTrackEntry (trackId track) (title track) (artist track)
              (duration track) (audioUrl track) (imageUrl track)
              now (Some userId))).
  now apply Keyed.some_key_false.
Qed.

Lemma removeTrack_removes_witness :
  In (entry "a" "One")
    (tracks (removeTrack "b" (playlistOf [entry "a" "One"; entry "b" "Two"]))).
Proof.
  destruct (removeTrack_removes "b"
              (playlistOf [entry "a" "One"; entry "b" "Two"]))
    as (_ & Hkeep & _).
  apply Hkeep; [now left |]. discriminate.
Defined.

(** With distinct ids, reordering by the ids themselves changes nothing. *)
Lemma reorderedTracks_own_ids (ts us : list TrackEntry) :
  NoDup (map trackId ts) ->
  (forall t, In t us -> In t ts) ->
  reorderedTracks (map trackId us) ts = us.
Proof.
  intros Hnodup. rewrite PlaylistSpec.reorderedTracks_flat_map.
  induction us as [| u rest IH]; intros Hsub; simpl; [reflexivity |].
  rewrite (PlaylistSpec.findTrack_own_id ts u Hnodup (Hsub u (or_introl eq_refl))).
  simpl. f_equal. apply IH. intros t Hin. apply Hsub. now right.
Qed.

(** When the track ids are distinct and [trackIds] lists them all, each
    once, in any order, [reorderTracks(trackIds)] loses no track and adds
    none: the new track list is a permutation of the old one, carrying the
    ids in the order of [trackIds]; the sum of the durations is the same,
    so the stored total, which the call does not touch, stays right. *)
Theorem reorderTracks_permutes (trackIds : list string) (p : Playlist) :
  distinctIds p ->
  Permutation trackIds (map trackId (tracks p)) ->
  let p' := reorderTracks trackIds p in
  Permutation (tracks p') (tracks p)
  /\ map trackId (tracks p') = trackIds
  /\ sumDurations (tracks p') = sumDurations (tracks p)
  /\ totalDuration p' = totalDuration p
  /\ distinctIds p'.
Proof.
  intros Hnodup Hperm. cbn zeta.
  assert (Hids :
    map trackId (tracks (reorderTracks trackIds p)) = trackIds).
  { unfold reorderTracks. cbn [tracks set_tracks].
    rewrite PlaylistSpec.trackIds_reorderedTracks. unfold presentIds.
    apply forallb_filter_id. apply forallb_forall. intros id Hin.
    apply (Keyed.some_key_In _ trackId).
    now apply (Permutation_in _ Hperm). }
  assert (Hp :
    Permutation (tracks (reorderTracks trackIds p)) (tracks p)).
  { unfold reorderTracks. cbn [tracks set_tracks].
    rewrite PlaylistSpec.reorderedTracks_flat_map.
    rewrite (Permutation_flat_map _ Hperm).
    rewrite <- PlaylistSpec.reorderedTracks_flat_map.
    rewrite reorderedTracks_own_ids; [reflexivity | exact Hnodup | easy]. }
  split; [exact Hp |]. split; [exact Hids |].
  split; [now apply sumDurations_Permutation |].
  split; [reflexivity |].
  unfold distinctIds. rewrite Hids.
  apply (Permutation_NoDup (Permutation_sym Hperm)). exact Hnodup.
Qed.

Lemma reorderTracks_permutes_witness :
  tracks
    (reorderTracks ["c"; "a"; "b"]%string
       (playlistOf [entry "a" "One"; entry "b" "Two"; entry "c" "Three"]))
  = [entry "c" "Three"; entry "a" "One"; entry "b" "Two"]
  /\ sumDurations
       (tracks
          (reorderTracks ["c"; "a"; "b"]%string
             (playlistOf [entry "a" "One"; entry "b" "Two"; entry "c" "Three"])))
     = 540.
Proof.
  split; [reflexivity |].
  destruct (reorderTracks_permutes ["c"; "a"; "b"]%string
              (playlistOf [entry "a" "One"; entry "b" "Two"; entry "c" "Three"]))
    as (_ & _ & Hsum & _).
  - unfold distinctIds. simpl.
    repeat constructor; simpl; intuition discriminate.
  - simpl. apply Permutation_sym.
    apply (Permutation_cons_app ["c"]%string ["b"]%string "a"%string).
    apply (Permutation_cons_app ["c"]%string [] "b"%string).
    apply Permutation_refl.
  - cbn zeta in Hsum. rewrite Hsum. reflexivity.
Defined.

(** Whoever may edit a playlist may view it.  The owner may always do both;
    a collaborator with the 'edit' permission edits only while the playlist
    is collaborative.  Without a user id ([undefined]) [canEdit] throws, and
    [canView] answers for a public playlist only and throws otherwise. *)
Theorem edit_implies_view
  (collaborators : list Collaborator) (uid : string) (p : Playlist) :
  (canEdit collaborators (Some uid) p = inr true ->
   canView collaborators (Some uid) p = inr true)
  /\ (owner p = uid ->
      canEdit collaborators (Some uid) p = inr true
      /\ canView collaborators (Some uid) p = inr true)
  /\ (owner p <> uid -> collaborative p = false ->
      canEdit collaborators (Some uid) p = inr false)
  /\ canEdit collaborators None p = inl TypeError
  /\ canView collaborators None p
     = (if isPublic p then inr true else inl TypeError).
Proof.
  unfold canEdit, canView.
  split; [| split; [| split; [| split; reflexivity]]].
  - destruct (isPublic p); [reflexivity |].
    destruct (String.eqb (owner p) uid); [reflexivity |].
    destruct (collaborative p); [| discriminate].
    intros Hedit. injection Hedit as Hedit. f_equal.
    unfold JsArray.some in *. apply existsb_exists in Hedit.
    destruct Hedit as (c & Hin & Hc). apply andb_true_iff in Hc.
    apply existsb_exists. exists c. split; [exact Hin | apply Hc].
  - intros ->. rewrite String.eqb_refl.
    split; [reflexivity | now destruct (isPublic p)].
  - intros Hne Hsolo. apply String.eqb_neq in Hne.
    now rewrite Hne, Hsolo.
Qed.

Lemma edit_implies_view_witness :
  canView [mkCollaborator "user-2" Edit 0] (Some "user-2"%string)
    (mkPlaylist "Mix" "" "owner-1" [] false true 0 0 true)
  = inr true
  /\ canEdit [mkCollaborator "user-2" Edit 0] (Some "user-2"%string)
       (playlistOf [])
     = inr false.
Proof.
  destruct (edit_implies_view [mkCollaborator "user-2" Edit 0] "user-2"
              (mkPlaylist "Mix" "" "owner-1" [] false true 0 0 true))
    as (Hview & _).
  destruct (edit_implies_view [mkCollaborator "user-2" Edit 0] "user-2"
              (playlistOf [])) as (_ & _ & Hsolo & _).
  split; [apply Hview; reflexivity |].
  apply Hsolo; [discriminate | reflexivity].
Defined.

End PlaylistMore.

(** ** Objects used as maps *)

Module ObjFacts.

Lemma lookup_assign_same {V : Type} (k : string) (v : V) (o : Obj.t V) :
  Obj.lookup k (Obj.assign k v o) = Some v.
Proof.
  induction o as [| [k' v'] rest IH]; simpl.
  - now rewrite String.eqb_refl.
  - destruct (String.eqb_spec k' k) as [-> | Hne]; simpl.
    + now rewrite String.eqb_refl.
    + apply String.eqb_neq in Hne. now rewrite Hne.
Qed.

Lemma lookup_assign_other {V : Type} (k k' : string) (v : V) (o : Obj.t V) :
  k' <> k -> Obj.lookup k' (Obj.assign k v o) = Obj.lookup k' o.
Proof.
  intros Hne. induction o as [| [k0 v0] rest IH]; simpl.
  - destruct (String.eqb_spec k k'); [congruence | reflexivity].
  - destruct (String.eqb_spec k0 k) as [-> | Hne0]; simpl.
    + destruct (String.eqb_spec k k'); [congruence | reflexivity].
    + now rewrite IH.
Qed.

Lemma keys_assign {V : Type} (k k' : string) (v : V) (o : Obj.t V) :
  In k' (Obj.keys (Obj.assign k v o)) <-> k' = k \/ In k' (Obj.keys o).
Proof.
  unfold Obj.keys. induction o as [| [k0 v0] rest IH]; simpl.
  - intuition.
  - destruct (String.eqb_spec k0 k) as [-> | Hne]; simpl.
    + intuition.
    + rewrite IH. intuition.
Qed.

Lemma lookup_absent {V : Type} (k : string) (o : Obj.t V) :
  ~ In k (Obj.keys o) -> Obj.lookup k o = None.
Proof.
  unfold Obj.keys. induction o as [| [k0 v0] rest IH]; simpl;
    [reflexivity |].
  intros Habsent.
  destruct (String.eqb_spec k0 k) as [-> | _].
  - exfalso. apply Habsent. now left.
  - apply IH. intros Hin. apply Habsent. now right.
Qed.

(** [{ ...a, ...b }[k]] is [b[k]] when [b] has the property and [a[k]]
    otherwise. *)
Lemma lookup_spread {V : Type} (k : string) (b : Obj.t V) :
  NoDup (Obj.keys b) ->
  forall a,
    Obj.lookup k (Obj.spread a b)
    = match Obj.lookup k b with
      | Some v => Some v
      | None => Obj.lookup k a
      end.
Proof.
  unfold Obj.spread, Obj.keys.
  induction b as [| [k1 v1] rest IH]; intros Hnodup a; simpl;
    [reflexivity |].
  simpl in Hnodup. apply NoDup_cons_iff in Hnodup.
  destruct Hnodup as [Hfresh Hnodup].
  rewrite (IH Hnodup).
  destruct (String.eqb_spec k1 k) as [-> | Hne].
  - rewrite (lookup_absent k rest Hfresh). apply lookup_assign_same.
  - rewrite lookup_assign_other by congruence. reflexivity.
Qed.

End ObjFacts.

(** ** The UI store *)

Module UISpec.

Import UIStore.

(** [toggleTheme()] always lands on 'light' or 'dark'.  Two calls give the
    theme back exactly when it was one of the two: a theme set to anything
    else by [setTheme] is lost at the first toggle, which goes to 'light'. *)
Theorem toggleTheme_two_themes (s : State) :
  (theme (toggleTheme s) = "light"%string
   \/ theme (toggleTheme s) = "dark"%string)
  /\ (toggleTheme (toggleTheme s) = s
      <-> theme s = "light"%string \/ theme s = "dark"%string)
  /\ (theme s <> "light"%string -> theme (toggleTheme s) = "light"%string).
Proof.
  unfold toggleTheme. destruct s as [th sb md sq ld]; simpl.
  destruct (String.eqb_spec th "light") as [-> | Hne]; simpl.
  - split; [now right |]. split; [| intros H; now contradiction H].
    split; [intros _; now left | reflexivity].
  - split; [now left |]. split; [| reflexivity].
    split.
    + intros Heq. injection Heq as Heq. right. now symmetry.
    + intros [-> | ->]; [now contradiction Hne | reflexivity].
Qed.

Lemma toggleTheme_two_themes_witness :
  toggleTheme (toggleTheme (setTheme "dark" initial)) = setTheme "dark" initial
  /\ theme (toggleTheme (setTheme "sepia" initial)) = "light"%string.
Proof.
  destruct (toggleTheme_two_themes (setTheme "dark" initial)) as (_ & Hback & _).
  destruct (toggleTheme_two_themes (setTheme "sepia" initial)) as (_ & _ & Hlost).
  split; [apply Hback; now right |].
  apply Hlost. discriminate.
Defined.

(** [openModal] and [closeModal] write one entry of [modals] and leave the
    others alone.  [closeModal] does not delete: it stores
    [{ open: false, data: null }], also for a modal that was never opened,
    so no name ever leaves [modals].  [setLoading] does the same on
    [loading]. *)
Theorem modals_entries
  (modalName : string) (d : option string) (s : State) :
  Obj.lookup modalName (modals (openModal modalName d s))
  = Some (mkModal true d)
  /\ Obj.lookup modalName (modals (closeModal modalName s))
     = Some (mkModal false None)
  /\ Obj.lookup modalName (modals (closeModal modalName (openModal modalName d s)))
     = Some (mkModal false None)
  /\ (forall other,
        other <> modalName ->
        Obj.lookup other (modals (openModal modalName d s))
        = Obj.lookup other (modals s)
        /\ Obj.lookup other (modals (closeModal modalName s))
           = Obj.lookup other (modals s))
  /\ (forall known,
        In known (Obj.keys (modals s)) ->
        In known (Obj.keys (modals (openModal modalName d s)))
        /\ In known (Obj.keys (modals (closeModal modalName s))))
  /\ (forall key v,
        Obj.lookup key (loading (setLoading key v s)) = Some v
        /\ forall other,
             other <> key ->
             Obj.lookup other (loading (setLoading key v s))
             = Obj.lookup other (loading s)).
Proof.
  unfold openModal, closeModal, setLoading; simpl.
  split; [apply ObjFacts.lookup_assign_same |].
  split; [apply ObjFacts.lookup_assign_same |].
  split; [apply ObjFacts.lookup_assign_same |].
  split.
  { intros other Hne.
    split; now apply ObjFacts.lookup_assign_other. }
  split.
  { intros known Hin. split; apply ObjFacts.keys_assign; now right. }
  intros key v. split; [apply ObjFacts.lookup_assign_same |].
  intros other Hne. now apply ObjFacts.lookup_assign_other.
Qed.

Lemma modals_entries_witness :
  Obj.lookup "login" (modals (closeModal "share" (openModal "login" None initial)))
  = Some (mkModal true None).
Proof.
  destruct (modals_entries "share" None (openModal "login" None initial))
    as (_ & _ & _ & Hother & _).
  destruct (Hother "login"%string ltac:(discriminate)) as [_ Hclose].
  rewrite Hclose. reflexivity.
Defined.

End UISpec.

(** ** The playlists store and the auth store *)

Module PlaylistsSpec.

Import PlaylistsStore.

(** [updatePlaylist(playlistId, updates)] keeps the number and the order of
    the playlists, leaves those with another id as they are, and gives each
    playlist with that id the properties of [updates] over its own; when no
    playlist has the id nothing changes. *)
Theorem updatePlaylist_merges
  (playlistId : Value) (updates : PlaylistObj) (s : State) :
  List.length (playlists (updatePlaylist playlistId updates s))
  = List.length (playlists s)
  /\ (forall i p,
        nth_error (playlists s) i = Some p ->
        has_id playlistId p = false ->
        nth_error (playlists (updatePlaylist playlistId updates s)) i = Some p)
  /\ (forall i p,
        nth_error (playlists s) i = Some p ->
        has_id playlistId p = true ->
        NoDup (Obj.keys updates) ->
        exists p',
          nth_error (playlists (updatePlaylist playlistId updates s)) i
          = Some p'
          /\ forall k,
               Obj.lookup k p'
               = match Obj.lookup k updates with
                 | Some v => Some v
                 | None => Obj.lookup k p
                 end)
  /\ ((forall p, In p (playlists s) -> has_id playlistId p = false) ->
      updatePlaylist playlistId updates s = s)
  /\ currentPlaylist (updatePlaylist playlistId updates s) = currentPlaylist s.
Proof.
  unfold updatePlaylist; simpl.
  split; [apply length_map |].
  split.
  { intros i p Hnth Hid. rewrite nth_error_map, Hnth. simpl. now rewrite Hid. }
  split.
  { intros i p Hnth Hid Hnodup. exists (Obj.spread p updates).
    rewrite nth_error_map, Hnth. simpl. rewrite Hid.
    split; [reflexivity |]. intros k. now apply ObjFacts.lookup_spread. }
  split; [| reflexivity].
  intros Hnone. destruct s as [ps cur]; simpl in *. f_equal.
  induction ps as [| p rest IH]; simpl; [reflexivity |].
  rewrite (Hnone p (or_introl eq_refl)). f_equal.
  apply IH. intros q Hin. apply Hnone. now right.
Qed.

Lemma updatePlaylist_merges_witness :
  exists p',
    nth_error
      (playlists
         (updatePlaylist (VStr "p1") [("name"%string, VStr "Evening")]
            (addPlaylist
               [("id"%string, VStr "p1"); ("name"%string, VStr "Morning")]
               initial))) 0
    = Some p'
    /\ Obj.lookup "name" p' = Some (VStr "Evening")
    /\ Obj.lookup "id" p' = Some (VStr "p1").
Proof.
  destruct (updatePlaylist_merges (VStr "p1") [("name"%string, VStr "Evening")]
              (addPlaylist
                 [("id"%string, VStr "p1"); ("name"%string, VStr "Morning")]
                 initial)) as (_ & _ & Hmerge & _).
  destruct (Hmerge 0%nat
              [("id"%string, VStr "p1"); ("name"%string, VStr "Morning")]
              eq_refl eq_refl) as (p' & Hnth & Hlookup).
  { repeat constructor. intros []. }
  exists p'. split; [exact Hnth |].
  split; rewrite Hlookup; reflexivity.
Defined.

(** [addPlaylist] puts the playlist first; [removePlaylist(playlistId)]
    removes every playlist with that id and no other, so removing a
    playlist just added, whose id no other playlist has, gives the state
    back. *)
Theorem removePlaylist_removes (playlistId : Value) (s : State) :
  (forall p,
     In p (playlists (removePlaylist playlistId s)) <->
     In p (playlists s) /\ has_id playlistId p = false)
  /\ (forall p, playlists (addPlaylist p s) = p :: playlists s)
  /\ (forall p,
        has_id playlistId p = true ->
        (forall q, In q (playlists s) -> has_id playlistId q = false) ->
        removePlaylist playlistId (addPlaylist p s) = s).
Proof.
  split; [| split; [reflexivity |]].
  - intros p. unfold removePlaylist; simpl. rewrite filter_In.
    now rewrite negb_true_iff.
  - intros p Hid Hnone. unfold removePlaylist, addPlaylist; simpl.
    rewrite Hid. simpl.
    destruct s as [ps cur]; simpl in *. f_equal.
    apply forallb_filter_id. apply forallb_forall.
    intros q Hin. now rewrite (Hnone q Hin).
Qed.

Lemma removePlaylist_removes_witness :
  removePlaylist (VStr "p1")
    (addPlaylist [("id"%string, VStr "p1")]
       (addPlaylist [("id"%string, VStr "p0")] initial))
  = addPlaylist [("id"%string, VStr "p0")] initial.
Proof.
  destruct (removePlaylist_removes (VStr "p1")
              (addPlaylist [("id"%string, VStr "p0")] initial))
    as (_ & _ & Hback).
  apply Hback; [reflexivity |].
  intros q [<- | []]. reflexivity.
Defined.

(** [updateUser(userData)] merges [userData] over the stored user and does
    not look at the session: on a logged-out store it creates a user object
    from [userData] alone while [isAuthenticated] stays false and the token
    stays [null]. *)
Theorem updateUser_merges
  (userData : AuthStore.UserObj) (s : AuthStore.State) :
  NoDup (Obj.keys userData) ->
  exists merged,
    AuthStore.user (AuthStore.updateUser userData s) = Some merged
    /\ (forall k,
          Obj.lookup k merged
          = match Obj.lookup k userData with
            | Some v => Some v
            | None =>
                match AuthStore.user s with
                | Some old => Obj.lookup k old
                | None => None
                end
            end)
    /\ AuthStore.isAuthenticated (AuthStore.updateUser userData s)
       = AuthStore.isAuthenticated s
    /\ AuthStore.token (AuthStore.updateUser userData s) = AuthStore.token s.
Proof.
  intros Hnodup. unfold AuthStore.updateUser; simpl.
  eexists. split; [reflexivity |].
  split; [| split; reflexivity].
  intros k. rewrite ObjFacts.lookup_spread by exact Hnodup.
  destruct (Obj.lookup k userData); [reflexivity |].
  now destruct (AuthStore.user s).
Qed.

Lemma updateUser_merges_witness :
  exists merged,
    AuthStore.user
      (AuthStore.updateUser [("username"%string, VStr "ann")]
         AuthStore.initial)
    = Some merged
    /\ Obj.lookup "username" merged = Some (VStr "ann")
    /\ AuthStore.isAuthenticated
         (AuthStore.updateUser [("username"%string, VStr "ann")]
            AuthStore.initial)
       = false.
Proof.
  destruct (updateUser_merges [("username"%string, VStr "ann")]
              AuthStore.initial)
    as (merged & Huser & Hlookup & Hauth & _).
  { repeat constructor. intros []. }
  exists merged. split; [exact Huser |].
  split; [now rewrite Hlookup | exact Hauth].
Defined.

End PlaylistsSpec.

(** ** The array utilities *)

Module UtilsSpec.

Import Utils.

(** Inside the array and with a positive size, the slice of [chunkArray] is
    the next [size] elements, or what is left of them. *)
Lemma slice_chunk {A : Type} (array : list A) (size i : Z) :
  0 < size -> 0 <= i < Js.length array ->
  slice i (i + size) array
  = firstn (Z.to_nat size) (skipn (Z.to_nat i) array).
Proof.
  intros Hsize Hi. unfold slice.
  replace (i <? 0) with false by (symmetry; apply Z.ltb_ge; lia).
  replace (i + size <? 0) with false by (symmetry; apply Z.ltb_ge; lia).
  rewrite (Z.min_l i) by lia.
  destruct (Z.le_gt_cases (i + size) (Js.length array)) as [Hfits | Hover].
  - rewrite Z.min_l by lia. f_equal. lia.
  - rewrite Z.min_r by lia.
    unfold Js.length in *.
    rewrite !firstn_all2; [reflexivity | |]; rewrite length_skipn; lia.
Qed.

(** More fuel does not change what the loop returns. *)
Lemma chunk_loop_more_fuel {A : Type} (array : list A) (size : Z) :
  forall fuel i chunks result,
    chunk_loop fuel array size i chunks = Some result ->
    forall fuel', (fuel <= fuel')%nat ->
      chunk_loop fuel' array size i chunks = Some result.
Proof.
  induction fuel as [| fuel IH]; intros i chunks result Hrun fuel' Hle;
    simpl in Hrun; [discriminate |].
  destruct fuel' as [| fuel']; [lia |]. simpl.
  destruct (i <? Js.length array); [| exact Hrun].
  apply (IH _ _ _ Hrun). lia.
Qed.

(** The loop from counter [i]: it ends, and what it pushes is the rest of
    the array from [i], cut into pieces of [size], the last one possibly
    shorter. *)
Lemma chunk_loop_partitions {A : Type} (array : list A) (size : Z) :
  0 < size ->
  forall fuel i chunks,
    0 <= i ->
    (Z.to_nat (Js.length array - i) < fuel)%nat ->
    exists pushed,
      chunk_loop fuel array size i chunks = Some (chunks ++ pushed)
      /\ List.concat pushed = skipn (Z.to_nat i) array
      /\ Forall (fun c => 0 < Js.length c <= size) pushed
      /\ (forall k c,
            nth_error pushed k = Some c ->
            (S k < List.length pushed)%nat ->
            Js.length c = size).
Proof.
  intros Hsize.
  induction fuel as [| fuel IH]; intros i chunks Hi Hfuel; [lia |].
  simpl. destruct (Z.ltb_spec i (Js.length array)) as [Hin | Hout].
  - destruct (IH (i + size) (chunks ++ [slice i (i + size) array]))
      as (pushed & Hrun & Hconcat & Hsizes & Hfull); [lia | lia |].
    rewrite slice_chunk in * by lia.
    set (chunk := firstn (Z.to_nat size) (skipn (Z.to_nat i) array)) in *.
    assert (Hchunk : Js.length chunk = Z.min size (Js.length array - i)).
    { unfold chunk, Js.length in *. rewrite length_firstn, length_skipn.
      lia. }
    exists (chunk :: pushed).
    split; [now rewrite Hrun, <- app_assoc |].
    split.
    { simpl. rewrite Hconcat.
      replace (Z.to_nat (i + size)) with (Z.to_nat size + Z.to_nat i)%nat
        by lia.
      rewrite <- skipn_skipn. apply firstn_skipn. }
    split; [constructor; [lia | exact Hsizes] |].
    intros [| k] c Hnth Hmore; simpl in Hnth, Hmore.
    + injection Hnth as <-.
      destruct pushed as [| c' pushed']; [simpl in Hmore; lia |].
      assert (Hleft : skipn (Z.to_nat (i + size)) array <> []).
      { rewrite <- Hconcat. simpl.
        apply Forall_inv in Hsizes. unfold Js.length in Hsizes.
        destruct c'; [simpl in Hsizes; lia | discriminate]. }
      assert (i + size < Js.length array).
      { destruct (Z.lt_ge_cases (i + size) (Js.length array)) as [H | H];
          [exact H |].
        exfalso. apply Hleft. apply skipn_all2. unfold Js.length in H. lia. }
      lia.
    + apply (Hfull k c Hnth). lia.
  - exists []. rewrite app_nil_r. split; [reflexivity |].
    split; [| split; [constructor |]].
    + simpl. symmetry. apply skipn_all2. unfold Js.length in Hout. lia.
    + intros k c Hnth. now destruct k.
Qed.

(** With a size that is not positive the counter never gets past the array,
    and the loop does not end. *)
Lemma chunk_loop_diverges {A : Type} (array : list A) (size : Z) :
  size <= 0 -> array <> [] ->
  forall fuel i chunks, i <= 0 -> chunk_loop fuel array size i chunks = None.
Proof.
  intros Hsize Hne.
  pose proof (QueueSpec.nonempty_length array Hne) as Hlen.
  induction fuel as [| fuel IH]; intros i chunks Hi; simpl; [reflexivity |].
  replace (i <? Js.length array) with true
    by (symmetry; apply Z.ltb_lt; lia).
  apply IH. lia.
Qed.

(** [chunkArray(array, size)] with [size > 0] returns consecutive pieces of
    the array: put together they are the array, none is empty or longer
    than [size], and all but the last have exactly [size] elements.  With
    [size <= 0] and a non-empty array the loop never ends. *)
Theorem chunkArray_partitions {A : Type} (array : list A) (size : Z) :
  (0 < size ->
   exists chunks,
     (forall fuel,
        (List.length array < fuel)%nat ->
        chunkArray fuel array size = Some chunks)
     /\ List.concat chunks = array
     /\ Forall (fun c => 0 < Js.length c <= size) chunks
     /\ (forall k c,
           nth_error chunks k = Some c ->
           (S k < List.length chunks)%nat ->
           Js.length c = size))
  /\ (size <= 0 -> array <> [] ->
      forall fuel, chunkArray fuel array size = None).
Proof.
  split.
  - intros Hsize.
    destruct (chunk_loop_partitions array size Hsize
                (S (List.length array)) 0 [])
      as (chunks & Hrun & Hconcat & Hsizes & Hfull);
      [lia | unfold Js.length; lia |].
    exists chunks. split; [| split; [exact Hconcat | now split]].
    intros fuel Hfuel. unfold chunkArray.
    apply (chunk_loop_more_fuel array size _ _ _ _ Hrun). lia.
  - intros Hsize Hne fuel. unfold chunkArray.
    apply chunk_loop_diverges; [exact Hsize | exact Hne | lia].
Qed.

Lemma chunkArray_partitions_witness :
  chunkArray 6 [1; 2; 3; 4; 5] 2 = Some [[1; 2]; [3; 4]; [5]]
  /\ chunkArray 1000 [1; 2; 3] 0 = None.
Proof.
  destruct (chunkArray_partitions [1; 2; 3; 4; 5] 2) as (Hpos & _).
  destruct (chunkArray_partitions [1; 2; 3] 0) as (_ & Hzero).
  split.
  - destruct (Hpos ltac:(lia)) as (chunks & Hrun & _).
    rewrite (Hrun 6%nat ltac:(simpl; lia)).
    specialize (Hrun 6%nat ltac:(simpl; lia)).
    vm_compute in Hrun. now injection Hrun as <-.
  - apply Hzero; [lia | discriminate].
Defined.

(** *** [shuffleArray] *)

Lemma length_update {A : Type} (n : nat) (v : A) (arr : list A) :
  List.length (update n v arr) = List.length arr.
Proof.
  revert n. induction arr as [| x rest IH]; intros [| n]; simpl;
    try reflexivity.
  now rewrite IH.
Qed.

Lemma map_update {A B : Type} (f : A -> B) (n : nat) (v : A) (arr : list A) :
  update n (f v) (map f arr) = map f (update n v arr).
Proof.
  revert n. induction arr as [| x rest IH]; intros [| n]; simpl;
    try reflexivity.
  now rewrite IH.
Qed.

(** Writing [v] over the element [a] of the array and keeping [a] aside
    rearranges the array with [v] in front. *)
Lemma update_takes_out {A : Type} (v a : A) (arr : list A) :
  forall n,
    nth_error arr n = Some a ->
    Permutation (a :: update n v arr) (v :: arr).
Proof.
  induction arr as [| x rest IH]; intros [| n] Hnth; simpl in *;
    try discriminate.
  - injection Hnth as ->. apply perm_swap.
  - apply Permutation_trans with (l' := x :: a :: update n v rest);
      [apply perm_swap |].
    apply Permutation_trans with (l' := x :: v :: rest);
      [apply perm_skip; now apply IH | apply perm_swap].
Qed.

(** Exchanging two elements of the array rearranges it. *)
Lemma update_exchange {A : Type} (arr : list A) :
  forall i j ai aj,
    nth_error arr i = Some ai ->
    nth_error arr j = Some aj ->
    Permutation (update j ai (update i aj arr)) arr.
Proof.
  induction arr as [| x rest IH]; intros [| i] [| j] ai aj Hi Hj;
    simpl in *; try discriminate.
  - injection Hi as ->. injection Hj as ->. apply Permutation_refl.
  - injection Hi as ->. now apply update_takes_out.
  - injection Hj as ->. now apply update_takes_out.
  - apply perm_skip. now apply (IH i j ai aj).
Qed.

(** Reading and writing inside an array without empty slots. *)
Lemma read_in_range {A : Type} (l : list A) (others : list (Z * option A))
  (k : Z) :
  0 <= k < Js.length l ->
  exists a,
    nth_error l (Z.to_nat k) = Some a
    /\ read (mkArr (map Some l) others) k = Some a.
Proof.
  intros Hk. unfold read, Js.length in *. cbn [elems].
  destruct (Z.ltb_spec k 0) as [Hneg | _]; [lia |].
  destruct (nth_error l (Z.to_nat k)) as [a |] eqn:Hnth.
  - exists a. split; [reflexivity |].
    now rewrite nth_error_map, Hnth.
  - apply nth_error_None in Hnth. lia.
Qed.

Lemma write_in_range {A : Type} (l : list A) (others : list (Z * option A))
  (k : Z) (a : A) :
  0 <= k < Js.length l ->
  write k (Some a) (mkArr (map Some l) others)
  = mkArr (map Some (update (Z.to_nat k) a l)) others.
Proof.
  intros Hk. unfold write, Js.length in *. cbn [elems Utils.others].
  destruct (Z.ltb_spec k 0) as [Hneg | _]; [lia |].
  rewrite length_map.
  destruct (Nat.ltb_spec (Z.to_nat k) (List.length l)) as [_ | Hout];
    [| lia].
  now rewrite map_update.
Qed.

(** An exchange between two positions of an array without empty slots. *)
Lemma swap_in_range {A : Type} (l : list A) (i j : Z) :
  0 <= i < Js.length l -> 0 <= j < Js.length l ->
  exists l',
    swap i j (mkArr (map Some l) []) = mkArr (map Some l') []
    /\ Permutation l' l
    /\ List.length l' = List.length l.
Proof.
  intros Hi Hj.
  destruct (read_in_range l [] i Hi) as (ai & Hnthi & Hreadi).
  destruct (read_in_range l [] j Hj) as (aj & Hnthj & Hreadj).
  exists (update (Z.to_nat j) ai (update (Z.to_nat i) aj l)).
  split; [| split].
  - unfold swap. rewrite Hreadi, Hreadj.
    rewrite write_in_range by exact Hi.
    rewrite write_in_range; [reflexivity |].
    unfold Js.length in *. now rewrite length_update.
  - now apply update_exchange.
  - now rewrite !length_update.
Qed.

(** The draw of one round of the loop is a position up to [i]. *)
Lemma shuffle_draw_in_range (r : Q) (i : nat) :
  Player.is_random r ->
  0 <= Js.Math_floor (Js.mul r (inject_Z (Z.of_nat i + 1))) <= Z.of_nat i.
Proof.
  intros Hr.
  pose proof (ShuffleFacts.floor_random_range r (Z.of_nat i + 1) Hr
                ltac:(lia)).
  lia.
Qed.

Lemma shuffle_loop_permutes {A : Type} (random : nat -> Q) :
  (forall call, Player.is_random (random call)) ->
  forall i call (l : list A),
    (i = 0 \/ i < List.length l)%nat ->
    exists l',
      shuffle_loop random call i (mkArr (map Some l) [])
      = mkArr (map Some l') []
      /\ Permutation l' l.
Proof.
  intros Hrandom.
  induction i as [| i IH]; intros call l Hi; cbn [shuffle_loop].
  - exists l. split; [reflexivity | apply Permutation_refl].
  - destruct Hi as [Hzero | Hi]; [discriminate |].
    pose proof (shuffle_draw_in_range (random call) (S i) (Hrandom call))
      as Hj.
    destruct (swap_in_range l (Z.of_nat (S i))
                (Js.Math_floor
                   (Js.mul (random call) (inject_Z (Z.of_nat (S i) + 1)))))
      as (l1 & Hswap & Hperm1 & Hlen1);
      [unfold Js.length; lia | unfold Js.length; lia |].
    rewrite Hswap.
    destruct (IH (S call) l1) as (l' & Hloop & Hperm'); [lia |].
    exists l'. split; [exact Hloop |].
    now apply Permutation_trans with (l' := l1).
Qed.

(** [shuffleArray(array)] returns a rearrangement of the array, whatever
    binary64 numbers in [0, 1) [Math.random()] returns: every exchange of
    the loop falls inside the array, so the result has no empty slot, no
    [undefined] and no stray property, and its elements are those of the
    array, each as often as there. *)
Theorem shuffleArray_permutes {A : Type}
  (random : nat -> Q) (array : list A) :
  (forall call, Player.is_random (random call)) ->
  exists shuffled,
    shuffleArray random array = mkArr (map Some shuffled) []
    /\ Permutation shuffled array
    /\ List.length shuffled = List.length array.
Proof.
  intros Hrandom. unfold shuffleArray.
  destruct (shuffle_loop_permutes random Hrandom
              (List.length array - 1) 0%nat array) as (l' & Hloop & Hperm);
    [lia |].
  exists l'. split; [exact Hloop |]. split; [exact Hperm |].
  now apply Permutation_length.
Qed.

Lemma shuffleArray_permutes_witness :
  exists shuffled,
    shuffleArray (fun _ => 1 # 2) [1; 2; 3; 4] = mkArr (map Some shuffled) []
    /\ Permutation shuffled [1; 2; 3; 4].
Proof.
  destruct (shuffleArray_permutes (fun _ => 1 # 2) [1; 2; 3; 4])
    as (shuffled & Heq & Hperm & _).
  - intros _. exact ShuffleFacts.is_random_half.
  - exists shuffled. split; [exact Heq | exact Hperm].
Defined.

(** With the draws 0.5 the loop exchanges 4 and 3, then 4 and 2; a draw
    past the array would leave an [undefined] in it. *)
Example shuffleArray_runs :
  shuffleArray (fun _ => 1 # 2) [1; 2; 3; 4]
  = mkArr [Some 1; Some 4; Some 2; Some 3] []
  /\ swap 1 3 (mkArr [Some 1; Some 2] [])
     = mkArr [Some 1; None; None; Some 2] [].
Proof. split; reflexivity. Qed.

End UtilsSpec.
